(** * Mean-field theory of LIF networks: Siegert rate, transfer function,
      network response

    A shallow embedding of the numerical core of [lif_meanfield_tools]
    ([aux_calcs.py] and [lif/exp.py]) and the properties its specification
    states about it.

    Conventions of the embedding.
    - A Python/NumPy float is a real number ([R]); the formulas are the
      exact real-arithmetic reading of the floating-point code (no rounding,
      no overflow, no NaN).  Where double precision changes the kind of a
      value (an exponential that underflows to 0.0 or overflows to inf, a
      sum [1 + erf] that cancels to 0.0, the nan of their product), a
      theorem states the bound non-strictly or names the range of arguments
      in which the value keeps its kind.
    - A one-dimensional NumPy array is a [list]; a complex number is a pair
      of reals; an [n x n] matrix is its entry function on indices below [n].
    - A Python exception is the [Raise] branch of the [result] type; the
      [warnings.warn] channel is an explicit log.
    - The special functions [erf], [erfcx] and [dawsn] and the inverse
      [numpy.linalg.inv] are defined by their mathematical meaning; the
      numerical routines of SciPy and mpmath ([zetac], [roots_legendre],
      [quad], [pcfu], [eig]) are parameters of the sections that use them.
    - A definition is the body of the Python function of the same name; the
      decorators of [utils.py] that wrap some of them (the parameter checks
      [_check_positive_params] and [_check_k_in_fast_synaptic_regime]) run
      before the body and are not part of it. *)

From Stdlib Require Import Reals Lra Lia List Bool Arith Permutation.
From Stdlib Require Import ClassicalEpsilon.
Import ListNotations.
Open Scope R_scope.

(* ================================================================== *)
(** * Part I: the embedding *)
(* ================================================================== *)

(** ** Exceptions and results *)

(** The exceptions the modelled code raises.  The convergence failure of the
    quadrature-order search carries the two values its message is formatted
    from: [f'Failed to converge after {maxiter} iterations. Last relative
    error {rel_error}.'] *)
Inductive exn : Type :=
| RuntimeError_convergence (maxiter : nat) (rel_error : R)
| RuntimeError_shape
| AssertionError
| UnboundLocalError
| TypeError
| ValueError
| ZeroDivisionError
| LinAlgError.

Inductive result (A : Type) : Type :=
| Ok (a : A)
| Raise (e : exn).
Arguments Ok {A} a.
Arguments Raise {A} e.

Definition bind {A B : Type} (c : result A) (k : A -> result B) : result B :=
  match c with
  | Ok a => k a
  | Raise e => Raise e
  end.

Notation "x <- c ;; k" := (bind c (fun x => k))
  (at level 61, c at next level, right associativity).

(** [assert cond] *)
Definition py_assert (cond : bool) : result unit :=
  if cond then Ok tt else Raise AssertionError.

(** What a function returns when it converts a one-element array back to a
    Python scalar ([nu.item(0)]) and returns the array itself otherwise. *)
Inductive pyval : Type :=
| PyFloat (x : R)
| NdArray (l : list R).

(** The elements of a returned value, as [np.atleast_1d] sees them. *)
Definition atleast_1d (v : pyval) : list R :=
  match v with
  | PyFloat x => [x]
  | NdArray l => l
  end.

(** ** Comparisons of floats *)

Definition Rltb (x y : R) : bool := if Rlt_dec x y then true else false.
Definition Rleb (x y : R) : bool := if Rle_dec x y then true else false.

(** ** NumPy arrays *)

Module np.

(** [f(a, b)] for an elementwise binary [f] on arrays of one shape. *)
Fixpoint zip_with {A B C : Type} (f : A -> B -> C) (a : list A) (b : list B)
  : list C :=
  match a, b with
  | x :: a', y :: b' => f x y :: zip_with f a' b'
  | _, _ => []
  end.

(** Elementwise application of an array of partially applied kernels: with
    [map] it spells an elementwise function of several arrays,
    [ap (ap (map f a) b) c]. *)
Definition ap {A B : Type} (fs : list (A -> B)) (xs : list A) : list B :=
  zip_with (fun f x => f x) fs xs.

(** [a[mask]]: the elements of [a] at which the boolean mask holds. *)
Fixpoint compress {A : Type} (mask : list bool) (a : list A) : list A :=
  match mask, a with
  | m :: mask', x :: a' =>
      if m then x :: compress mask' a' else compress mask' a'
  | _, _ => []
  end.

(** [a[mask] = vals]: the successive elements of [vals] are written to the
    positions of [a] at which the mask holds (the callers always pass as
    many values as the mask selects). *)
Fixpoint put_mask {A : Type} (a : list A) (mask : list bool) (vals : list A)
  : list A :=
  match a, mask with
  | x :: a', m :: mask' =>
      if m then
        match vals with
        | v :: vals' => v :: put_mask a' mask' vals'
        | [] => x :: put_mask a' mask' []
        end
      else x :: put_mask a' mask' vals
  | _, _ => a
  end.

Definition zeros (n : nat) : list R := repeat 0 n.

(** A scalar broadcast against an array of [n] elements. *)
Definition full (n : nat) (x : R) : list R := repeat x n.

Definition any (mask : list bool) : bool := existsb (fun m => m) mask.
Definition all (mask : list bool) : bool := forallb (fun m => m) mask.

(** [a.min()] and [a.max()]; both raise [ValueError] on an empty array. *)
Definition amin (a : list R) : result R :=
  match a with
  | [] => Raise ValueError
  | x :: a' => Ok (fold_left Rmin a' x)
  end.

Definition amax (a : list R) : result R :=
  match a with
  | [] => Raise ValueError
  | x :: a' => Ok (fold_left Rmax a' x)
  end.

(** [np.sum] *)
Definition sum (a : list R) : R := fold_right Rplus 0 a.

(** [np.argmin]: the index of the first occurrence of the minimum. *)
Fixpoint argmin_from (best : R) (best_i i : nat) (a : list R) : nat :=
  match a with
  | [] => best_i
  | x :: a' =>
      if Rltb x best then argmin_from x i (S i) a'
      else argmin_from best best_i (S i) a'
  end.

Definition argmin (a : list R) : result nat :=
  match a with
  | [] => Raise ValueError
  | x :: a' => Ok (argmin_from x 0%nat 1%nat a')
  end.

(** [np.where(mask, x, y)]; it states what a masked assignment computes. *)
Fixpoint where_ {A : Type} (mask : list bool) (x y : list A) : list A :=
  match mask, x, y with
  | m :: mask', v :: x', w :: y' =>
      (if m then v else w) :: where_ mask' x' y'
  | _, _, _ => []
  end.

(** The value a function returns after
    [if nu.shape == (1,): return nu.item(0) else: return nu]. *)
Definition item_if_single (a : list R) : pyval :=
  match a with
  | [x] => PyFloat x
  | _ => NdArray a
  end.

End np.

(* ------------------------------------------------------------------ *)
(** ** Complex numbers and matrices *)
(* ------------------------------------------------------------------ *)

(** A complex float, as its real and imaginary part. *)
Definition complex : Type := (R * R)%type.

Definition RtoC (x : R) : complex := (x, 0).
Definition Ci : complex := (0, 1).
Definition Cre (z : complex) : R := fst z.
Definition Cim (z : complex) : R := snd z.
Definition Cplus (z w : complex) : complex := (fst z + fst w, snd z + snd w).
Definition Cminus (z w : complex) : complex := (fst z - fst w, snd z - snd w).
Definition Cmult (z w : complex) : complex :=
  (fst z * fst w - snd z * snd w, fst z * snd w + snd z * fst w).
Definition Cinv (z : complex) : complex :=
  (fst z / (fst z ^ 2 + snd z ^ 2), - snd z / (fst z ^ 2 + snd z ^ 2)).
Definition Cdiv (z w : complex) : complex := Cmult z (Cinv w).
(** [np.conjugate] and [np.abs] / [np.absolute] *)
Definition Cconj (z : complex) : complex := (fst z, - snd z).
Definition Cabs (z : complex) : R := sqrt (fst z ^ 2 + snd z ^ 2).

Declare Scope complex_scope.
Delimit Scope complex_scope with C.
Bind Scope complex_scope with complex.
Infix "+" := Cplus : complex_scope.
Infix "-" := Cminus : complex_scope.
Infix "*" := Cmult : complex_scope.
Infix "/" := Cdiv : complex_scope.

(** [sum_{k < n} f k] *)
Fixpoint Csum (f : nat -> complex) (n : nat) : complex :=
  match n with
  | O => RtoC 0
  | S n' => Cplus (Csum f n') (f n')
  end.

(** An [n x n] complex array, as its entry function. *)
Definition matrix : Type := nat -> nat -> complex.

Module mat.

(** [np.identity(n)] *)
Definition identity : matrix :=
  fun i j => if Nat.eqb i j then RtoC 1 else RtoC 0.

Definition sub (A B : matrix) : matrix := fun i j => Cminus (A i j) (B i j).

(** [np.dot(A, B)] of two [n x n] arrays *)
Definition dot (n : nat) (A B : matrix) : matrix :=
  fun i j => Csum (fun k => Cmult (A i k) (B k j)) n.

(** [np.transpose(np.conjugate(Q))] *)
Definition conj_transpose (Q : matrix) : matrix := fun i j => Cconj (Q j i).

(** Equality of the entries of two [n x n] arrays. *)
Definition eq (n : nat) (A B : matrix) : Prop :=
  forall i j, (i < n)%nat -> (j < n)%nat -> A i j = B i j.

(** [Q] is the inverse of the [n x n] array [A]. *)
Definition is_inverse (n : nat) (A Q : matrix) : Prop :=
  eq n (dot n A Q) identity /\ eq n (dot n Q A) identity.

Definition invertible (n : nat) (A : matrix) : Prop :=
  exists Q, is_inverse n A Q.

(** [np.linalg.inv]: the inverse of an invertible array, [LinAlgError] for
    a singular one. *)
Definition inv (n : nat) (A : matrix) : result matrix :=
  match excluded_middle_informative (invertible n A) with
  | left H => Ok (proj1_sig (constructive_indefinite_description _ H))
  | right _ => Raise LinAlgError
  end.

End mat.

(** [f] applied to each element in turn, stopping at the first exception. *)
Fixpoint mapM {A B : Type} (f : A -> result B) (l : list A)
  : result (list B) :=
  match l with
  | [] => Ok []
  | x :: l' => y <- f x ;; ys <- mapM f l' ;; Ok (y :: ys)
  end.

(* ------------------------------------------------------------------ *)
(** ** The libraries the code calls *)
(* ------------------------------------------------------------------ *)

(** The numerical routines of SciPy and mpmath that the modelled code
    calls:
    - [scipy.special.zetac]: Riemann zeta minus one;
    - [scipy.special.roots_legendre order]: the sample points and the
      weights of the Gauss-Legendre rule of that order on [[-1, 1]];
    - [scipy.integrate.quad f a b epsabs=0 epsrel]: the adaptive estimate
      (first component of the returned pair);
    - [mpmath.pcfu z x]: the parabolic cylinder function U;
    - [scipy.linalg.eig W left=True right=True] of an [n x n] array: the
      eigenvalues, the left and the right eigenvectors (as columns). *)
Class Libraries : Type := {
  zetac : R -> R;
  roots_legendre : nat -> list R * list R;
  quad : (R -> R) -> R -> R -> R -> R;
  pcfu : complex -> R -> complex;
  eig : nat -> matrix -> list complex * matrix * matrix
}.

(** The delta-synapse rate and its derivative with respect to the mean
    input, which [lif/exp.py] imports from [lif/delta.py] (arguments
    [V_0_rel], [V_th_rel], [mu], [sigma], [tau_m], [tau_r]). *)
Class DeltaModule : Type := {
  _delta_firing_rate :
    list R -> list R -> list R -> list R -> list R -> list R -> result pyval;
  _derivative_of_delta_firing_rates_wrt_mean_input :
    list R -> list R -> list R -> list R -> list R -> list R -> result pyval
}.

(** ** Dawson's function *)

(** [scipy.special.dawsn]: [dawsn x = exp(-x^2) * int_0^x exp(t^2) dt]. *)
Definition exp_sq (t : R) : R := exp (t * t).

Definition exp_sq_integrable (a b : R) : Riemann_integrable exp_sq a b.
Proof.
  assert (Hc : forall x, continuity_pt exp_sq x).
  { intro x. unfold exp_sq.
    apply (continuity_pt_comp (fun t => t * t) exp).
    - apply continuity_pt_mult; apply derivable_continuous_pt, derivable_pt_id.
    - apply derivable_continuous_pt, derivable_pt_exp. }
  destruct (Rle_dec a b) as [Hab | Hab].
  - apply continuity_implies_RiemannInt; [exact Hab | intros; apply Hc].
  - apply RiemannInt_P1.
    apply continuity_implies_RiemannInt; [lra | intros; apply Hc].
Defined.

Definition dawsn (x : R) : R :=
  exp (- (x * x)) * RiemannInt (exp_sq_integrable 0 x).

(** ** The error function and its scaled complement *)

(** [scipy.special.erf]: [erf x = 2/sqrt(pi) * int_0^x exp(-t^2) dt]. *)
Definition exp_neg_sq (t : R) : R := exp (- (t * t)).

Definition exp_neg_sq_integrable (a b : R)
  : Riemann_integrable exp_neg_sq a b.
Proof.
  assert (Hc : forall x, continuity_pt exp_neg_sq x).
  { intro x. unfold exp_neg_sq.
    apply (continuity_pt_comp (fun t => - (t * t)) exp).
    - apply continuity_pt_opp, continuity_pt_mult;
        apply derivable_continuous_pt, derivable_pt_id.
    - apply derivable_continuous_pt, derivable_pt_exp. }
  destruct (Rle_dec a b) as [Hab | Hab].
  - apply continuity_implies_RiemannInt; [exact Hab | intros; apply Hc].
  - apply RiemannInt_P1.
    apply continuity_implies_RiemannInt; [lra | intros; apply Hc].
Defined.

Definition erf (x : R) : R :=
  2 / sqrt PI * RiemannInt (exp_neg_sq_integrable 0 x).

(** [scipy.special.erfcx]: [erfcx x = exp(x^2) * erfc(x)] with
    [erfc = 1 - erf]. *)
Definition erfcx (x : R) : R := exp (x ^ 2) * (1 - erf x).

(* ------------------------------------------------------------------ *)
(** ** [aux_calcs.py]: the Siegert rate for delta and exponential synapses *)
(* ------------------------------------------------------------------ *)

Section AuxCalcs.

Context {lib : Libraries}.

(** The fact about [roots_legendre] the rate bounds rest on: a
    Gauss-Legendre rule has its sample points in [[-1, 1]] and non-negative
    weights that sum to 2. *)
Definition gauss_legendre_rule (order : nat) : Prop :=
  Forall (fun x => -1 <= x <= 1) (fst (roots_legendre order))
  /\ Forall (fun w => 0 <= w) (snd (roots_legendre order))
  /\ np.sum (snd (roots_legendre order)) = 2.

(** One element of [_erfcx_integral]:
    [(b-a) * np.sum(w * erfcx((b-a)*x/2 + (b+a)/2), axis=0) / 2]. *)
Definition erfcx_integral_at (order : nat) (a b : R) : R :=
  let (x, w) := roots_legendre order in
  (b - a)
  * np.sum (np.zip_with
              (fun w x => w * erfcx ((b - a) * x / 2 + (b + a) / 2)) w x)
  / 2.

(** Fixed order Gauss-Legendre quadrature of erfcx from a to b. *)
Definition _erfcx_integral (a b : list R) (order : nat) : result (list R) :=
  _ <- py_assert (forallb (fun a => Rleb 0 a) a
                  && forallb (fun b => Rleb 0 b) b) ;;
  Ok (np.zip_with (erfcx_integral_at order) a b).

(** The loop of [_get_erfcx_integral_gl_order]: [iters] iterations are
    left, [order] is the order tried next and [rel_error] the relative error
    of the previous iteration (unbound before the first one). *)
Fixpoint gl_order_loop (a b I_quad epsrel : R) (maxiter iters order : nat)
  (rel_error : option R) : result nat :=
  match iters with
  | O =>
      match rel_error with
      | Some rel_error => Raise (RuntimeError_convergence maxiter rel_error)
      | None => Raise UnboundLocalError
      end
  | S iters' =>
      I_gl <- _erfcx_integral [a] [b] order ;;
      let rel_error := Rabs (hd 0 I_gl / I_quad - 1) in
      if Rltb rel_error epsrel then Ok order
      else gl_order_loop a b I_quad epsrel maxiter iters' (order * 2)
             (Some rel_error)
  end.

(** The relative error [np.abs(I_gl/I_quad - 1)] the loop computes when it
    tries [order]. *)
Definition rel_error_at (a b I_quad : R) (order : nat) : R :=
  Rabs (erfcx_integral_at order a b / I_quad - 1).

(** Determine order of Gauss-Legendre quadrature for erfcx integral. *)
Definition _get_erfcx_integral_gl_order (y_th y_r : list R)
  (start_order : nat) (epsrel : R) (maxiter : nat) : result nat :=
  a_th <- np.amin (map Rabs y_th) ;;
  a_r <- np.amin (map Rabs y_r) ;;
  let a := Rmin a_th a_r in
  b_th <- np.amax (map Rabs y_th) ;;
  b_r <- np.amax (map Rabs y_r) ;;
  let b := Rmax b_th b_r in
  let I_quad := quad erfcx a b epsrel in
  gl_order_loop a b I_quad epsrel maxiter maxiter start_order None.

(** One element of [_siegert_exc], [Int] being the quadrature value. *)
Definition siegert_exc_at (Int tau_m t_ref : R) : R :=
  1 / (t_ref + tau_m * sqrt PI * Int).

(** One element of [_siegert_inh], [I] being the quadrature value. *)
Definition siegert_inh_at (y_th y_r I tau_m t_ref : R) : R :=
  let e_V_th_2 := exp (- y_th ^ 2) in
  let Int := 2 * dawsn y_th - 2 * exp (y_r ^ 2 - y_th ^ 2) * dawsn y_r in
  let Int := Int - e_V_th_2 * I in
  e_V_th_2 / (e_V_th_2 * t_ref + tau_m * sqrt PI * Int).

(** One element of [_siegert_interm], [I] being the quadrature value. *)
Definition siegert_interm_at (y_th I tau_m t_ref : R) : R :=
  let e_V_th_2 := exp (- y_th ^ 2) in
  let Int := 2 * dawsn y_th in
  let Int := Int + e_V_th_2 * I in
  e_V_th_2 / (e_V_th_2 * t_ref + tau_m * sqrt PI * Int).

(** Calculate Siegert for y_th < 0.  [tau_m] and [t_ref] are arrays of the
    shape of [y_th] (a scalar is passed broadcast). *)
Definition _siegert_exc (y_th y_r tau_m t_ref : list R) (gl_order : nat)
  : result (list R) :=
  _ <- py_assert (forallb (fun y => Rltb y 0) y_th) ;;
  Int <- _erfcx_integral (map Rabs y_th) (map Rabs y_r) gl_order ;;
  Ok (np.ap (np.ap (map siegert_exc_at Int) tau_m) t_ref).

(** Calculate Siegert for 0 < y_r. *)
Definition _siegert_inh (y_th y_r tau_m t_ref : list R) (gl_order : nat)
  : result (list R) :=
  _ <- py_assert (forallb (fun y => Rltb 0 y) y_r) ;;
  I <- _erfcx_integral y_r y_th gl_order ;;
  Ok (np.ap (np.ap (np.ap (np.ap (map siegert_inh_at y_th) y_r) I) tau_m)
        t_ref).

(** Calculate Siegert for y_r <= 0 <= y_th. *)
Definition _siegert_interm (y_th y_r tau_m t_ref : list R) (gl_order : nat)
  : result (list R) :=
  _ <- py_assert (forallb (fun m => m)
                    (np.zip_with (fun y_r y_th => Rleb y_r 0 && Rleb 0 y_th)
                       y_r y_th)) ;;
  I <- _erfcx_integral y_th (map Rabs y_r) gl_order ;;
  Ok (np.ap (np.ap (np.ap (map siegert_interm_at y_th) I) tau_m) t_ref).

(** The value each branch computes for one element [y_th], [y_r], [tau_m],
    [t_ref] of its arguments. *)
Definition exc_at (gl_order : nat) (y_th y_r tau_m t_ref : R) : R :=
  siegert_exc_at (erfcx_integral_at gl_order (Rabs y_th) (Rabs y_r))
    tau_m t_ref.

Definition inh_at (gl_order : nat) (y_th y_r tau_m t_ref : R) : R :=
  siegert_inh_at y_th y_r (erfcx_integral_at gl_order y_r y_th) tau_m t_ref.

Definition interm_at (gl_order : nat) (y_th y_r tau_m t_ref : R) : R :=
  siegert_interm_at y_th (erfcx_integral_at gl_order y_th (Rabs y_r))
    tau_m t_ref.

(** The value the three masked assignments of [nu_0] leave in one element:
    a later assignment overwrites an earlier one, and an element that no
    mask selects keeps the 0 of [np.zeros]. *)
Definition siegert_at (gl_order : nat) (y_th y_r tau_m t_ref : R) : R :=
  if Rleb y_r 0 && Rleb 0 y_th then interm_at gl_order y_th y_r tau_m t_ref
  else if Rltb 0 y_r then inh_at gl_order y_th y_r tau_m t_ref
  else if Rltb y_th 0 then exc_at gl_order y_th y_r tau_m t_ref
  else 0.

(** Exactly one of the three masks holds for an element, and the output
    element [out] is the value of the branch whose mask holds. *)
Definition computed_by_one_branch (exc inh interm : bool)
  (out v_exc v_inh v_interm : R) : Prop :=
  (exc = true /\ inh = false /\ interm = false /\ out = v_exc)
  \/ (exc = false /\ inh = true /\ interm = false /\ out = v_inh)
  \/ (exc = false /\ inh = false /\ interm = true /\ out = v_interm).

(** The three domains of [nu_0] and of [_nu0_dPhi]. *)
Definition mask_exc (y_th : list R) : list bool :=
  map (fun y_th => Rltb y_th 0) y_th.
Definition mask_inh (y_r : list R) : list bool :=
  map (fun y_r => Rltb 0 y_r) y_r.
Definition mask_interm (y_th y_r : list R) : list bool :=
  np.zip_with (fun y_r y_th => Rleb y_r 0 && Rleb 0 y_th) y_r y_th.

(** Calculates stationary firing rates for delta shaped PSCs.  [mu] and
    [sigma] are arrays of one shape (a scalar is the one-element array);
    the element-wise quotients are formed pairwise, which is what NumPy
    does for arrays of one length (for other lengths it broadcasts or
    raises, and this definition says nothing). *)
Definition nu_0 (tau_m tau_r V_th_rel V_0_rel : R) (mu sigma : list R)
  : result pyval :=
  let y_th := np.zip_with (fun mu sigma => (V_th_rel - mu) / sigma) mu sigma in
  let y_r := np.zip_with (fun mu sigma => (V_0_rel - mu) / sigma) mu sigma in
  (* determine order of quadrature *)
  gl_order <- _get_erfcx_integral_gl_order y_th y_r 10 1e-12 10 ;;
  (* separate domains *)
  let mask_exc := mask_exc y_th in
  let mask_inh := mask_inh y_r in
  let mask_interm := mask_interm y_th y_r in
  (* calculate siegert *)
  let nu := np.zeros (length y_th) in
  let bc (mask : list bool) (x : R) :=
    np.full (length (np.compress mask y_th)) x in
  v <- _siegert_exc (np.compress mask_exc y_th) (np.compress mask_exc y_r)
         (bc mask_exc tau_m) (bc mask_exc tau_r) gl_order ;;
  let nu := np.put_mask nu mask_exc v in
  v <- _siegert_inh (np.compress mask_inh y_th) (np.compress mask_inh y_r)
         (bc mask_inh tau_m) (bc mask_inh tau_r) gl_order ;;
  let nu := np.put_mask nu mask_inh v in
  v <- _siegert_interm (np.compress mask_interm y_th)
         (np.compress mask_interm y_r)
         (bc mask_interm tau_m) (bc mask_interm tau_r) gl_order ;;
  let nu := np.put_mask nu mask_interm v in
  (* convert back to scalar if only one value calculated *)
  Ok (np.item_if_single nu).

(** helper function to calculate stationary firing rates with synaptic
    filtering *)
Definition Phi (s : R) : R :=
  sqrt (PI / 2) * (exp (s ^ 2 / 2) * (1 + erf (s / sqrt 2))).

(** The float a scalar computation continues with. *)
Definition as_float (v : pyval) : result R :=
  match v with
  | PyFloat x => Ok x
  | NdArray _ => Raise TypeError
  end.

(** Calcs stationary firing rates for exp PSCs (scalar arguments).  The
    final [if math.isnan(result): print(...)] does not change the returned
    value. *)
Definition nu0_fb433 (tau_m tau_s tau_r V_th_rel V_0_rel mu sigma : R)
  : result R :=
  let alpha := sqrt 2 * Rabs (zetac (1 / 2) + 1) in
  let x_th := sqrt 2 * (V_th_rel - mu) / sigma in
  let x_r := sqrt 2 * (V_0_rel - mu) / sigma in
  (* preventing overflow in np.exponent in Phi(s) *)
  if Rltb (20 / sqrt 2) x_th then
    v <- nu_0 tau_m tau_r V_th_rel V_0_rel [mu] [sigma] ;;
    as_float v
  else
    v <- nu_0 tau_m tau_r V_th_rel V_0_rel [mu] [sigma] ;;
    r <- as_float v ;;
    let dPhi := Phi x_th - Phi x_r in
    Ok (r - sqrt (tau_s / tau_m) * alpha / (tau_m * sqrt 2)
            * dPhi * (r * tau_m) ^ 2).

End AuxCalcs.

(* ------------------------------------------------------------------ *)
(** ** [lif/exp.py]: exponential synapses and the network response *)
(* ------------------------------------------------------------------ *)

(** The message of [warnings.warn] in [_firing_rate_taylor]:
    "Negative firing rates detected. You might be in an invalid regime.
    Use `method='shift'` for calculating the firing rates instead." *)
Inductive warning : Type :=
| NegativeFiringRates.

(** [x == y] on floats *)
Definition Reqb (x y : R) : bool := if Req_EM_T x y then true else false.

(** The helpers [lif/exp.py] imports from [lif/delta.py], a module that is
    not among the sources. *)
Module lif_delta.

Section Helpers.

Context {lib : Libraries}.

(** Modelled from the spec: [lif/delta.py] is missing, and with it the
    [_get_erfcx_integral_gl_order] that [_nu0_dPhi] calls.  The spec has one
    order search: "A companion routine determines the minimal order
    (starting at a configurable base order, e.g. 10, doubling up to a
    configurable max iteration count, e.g. 10) such that the relative error
    against a reference adaptive-quadrature estimate of the same integral
    falls below a tolerance (e.g. 1e-12)."  It is the routine of
    [aux_calcs.py]. *)
Definition _get_erfcx_integral_gl_order
  : list R -> list R -> nat -> R -> nat -> result nat :=
  _get_erfcx_integral_gl_order.

(** Modelled from the spec: [lif/delta.py] is missing, and with it the
    [_siegert_exc] that [_nu0_dPhi] calls.  The spec: "The Siegert rate
    module and the exponential-synapse module share three branch helper
    functions verbatim in the source"; branch "excitatory-like" (yth<0):
    rate = 1 / (tau_r + tau_m sqrt(pi) I(|yth|,|yr|)). *)
Definition _siegert_exc
  : list R -> list R -> list R -> list R -> nat -> result (list R) :=
  _siegert_exc.

(** Modelled from the spec: [lif/delta.py] is missing, and with it the
    [_siegert_inh] that [_nu0_dPhi] calls.  The spec: "The Siegert rate
    module and the exponential-synapse module share three branch helper
    functions verbatim in the source"; branch "inhibitory-like" (0<yr):
    rate = e^(-yth^2) / (e^(-yth^2) tau_r + tau_m sqrt(pi) Int). *)
Definition _siegert_inh
  : list R -> list R -> list R -> list R -> nat -> result (list R) :=
  _siegert_inh.

(** Modelled from the spec: [lif/delta.py] is missing, and with it the
    [_siegert_interm] that [_nu0_dPhi] calls.  The spec: "The Siegert rate
    module and the exponential-synapse module share three branch helper
    functions verbatim in the source"; branch "intermediate"
    (yr<=0<=yth): rate = e^(-yth^2) / (e^(-yth^2) tau_r + tau_m sqrt(pi)
    Int). *)
Definition _siegert_interm
  : list R -> list R -> list R -> list R -> nat -> result (list R) :=
  _siegert_interm.

End Helpers.

End lif_delta.

Section LifExp.

Context {lib : Libraries} {delta : DeltaModule}.

(** Returns an array of x of similar shape as array. *)
Definition _similar_array (x array : list R) : result (list R) :=
  if (length x =? length array)%nat then Ok x
  else if (length x =? 1)%nat then
    Ok (map (fun one => one * hd 0 x) (repeat 1 (length array)))
  else Raise RuntimeError_shape.

(** Brings list of arrays and scalars into similar 1d shape if possible.
    (It is always called with at least one argument.) *)
Definition _equalize_shape (args : list (list R)) : result (list (list R)) :=
  let max_arg :=
    fold_left (fun max_arg arg =>
                 if (length max_arg <? length arg)%nat then arg else max_arg)
      (tl args) (hd [] args) in
  mapM (fun arg => _similar_array arg max_arg) args.

(** One element of [_Phi_neg] and of [_Phi_pos]. *)
Definition Phi_neg_at (s : R) : R :=
  sqrt (PI / 2) * erfcx (Rabs s / sqrt 2).

Definition Phi_pos_at (s : R) : R :=
  sqrt (PI / 2) * (2 - exp (- s ^ 2 / 2) * erfcx (s / sqrt 2)).

(** Calculate Phi(s) for negative arguments *)
Definition _Phi_neg (s : list R) : result (list R) :=
  _ <- py_assert (forallb (fun s => Rleb s 0) s) ;;
  Ok (map Phi_neg_at s).

(** Calculate Phi(s) without exp(-s**2 / 2) factor for positive arguments *)
Definition _Phi_pos (s : list R) : result (list R) :=
  _ <- py_assert (forallb (fun s => Rleb 0 s) s) ;;
  Ok (map Phi_pos_at s).

(** helper function to calculate stationary firing rates with synaptic
    filtering (one element) *)
Definition _Phi (s : R) : R :=
  sqrt (PI / 2) * (exp (s ^ 2 / 2) * (1 + erf (s / sqrt 2))).

(** Calculate nu0 * ( Phi(sqrt(2)*y_th) - Psi(sqrt(2)*y_r) ) safely.  The
    order search and the three branch helpers are those of [lif_delta]. *)
Definition _nu0_dPhi (V_0_rel V_th_rel mu sigma tau_m tau_r : list R)
  : result pyval :=
  (* bring into appropriate shape *)
  args <- _equalize_shape [V_0_rel; V_th_rel; mu; sigma; tau_m; tau_r] ;;
  match args with
  | [V_0_rel; V_th_rel; mu; sigma; tau_m; tau_r] =>
      let y_th :=
        np.ap (np.ap (map (fun V_th_rel mu sigma => (V_th_rel - mu) / sigma)
                        V_th_rel) mu) sigma in
      let y_r :=
        np.ap (np.ap (map (fun V_0_rel mu sigma => (V_0_rel - mu) / sigma)
                        V_0_rel) mu) sigma in
      (* determine order of quadrature *)
      gl_order <- lif_delta._get_erfcx_integral_gl_order y_th y_r 10 1e-12 10 ;;
      (* separate domains *)
      let mask_exc := mask_exc y_th in
      let mask_inh := mask_inh y_r in
      let mask_interm := mask_interm y_th y_r in
      (* calculate rescaled siegert *)
      let nu := np.zeros (length y_th) in
      v <- lif_delta._siegert_exc (np.compress mask_exc y_th)
             (np.compress mask_exc y_r) (np.compress mask_exc tau_m)
             (np.compress mask_exc tau_r) gl_order ;;
      let nu := np.put_mask nu mask_exc v in
      v <- lif_delta._siegert_inh (np.compress mask_inh y_th)
             (np.compress mask_inh y_r) (np.compress mask_inh tau_m)
             (np.compress mask_inh tau_r) gl_order ;;
      let nu := np.put_mask nu mask_inh v in
      v <- lif_delta._siegert_interm (np.compress mask_interm y_th)
             (np.compress mask_interm y_r) (np.compress mask_interm tau_m)
             (np.compress mask_interm tau_r) gl_order ;;
      let nu := np.put_mask nu mask_interm v in
      (* calculate rescaled Phi *)
      let Phi_th := np.zeros (length y_th) in
      let Phi_r := np.zeros (length y_r) in
      let sqrt2_times (y : list R) := map (fun y => sqrt 2 * y) y in
      v <- _Phi_neg (sqrt2_times (np.compress mask_exc y_th)) ;;
      let Phi_th := np.put_mask Phi_th mask_exc v in
      v <- _Phi_neg (sqrt2_times (np.compress mask_exc y_r)) ;;
      let Phi_r := np.put_mask Phi_r mask_exc v in
      v <- _Phi_pos (sqrt2_times (np.compress mask_inh y_th)) ;;
      let Phi_th := np.put_mask Phi_th mask_inh v in
      v <- _Phi_pos (sqrt2_times (np.compress mask_inh y_r)) ;;
      let Phi_r := np.put_mask Phi_r mask_inh v in
      v <- _Phi_pos (sqrt2_times (np.compress mask_interm y_th)) ;;
      let Phi_th := np.put_mask Phi_th mask_interm v in
      v <- _Phi_neg (sqrt2_times (np.compress mask_interm y_r)) ;;
      let Phi_r := np.put_mask Phi_r mask_interm v in
      (* include exponential contributions *)
      let Phi_r :=
        np.put_mask Phi_r mask_inh
          (np.zip_with Rmult (np.compress mask_inh Phi_r)
             (np.zip_with (fun y_th y_r => exp (- y_th ^ 2 + y_r ^ 2))
                (np.compress mask_inh y_th) (np.compress mask_inh y_r))) in
      let Phi_r :=
        np.put_mask Phi_r mask_interm
          (np.zip_with Rmult (np.compress mask_interm Phi_r)
             (map (fun y_th => exp (- y_th ^ 2))
                (np.compress mask_interm y_th))) in
      (* calculate nu * dPhi *)
      let nu_dPhi := np.zip_with Rmult nu (np.zip_with Rminus Phi_th Phi_r) in
      (* convert back to scalar if only one value calculated *)
      Ok (np.item_if_single nu_dPhi)
  | _ => Raise ValueError
  end.

(** The value [_nu0_dPhi] computes for one element in each of the three
    domains. *)
Definition nu0_dPhi_exc_at (gl_order : nat) (y_th y_r tau_m t_ref : R) : R :=
  exc_at gl_order y_th y_r tau_m t_ref
  * (Phi_neg_at (sqrt 2 * y_th) - Phi_neg_at (sqrt 2 * y_r)).

Definition nu0_dPhi_inh_at (gl_order : nat) (y_th y_r tau_m t_ref : R) : R :=
  inh_at gl_order y_th y_r tau_m t_ref
  * (Phi_pos_at (sqrt 2 * y_th)
     - Phi_pos_at (sqrt 2 * y_r) * exp (- y_th ^ 2 + y_r ^ 2)).

Definition nu0_dPhi_interm_at (gl_order : nat) (y_th y_r tau_m t_ref : R)
  : R :=
  interm_at gl_order y_th y_r tau_m t_ref
  * (Phi_pos_at (sqrt 2 * y_th)
     - Phi_neg_at (sqrt 2 * y_r) * exp (- y_th ^ 2)).

(** An elementwise binary operation of two arrays that NumPy broadcasts
    against each other (a one-element array stands for a scalar). *)
Definition broadcast (f : R -> R -> R) (a b : list R) : result (list R) :=
  if (length a =? length b)%nat then Ok (np.zip_with f a b)
  else if (length a =? 1)%nat then Ok (map (f (hd 0 a)) b)
  else if (length b =? 1)%nat then Ok (map (fun x => f x (hd 0 b)) a)
  else Raise ValueError.

(** [nu0 * (1 - np.sqrt(tau_s * tau_m / 2) * alpha * nu0_dPhi)] *)
Definition taylor_rate (alpha : R) (nu0 nu0_dPhi tau_s tau_m : list R)
  : result (list R) :=
  tau_sm <- broadcast Rmult tau_s tau_m ;;
  let factor := map (fun tau_sm => sqrt (tau_sm / 2) * alpha) tau_sm in
  correction <- broadcast Rmult factor nu0_dPhi ;;
  broadcast Rmult nu0 (map (fun c => 1 - c) correction).

(** Calcs stationary firing rates for exp PSCs using a Taylor expansion.
    Returns the rate and the warnings emitted. *)
Definition _firing_rate_taylor
  (V_0_rel V_th_rel mu sigma tau_m tau_r tau_s : list R)
  : result (pyval * list warning) :=
  let alpha := sqrt 2 * Rabs (zetac (1 / 2) + 1) in
  nu0 <- _delta_firing_rate V_0_rel V_th_rel mu sigma tau_m tau_r ;;
  nu0_dPhi <- _nu0_dPhi V_0_rel V_th_rel mu sigma tau_m tau_r ;;
  result <- taylor_rate alpha (atleast_1d nu0) (atleast_1d nu0_dPhi)
              tau_s tau_m ;;
  let warnings :=
    if np.any (map (fun r => Rltb r 0) result)
    then [NegativeFiringRates] else [] in
  Ok (np.item_if_single result, warnings).

(** Calcs Psi(z,x)=exp(x**2/4)*U(z,x), with U(z,x) the parabolic cylinder
    func. *)
Definition _Psi (z : complex) (x : R) : complex :=
  Cmult (RtoC (exp (0.25 * x ^ 2))) (pcfu z (- x)).

(** First derivative of Psi using recurrence relations. *)
Definition _d_Psi (z : complex) (x : R) : complex :=
  Cmult (Cplus (RtoC (1 / 2)) z) (_Psi (Cplus z (RtoC 1)) x).

(** Second derivative of Psi using recurrence relations. *)
Definition _d_2_Psi (z : complex) (x : R) : complex :=
  Cmult (Cmult (Cplus (RtoC (1 / 2)) z) (Cplus (RtoC (3 / 2)) z))
    (_Psi (Cplus z (RtoC 2)) x).

(** One element of [_Phi_prime_mu] (its checks of [sigma] are made by the
    caller below). *)
Definition Phi_prime_mu_at (s sigma : R) : R :=
  - sqrt PI / sigma
  * (s * exp (s ^ 2 / 2) * (1 + erf (s / sqrt 2)) + sqrt 2 / sqrt PI).

(** Derivative of the helper function _Phi(s) with respect to the mean
    input *)
Definition _Phi_prime_mu (s sigma : list R) : result (list R) :=
  if np.any (map (fun sigma => Rltb sigma 0) sigma) then Raise ValueError
  else if np.any (map (fun sigma => Reqb sigma 0) sigma)
  then Raise ZeroDivisionError
  else Ok (np.zip_with Phi_prime_mu_at s sigma).

(** Derivative of the stationary firing rates with synaptic filtering with
    respect to the mean input (arguments of one shape). *)
Definition _derivative_of_firing_rates_wrt_mean_input
  (V_0_rel V_th_rel mu sigma tau_m tau_r tau_s : list R) : result (list R) :=
  if np.any (map (fun sigma => Reqb sigma 0) sigma)
  then Raise ZeroDivisionError
  else
    let alpha := sqrt 2 * Rabs (zetac (1 / 2) + 1) in
    let x_th :=
      np.ap (np.ap (map (fun V_th_rel mu sigma =>
                           sqrt 2 * (V_th_rel - mu) / sigma) V_th_rel) mu)
        sigma in
    let x_r :=
      np.ap (np.ap (map (fun V_0_rel mu sigma =>
                           sqrt 2 * (V_0_rel - mu) / sigma) V_0_rel) mu)
        sigma in
    nu0 <- _delta_firing_rate V_0_rel V_th_rel mu sigma tau_m tau_r ;;
    let integral :=
      np.zip_with (fun tau_m nu0 => 1 / tau_m / nu0) tau_m (atleast_1d nu0) in
    let prefactor :=
      np.zip_with (fun tau_s tau_m =>
                     sqrt (tau_s / tau_m) * alpha / (tau_m * sqrt 2))
        tau_s tau_m in
    dnudmu <- _derivative_of_delta_firing_rates_wrt_mean_input
                V_0_rel V_th_rel mu sigma tau_m tau_r ;;
    dPhi_prime_th <- _Phi_prime_mu x_th sigma ;;
    dPhi_prime_r <- _Phi_prime_mu x_r sigma ;;
    let dPhi_prime := np.zip_with Rminus dPhi_prime_th dPhi_prime_r in
    let dPhi := np.zip_with Rminus (map _Phi x_th) (map _Phi x_r) in
    let phi :=
      np.ap (np.ap (np.ap (map (fun dPhi_prime integral sigma dPhi =>
                                  dPhi_prime * integral
                                  + (2 * sqrt 2 / sigma) * dPhi ^ 2)
                             dPhi_prime) integral) sigma) dPhi in
    Ok (np.ap (np.ap (np.ap (map (fun dnudmu prefactor phi integral =>
                                    dnudmu - prefactor * phi / integral ^ 3)
                               (atleast_1d dnudmu)) prefactor) phi) integral).

(** Additional low-pass filter due to perturbation to the input current. *)
Definition _synaptic_filter (omegas tau_s : list R) : list (list complex) :=
  map (fun omega =>
         map (fun tau_s =>
                Cdiv (RtoC 1)
                  (Cplus (RtoC 1) (Cmult Ci (RtoC (omega * tau_s)))))
           tau_s)
    omegas.

(** [result *= _synaptic_filter(omegas, tau_s)] when [synaptic_filter]. *)
Definition apply_synaptic_filter (synaptic_filter : bool)
  (result : list (list complex)) (omegas tau_s : list R)
  : list (list complex) :=
  if synaptic_filter
  then np.zip_with (np.zip_with Cmult) result (_synaptic_filter omegas tau_s)
  else result.

(** The two near-zero tests. *)
Definition zero_omega_mask_shift (omegas : list R) : list bool :=
  map (fun omega => Rltb (Rabs omega) 1e-15) omegas.

Definition zero_omega_mask_taylor (omegas : list R) : list bool :=
  map (fun omega => Rltb omega 1e-15) omegas.

(** A row of the result for each frequency, each row the per-population
    values [d] (as complex numbers). *)
Definition dc_rows (count : nat) (d : list R) : list (list complex) :=
  repeat (map RtoC d) count.

(** One entry of the general formula of the shift method. *)
Definition transfer_function_shift_at (omega sigma nu tau_m x_t x_r : R)
  : complex :=
  let z := Cplus (RtoC (- 0.5)) (Cmult Ci (RtoC (omega * tau_m))) in
  let frac :=
    Cdiv (Cminus (_d_Psi z x_t) (_d_Psi z x_r))
      (Cminus (_Psi z x_t) (_Psi z x_r)) in
  Cmult
    (Cdiv (RtoC (sqrt 2 / sigma * nu))
       (Cplus (RtoC 1) (Cmult Ci (RtoC (omega * tau_m)))))
    frac.

(** Calcs value of transfer func for one population at given frequency
    omega (shift method). *)
Definition _transfer_function_shift
  (mu sigma tau_m tau_s tau_r V_th_rel V_0_rel omegas : list R)
  (synaptic_filter : bool) : result (list (list complex)) :=
  (* ensure right vectorized format *)
  args <- _equalize_shape [mu; sigma; tau_m; tau_r; tau_s; V_th_rel; V_0_rel] ;;
  match args with
  | [mu; sigma; tau_m; tau_r; tau_s; V_th_rel; V_0_rel] =>
      (* effective threshold and reset *)
      let alpha := sqrt 2 * Rabs (zetac (1 / 2) + 1) in
      let shifted (V : list R) :=
        np.ap (np.ap (np.ap (map (fun V sigma tau_s tau_m =>
                                    V + sigma * alpha / 2
                                        * sqrt (tau_s / tau_m)) V) sigma)
                 tau_s) tau_m in
      let V_th_shifted := shifted V_th_rel in
      let V_0_shifted := shifted V_0_rel in
      let zero_omega_mask := zero_omega_mask_shift omegas in
      let regular_mask := map negb zero_omega_mask in
      let result := repeat (repeat (RtoC 0) (length mu)) (length omegas) in
      (* for frequency zero the exact expression is given by the derivative
         of f-I-curve *)
      result <-
        (if np.any zero_omega_mask then
           d <- _derivative_of_delta_firing_rates_wrt_mean_input
                  V_0_shifted V_th_shifted mu sigma tau_m tau_r ;;
           Ok (np.put_mask result zero_omega_mask
                 (dc_rows (length (np.compress zero_omega_mask omegas))
                    (atleast_1d d)))
         else Ok result) ;;
      result <-
        (if np.any regular_mask then
           nu <- _delta_firing_rate V_0_shifted V_th_shifted mu sigma tau_m
                   tau_r ;;
           let nu := atleast_1d nu in
           let x_t :=
             np.ap (np.ap (map (fun V mu sigma => sqrt 2 * (V - mu) / sigma)
                             V_th_shifted) mu) sigma in
           let x_r :=
             np.ap (np.ap (map (fun V mu sigma => sqrt 2 * (V - mu) / sigma)
                             V_0_shifted) mu) sigma in
           Ok (np.put_mask result regular_mask
                 (map (fun omega =>
                         np.ap (np.ap (np.ap (np.ap
                           (map (transfer_function_shift_at omega) sigma)
                           nu) tau_m) x_t) x_r)
                    (np.compress regular_mask omegas)))
         else Ok result) ;;
      Ok (apply_synaptic_filter synaptic_filter result omegas tau_s)
  | _ => Raise ValueError
  end.

(** One entry of the general formula of the Taylor method. *)
Definition transfer_function_taylor_at
  (omega sigma delta_rate exp_rate tau_m tau_s x_t x_r : R) : complex :=
  let z := Cplus (RtoC (- 0.5)) (Cmult Ci (RtoC (omega * tau_m))) in
  let alpha := sqrt 2 * Rabs (zetac (1 / 2) + 1) in
  let k := sqrt (tau_s / tau_m) in
  let A := alpha * tau_m * delta_rate * k / sqrt 2 in
  let a0 := Cminus (_Psi z x_t) (_Psi z x_r) in
  let a1 := Cdiv (Cminus (_d_Psi z x_t) (_d_Psi z x_r)) a0 in
  let a3 :=
    Cmult (RtoC (A / tau_m / exp_rate))
      (Cplus (Cminus (RtoC 0) (Cmult a1 a1))
         (Cdiv (Cminus (_d_2_Psi z x_t) (_d_2_Psi z x_r)) a0)) in
  Cmult
    (Cdiv (RtoC (sqrt 2 / sigma * exp_rate))
       (Cplus (RtoC 1) (Cmult Ci (RtoC (omega * tau_m)))))
    (Cplus a1 a3).

(** Calcs value of transfer func for one population at given frequency
    omega (Taylor method).  Returns the result and the warnings emitted. *)
Definition _transfer_function_taylor
  (mu sigma tau_m tau_s tau_r V_th_rel V_0_rel omegas : list R)
  (synaptic_filter : bool) : result (list (list complex) * list warning) :=
  (* ensure right vectorized format *)
  args <- _equalize_shape [mu; sigma; tau_m; tau_r; tau_s; V_th_rel; V_0_rel] ;;
  match args with
  | [mu; sigma; tau_m; tau_r; tau_s; V_th_rel; V_0_rel] =>
      let zero_omega_mask := zero_omega_mask_taylor omegas in
      let regular_mask := map negb zero_omega_mask in
      let result := repeat (repeat (RtoC 0) (length mu)) (length omegas) in
      (* for frequency zero the exact expression is given by the derivative
         of f-I-curve *)
      result <-
        (if np.any zero_omega_mask then
           d <- _derivative_of_firing_rates_wrt_mean_input
                  V_0_rel V_th_rel mu sigma tau_m tau_r tau_s ;;
           Ok (np.put_mask result zero_omega_mask
                 (dc_rows (length (np.compress zero_omega_mask omegas)) d))
         else Ok result) ;;
      result_warnings <-
        (if np.any regular_mask then
           delta_rates <- _delta_firing_rate V_0_rel V_th_rel mu sigma tau_m
                            tau_r ;;
           let delta_rates := atleast_1d delta_rates in
           exp_rates <- _firing_rate_taylor V_0_rel V_th_rel mu sigma tau_m
                          tau_r tau_s ;;
           let warnings := snd exp_rates in
           let exp_rates := atleast_1d (fst exp_rates) in
           (* effective threshold and reset *)
           let x_t :=
             np.ap (np.ap (map (fun V mu sigma => sqrt 2 * (V - mu) / sigma)
                             V_th_rel) mu) sigma in
           let x_r :=
             np.ap (np.ap (map (fun V mu sigma => sqrt 2 * (V - mu) / sigma)
                             V_0_rel) mu) sigma in
           Ok (np.put_mask result regular_mask
                 (map (fun omega =>
                         np.ap (np.ap (np.ap (np.ap (np.ap (np.ap
                           (map (transfer_function_taylor_at omega) sigma)
                           delta_rates) exp_rates) tau_m) tau_s) x_t) x_r)
                    (np.compress regular_mask omegas)),
               warnings)
         else Ok (result, [])) ;;
      Ok (apply_synaptic_filter synaptic_filter (fst result_warnings)
            omegas tau_s,
          snd result_warnings)
  | _ => Raise ValueError
  end.

(** Propagator of network: [effective_connectivity] holds one [n x n] array
    per frequency. *)
Definition _propagator (n : nat) (effective_connectivity : list matrix)
  : result (list matrix) :=
  Q <- mapM (fun W => mat.inv n (mat.sub mat.identity W))
         effective_connectivity ;;
  Ok (np.zip_with (fun q e => mat.dot n q e) Q effective_connectivity).

(** The index [_sensitivity_measure] selects among the eigenvalues [e]:
    [np.argmin(np.abs(e - 1))]. *)
Definition closest_to_one (e : list complex) : result nat :=
  np.argmin (map (fun e => Cabs (Cminus e (RtoC 1))) e).

(** Calculates sensitivity measure as in Eq. 7 in Bos et al. (2015). *)
Definition _sensitivity_measure (n : nat) (effective_connectivity : list matrix)
  : result (list matrix) :=
  mapM (fun eff_conn_of_omega =>
          let '(e, U_l, U_r) := eig n eff_conn_of_omega in
          (* find eigenvalue closest to one *)
          index <- closest_to_one e ;;
          let outer : matrix :=
            fun i j => Cmult (Cconj (U_l i index)) (U_r j index) in
          let dot :=
            Csum (fun k => Cmult (Cconj (U_l k index)) (U_r k index)) n in
          Ok (fun i j =>
                Cmult (Cdiv (outer i j) dot) (eff_conn_of_omega i j)))
    effective_connectivity.

(** [A = np.diag(np.ones(len(N))) * nu / N] *)
Definition rate_size_matrix (nu N : list R) : matrix :=
  fun i j =>
    RtoC ((if Nat.eqb i j then 1 else 0) * nth j nu 0 / nth j N 0).

(** [C = np.dot(Q, np.dot(A, np.transpose(np.conjugate(Q))))] *)
Definition power_matrix (n : nat) (nu N : list R) (Q : matrix) : matrix :=
  mat.dot n Q (mat.dot n (rate_size_matrix nu N) (mat.conj_transpose Q)).

(** Calcs vector of power spectra for all populations at given frequencies
    ([nu] and [N] of one length; a row per frequency). *)
Definition _power_spectra (nu : list R) (effective_connectivity : list matrix)
  (N : list R) : result (list (list R)) :=
  let n := length N in
  mapM (fun W =>
          Q <- mat.inv n (mat.sub mat.identity W) ;;
          let C := power_matrix n nu N Q in
          Ok (map (fun j => Cabs (C j j)) (seq 0 n)))
    effective_connectivity.

End LifExp.

(* ------------------------------------------------------------------ *)
(** ** Example libraries *)
(* ------------------------------------------------------------------ *)

(** The eigenvalues and eigenvectors of a diagonal array. *)
Definition eig_diagonal (n : nat) (W : matrix)
  : list complex * matrix * matrix :=
  (map (fun k => W k k) (seq 0 n), mat.identity, mat.identity).

(** Libraries whose quadrature rule of every order is the one-point
    Gauss-Legendre rule (sample point 0, weight 2) and whose [quad] is the
    midpoint rule. *)
Definition midpoint_libraries : Libraries := {|
  zetac := fun _ => 0;
  roots_legendre := fun _ => ([0], [2]);
  quad := fun f a b _ => (b - a) * f ((b + a) / 2);
  pcfu := fun _ _ => RtoC 1;
  eig := eig_diagonal
|}.

(** The array of zeros, and the diagonal array with the entries [d]. *)
Definition zero_matrix : matrix := fun _ _ => RtoC 0.

Definition diagonal_matrix (d : list complex) : matrix :=
  fun i j => if Nat.eqb i j then nth i d (RtoC 0) else RtoC 0.

(** A delta module that returns the rate [r] and the derivative [d] for
    every input. *)
Definition constant_delta (r d : R) : DeltaModule := {|
  _delta_firing_rate := fun _ _ _ _ _ _ => Ok (PyFloat r);
  _derivative_of_delta_firing_rates_wrt_mean_input :=
    fun _ _ _ _ _ _ => Ok (PyFloat d)
|}.

(* ------------------------------------------------------------------ *)
(** ** Auxiliary functions: the Gaussian integral *)
(* ------------------------------------------------------------------ *)

(** The range of [erf] is read off the identity
    [E(x)^2 + G(x) = pi/4] for [E(x) = int_0^x exp(-t^2) dt] and
    [G(x) = int_0^1 exp(-x^2 (1 + t^2)) / (1 + t^2) dt]. *)
Definition gauss_kernel (x t : R) : R :=
  exp (- (x * x) * (1 + t * t)) / (1 + t * t).

(** The derivative of the kernel in [x]. *)
Definition gauss_kernel_dx (x t : R) : R :=
  - 2 * x * exp (- (x * x) * (1 + t * t)).

Definition gauss_kernel_integrable (x : R)
  : Riemann_integrable (gauss_kernel x) 0 1.
Proof.
  apply continuity_implies_RiemannInt; [lra|]. intros t _.
  unfold gauss_kernel. apply continuity_pt_div.
  - apply (continuity_pt_comp (fun t => - (x * x) * (1 + t * t)) exp).
    + reg.
    + apply derivable_continuous_pt, derivable_pt_exp.
  - reg.
  - nra.
Defined.

Definition gauss_kernel_dx_integrable (x : R)
  : Riemann_integrable (gauss_kernel_dx x) 0 1.
Proof.
  apply continuity_implies_RiemannInt; [lra|]. intros t _.
  unfold gauss_kernel_dx. apply continuity_pt_mult.
  - reg.
  - apply (continuity_pt_comp (fun t => - (x * x) * (1 + t * t)) exp).
    + reg.
    + apply derivable_continuous_pt, derivable_pt_exp.
Defined.

Definition gauss_E (x : R) : R := RiemannInt (exp_neg_sq_integrable 0 x).
Definition gauss_G (x : R) : R := RiemannInt (gauss_kernel_integrable x).
Definition gauss_G' (x : R) : R := RiemannInt (gauss_kernel_dx_integrable x).
Definition gauss_F (x : R) : R := gauss_E x * gauss_E x + gauss_G x.

(* ------------------------------------------------------------------ *)
(** ** [aux_calcs.py]: the functions around the Siegert rate *)
(* ------------------------------------------------------------------ *)

Section AuxCalcsFurther.

Context {lib : Libraries}.

(** Calculates stationary firing rates for filtered synapses based on
    Fourcaud & Brunel 2002 (using the shift of the integration boundaries);
    float arguments. *)
Definition nu0_fb (tau_m tau_s tau_r V_th V_r mu sigma : R) : result pyval :=
  let alpha := sqrt 2 * Rabs (zetac (1 / 2) + 1) in
  (* effective threshold *)
  let V_th1 := V_th + sigma * alpha / 2 * sqrt (tau_s / tau_m) in
  (* effective reset *)
  let V_r1 := V_r + sigma * alpha / 2 * sqrt (tau_s / tau_m) in
  (* use standard Siegert with modified threshold and reset *)
  nu_0 tau_m tau_r V_th1 V_r1 [mu] [sigma].

(** Derivative of the helper function Phi(s) with respect to the mean
    input *)
Definition Phi_prime_mu (s sigma : R) : R :=
  - sqrt PI / sigma
  * (s * exp (s ^ 2 / 2) * (1 + erf (s / sqrt 2)) + sqrt 2 / sqrt PI).

(** Derivative of the stationary firing rate without synaptic filtering
    with respect to the mean input (float arguments). *)
Definition d_nu_d_mu (tau_m tau_r V_th_rel V_0_rel mu sigma : R) : result R :=
  let y_th := (V_th_rel - mu) / sigma in
  let y_r := (V_0_rel - mu) / sigma in
  v <- nu_0 tau_m tau_r V_th_rel V_0_rel [mu] [sigma] ;;
  nu0 <- as_float v ;;
  Ok (sqrt PI * tau_m * nu0 ^ 2 / sigma
      * (exp (y_th ^ 2) * (1 + erf y_th) - exp (y_r ^ 2) * (1 + erf y_r))).

(** Derivative of the stationary firing rates with synaptic filtering with
    respect to the mean input (float arguments). *)
Definition d_nu_d_mu_fb433 (tau_m tau_s tau_r V_th_rel V_0_rel mu sigma : R)
  : result R :=
  let alpha := sqrt 2 * Rabs (zetac (1 / 2) + 1) in
  let x_th := sqrt 2 * (V_th_rel - mu) / sigma in
  let x_r := sqrt 2 * (V_0_rel - mu) / sigma in
  v <- nu_0 tau_m tau_r V_th_rel V_0_rel [mu] [sigma] ;;
  nu0 <- as_float v ;;
  let integral := 1 / (nu0 * tau_m) in
  let prefactor := sqrt (tau_s / tau_m) * alpha / (tau_m * sqrt 2) in
  dnudmu <- d_nu_d_mu tau_m tau_r V_th_rel V_0_rel mu sigma ;;
  let dPhi_prime := Phi_prime_mu x_th sigma - Phi_prime_mu x_r sigma in
  let dPhi := Phi x_th - Phi x_r in
  let phi := dPhi_prime * integral + (2 * sqrt 2 / sigma) * dPhi ^ 2 in
  Ok (dnudmu - prefactor * phi / integral ^ 3).

(** Calcs Psi(z,x)=exp(x**2/4)*U(z,x), with U(z,x) the parabolic cylinder
    func. *)
Definition Psi (z : complex) (x : R) : complex :=
  Cmult (RtoC (exp (0.25 * x ^ 2))) (pcfu z (- x)).

(** First derivative of Psi using recurrence relations. *)
Definition d_Psi (z : complex) (x : R) : complex :=
  Cmult (Cplus (RtoC (1 / 2)) z) (Psi (Cplus z (RtoC 1)) x).

(** Second derivative of Psi using recurrence relations. *)
Definition d_2_Psi (z : complex) (x : R) : complex :=
  Cmult (Cmult (Cplus (RtoC (1 / 2)) z) (Cplus (RtoC (3 / 2)) z))
    (Psi (Cplus z (RtoC 2)) x).

(** Difference of Psi for same first argument z. *)
Definition Psi_x_r (z : complex) (x y : R) : complex :=
  Cminus (Psi z x) (Psi z y).

(** Difference of derivatives of Psi for same first argument z. *)
Definition dPsi_x_r (z : complex) (x y : R) : complex :=
  Cminus (d_Psi z x) (d_Psi z y).

(** Difference of second derivatives of Psi for same first argument z. *)
Definition d2Psi_x_r (z : complex) (x y : R) : complex :=
  Cminus (d_2_Psi z x) (d_2_Psi z y).

End AuxCalcsFurther.

(** Compute determinant of matrix with same rows:
    [np.sum(matrix, axis=1)[0]].  [None] is the [IndexError] of an array
    without rows. *)
Definition determinant_same_rows (matrix : list (list R)) : option R :=
  hd_error (map np.sum matrix).

(** Fourier transform of boxcar connectivity kernel at wave number k (float
    arguments). *)
Definition p_hat_boxcar (k width : R) : R :=
  if Reqb k 0 then 1 else sin (k * width) / (k * width).

Section AuxCalcsRule.
Context {lib : Libraries}.

(** A quadrature rule that is symmetric about 0, as the Gauss-Legendre
    rules are: the sample points, in ascending order, are the negatives of
    the sample points in descending order, with the same weights. *)
Definition symmetric_rule (order : nat) : Prop :=
  map Ropp (rev (fst (roots_legendre order))) = fst (roots_legendre order)
  /\ rev (snd (roots_legendre order)) = snd (roots_legendre order)
  /\ length (fst (roots_legendre order)) = length (snd (roots_legendre order)).

End AuxCalcsRule.

(* ------------------------------------------------------------------ *)
(** ** [lif/exp.py]: the shift method *)
(* ------------------------------------------------------------------ *)

Section LifExpFurther.

Context {lib : Libraries} {delta : DeltaModule}.

(** Calculates stationary firing rates including synaptic filtering (the
    shift of the integration boundaries); the arithmetic on the arguments
    is NumPy's, which broadcasts a one-element array. *)
Definition _firing_rate_shift
  (V_0_rel V_th_rel mu sigma tau_m tau_r tau_s : list R) : result pyval :=
  let alpha := sqrt 2 * Rabs (zetac (1 / 2) + 1) in
  let shifted (V : list R) : result (list R) :=
    q <- broadcast Rdiv tau_s tau_m ;;
    shift <- broadcast Rmult (map (fun sigma => sigma * alpha / 2) sigma)
               (map sqrt q) ;;
    broadcast Rplus V shift in
  (* effective threshold *)
  V_th1 <- shifted V_th_rel ;;
  (* effective reset *)
  V_01 <- shifted V_0_rel ;;
  (* use standard Siegert with modified threshold and reset *)
  _delta_firing_rate V_01 V_th1 mu sigma tau_m tau_r.

End LifExpFurther.

(* ------------------------------------------------------------------ *)
(** ** NumPy arrays of any number of axes *)
(* ------------------------------------------------------------------ *)

(** [_effective_connectivity] branches on the number of axes of its
    arguments and combines arrays of different shapes.  Such an array is its
    shape and its entry function on multi-indices (the entries at indices
    outside the shape are not part of the array). *)
Module nd.

Record ndarray : Type := {
  shape : list nat;
  item : list nat -> complex
}.

(** The exceptions of the array operations used here: the [IndexError] of
    [shape[0]] on an array without axes, the [ValueError] of shapes that do
    not broadcast or of an [einsum] operand of the wrong number of axes, and
    [RuntimeError('Delay distribution matrix has no valid format.')]. *)
Inductive exn : Type :=
| IndexError
| ValueError
| RuntimeError_delay_format.

Inductive result (A : Type) : Type :=
| Ok (a : A)
| Raise (e : exn).
Arguments Ok {A} a.
Arguments Raise {A} e.

Definition bind {A B : Type} (c : result A) (k : A -> result B) : result B :=
  match c with
  | Ok a => k a
  | Raise e => Raise e
  end.

(** A Python scalar as an operand of an array operation. *)
Definition scalar (x : complex) : ndarray :=
  {| shape := []; item := fun _ => x |}.

(** [a.shape[0]] *)
Definition shape_0 (a : ndarray) : result nat :=
  match shape a with
  | [] => Raise IndexError
  | n :: _ => Ok n
  end.

(** [a.T], the array with its axes reversed. *)
Definition T (a : ndarray) : ndarray :=
  {| shape := rev (shape a); item := fun idx => item a (rev idx) |}.

(** A shape or a tuple of repetitions brought to [d] axes by prepending
    ones. *)
Definition promote (d : nat) (s : list nat) : list nat :=
  repeat 1%nat (d - length s) ++ s.

(** [np.tile(a, reps)]: [a] and [reps] are brought to the same number of
    axes [d] by prepending ones; axis [i] of the result has
    [a.shape[i] * reps[i]] entries, and the result repeats [a] along each
    axis. *)
Definition tile (a : ndarray) (reps : list nat) : ndarray :=
  let d := Nat.max (length reps) (length (shape a)) in
  {| shape := np.zip_with Nat.mul (promote d (shape a)) (promote d reps);
     item := fun idx =>
       item a (skipn (d - length (shape a))
                 (np.zip_with Nat.modulo idx (promote d (shape a)))) |}.

(** [np.einsum('ijk->kji', a)] *)
Definition einsum_ijk_kji (a : ndarray) : result ndarray :=
  match shape a with
  | [i; j; k] =>
      Ok {| shape := [k; j; i];
            item := fun idx =>
              match idx with
              | [k'; j'; i'] => item a [i'; j'; k']
              | _ => RtoC 0
              end |}
  | _ => Raise ValueError
  end.

(** Broadcasting of two shapes, from the last axis backwards: two axes are
    compatible when they are equal or one of them is 1. *)
Fixpoint broadcast_reversed (s1 s2 : list nat) : option (list nat) :=
  match s1, s2 with
  | [], s => Some s
  | s, [] => Some s
  | a :: s1', b :: s2' =>
      if Nat.eqb a b then option_map (cons a) (broadcast_reversed s1' s2')
      else if Nat.eqb a 1 then
        option_map (cons b) (broadcast_reversed s1' s2')
      else if Nat.eqb b 1 then
        option_map (cons a) (broadcast_reversed s1' s2')
      else None
  end.

Definition broadcast_shapes (s1 s2 : list nat) : option (list nat) :=
  option_map (@rev nat) (broadcast_reversed (rev s1) (rev s2)).

(** The index of the entry of an operand of shape [s] that enters the entry
    [idx] of a broadcast result: the last axes of [idx], with index 0 on an
    axis of length 1. *)
Definition operand_index (s idx : list nat) : list nat :=
  np.zip_with (fun dim i => if Nat.eqb dim 1 then 0%nat else i) s
    (skipn (length idx - length s) idx).

(** [a * b] *)
Definition mul (a b : ndarray) : result ndarray :=
  match broadcast_shapes (shape a) (shape b) with
  | Some s =>
      Ok {| shape := s;
            item := fun idx =>
              Cmult (item a (operand_index (shape a) idx))
                (item b (operand_index (shape b) idx)) |}
  | None => Raise ValueError
  end.

End nd.

Notation "x <-- c ;; k" := (nd.bind c (fun x => k))
  (at level 61, c at next level, right associativity).

(** Effective connectivity for different frequencies
    ([lif/exp.py], [_effective_connectivity]). *)
Definition _effective_connectivity
  (transfer_function D J K : nd.ndarray) (tau_m : R) : nd.result nd.ndarray :=
  tf <-- match length (nd.shape D) with
         | 1%nat => nd.Ok transfer_function
         | 2%nat =>
             n <-- nd.shape_0 K ;;
             nd.Ok (nd.T (nd.tile transfer_function [n; 1%nat]))
         | 3%nat =>
             n <-- nd.shape_0 K ;;
             nd.einsum_ijk_kji
               (nd.tile (nd.T transfer_function) [n; 1%nat; 1%nat])
         | _ => nd.Raise nd.RuntimeError_delay_format
         end ;;
  a <-- nd.mul (nd.scalar (RtoC tau_m)) J ;;
  a <-- nd.mul a K ;;
  a <-- nd.mul a tf ;;
  nd.mul a D.

(** An array of the given shape, all of whose entries are [x]. *)
Definition constant_array (shape : list nat) (x : R) : nd.ndarray :=
  {| nd.shape := shape; nd.item := fun _ => RtoC x |}.

(* ------------------------------------------------------------------ *)
(** ** [aux_calcs.py]: the derivative by the input rate and the non-trivial
       eigenvalue *)
(* ------------------------------------------------------------------ *)

Section AuxCalcsInputRate.

Context {lib : Libraries}.

(** Derivative of nu_0 by input rate for low-pass-filtered synapses with
    tau_s.  Effective threshold and reset from Fourcaud & Brunel 2002.
    Returns the sum of the linear (mu) and the squared (sigma^2)
    contribution, the linear and the squared contribution. *)
Definition d_nu_d_nu_in_fb (tau_m tau_s tau_r V_th V_r j mu sigma : R)
  : result (R * R * R) :=
  let alpha := sqrt 2 * Rabs (zetac (1 / 2) + 1) in
  let y_th := (V_th - mu) / sigma in
  let y_r := (V_r - mu) / sigma in
  let y_th_fb := y_th + alpha / 2 * sqrt (tau_s / tau_m) in
  let y_r_fb := y_r + alpha / 2 * sqrt (tau_s / tau_m) in
  v <- nu0_fb tau_m tau_s tau_r V_th V_r mu sigma ;;
  nu0 <- as_float v ;;
  (* linear contribution *)
  let lin :=
    sqrt PI * (tau_m * nu0) ^ 2 * j / sigma
    * (exp (y_th_fb ^ 2) * (1 + erf y_th_fb)
       - exp (y_r_fb ^ 2) * (1 + erf y_r_fb)) in
  (* quadratic contribution *)
  let sqr :=
    sqrt PI * (tau_m * nu0) ^ 2 * j / sigma
    * (exp (y_th_fb ^ 2) * (1 + erf y_th_fb) * 0.5 * y_th * j / sigma
       - exp (y_r_fb ^ 2) * (1 + erf y_r_fb) * 0.5 * y_r * j / sigma) in
  Ok (lin + sqr, lin, sqr).

End AuxCalcsInputRate.

(** [np.where(mask)[0]]: the indices at which the mask holds. *)
Fixpoint where_indices_from (i : nat) (mask : list bool) : list nat :=
  match mask with
  | [] => []
  | m :: mask' =>
      if m then i :: where_indices_from (S i) mask'
      else where_indices_from (S i) mask'
  end.

Definition where_indices (mask : list bool) : list nat :=
  where_indices_from 0 mask.

Section Determinant.

(** [np.linalg.eigvals] *)
Variable eigvals : list (list R) -> list complex.

(** Solve det(matrix - x*identity) = 0; return only non-trivial (!=0)
    solutions.  [None] is the [Exception] raised unless exactly one
    eigenvalue exceeds [1.E-10] in absolute value. *)
Definition determinant (matrix : list (list R)) : option complex :=
  let all_res := eigvals matrix in
  let idx := where_indices (map (fun r => Rltb 1e-10 (Cabs r)) all_res) in
  if negb (Nat.eqb (length idx) 1) then None
  else nth_error all_res (hd 0%nat idx).

End Determinant.

(** [lam] is an eigenvalue of the [n x n] array [matrix]: some vector [v]
    with a non-zero entry has [matrix . v = lam * v]. *)
Definition eigenvalue (n : nat) (matrix : list (list R)) (lam : complex)
  : Prop :=
  exists v : nat -> complex,
    (exists i, (i < n)%nat /\ v i <> RtoC 0)
    /\ forall i, (i < n)%nat ->
         Csum (fun j => Cmult (RtoC (nth j (nth i matrix []) 0)) (v j)) n
         = Cmult lam (v i).

(* ================================================================== *)
(** * Part II: properties *)
(* ================================================================== *)

(** ** Arrays: masks, masked assignment, elementwise kernels *)

Section ArrayFacts.

Context {A B C : Type}.

Lemma zip_with_length (f : A -> B -> C) (a : list A) (b : list B) :
  length a = length b -> length (np.zip_with f a b) = length a.
Proof.
  revert b; induction a as [|x a IH]; intros [|y b] H; simpl in *;
    try discriminate; auto.
Qed.

Lemma zip_with_nth (f : A -> B -> C) (a : list A) (b : list B) i da db dc :
  (i < length a)%nat -> (i < length b)%nat ->
  nth i (np.zip_with f a b) dc = f (nth i a da) (nth i b db).
Proof.
  revert b i; induction a as [|x a IH]; intros [|y b] [|i] Ha Hb;
    simpl in *; try lia; auto.
  apply IH; lia.
Qed.

Lemma compress_map (f : A -> B) (m : list bool) (l : list A) :
  np.compress m (map f l) = map f (np.compress m l).
Proof.
  revert l; induction m as [|[|] m IH]; intros [|x l]; simpl; auto.
  now rewrite IH.
Qed.

Lemma zip_with_nil_r (f : A -> B -> C) (a : list A) :
  np.zip_with f a [] = [].
Proof. now destruct a. Qed.

Lemma compress_zip_with (f : A -> B -> C) m (a : list A) (b : list B) :
  np.compress m (np.zip_with f a b)
  = np.zip_with f (np.compress m a) (np.compress m b).
Proof.
  revert a b; induction m as [|c m IH]; intros [|x a] [|y b]; simpl; auto.
  - destruct c; now rewrite zip_with_nil_r.
  - destruct c; simpl; now rewrite IH.
Qed.

Lemma compress_repeat (x : A) (m : list bool) (l : list B) :
  length m = length l ->
  repeat x (length (np.compress m l)) = np.compress m (repeat x (length l)).
Proof.
  revert l; induction m as [|[|] m IH]; intros [|y l] H; simpl in *;
    try discriminate; auto.
  now rewrite IH by lia.
Qed.

Lemma put_mask_compress (a : list A) m (v : list A) :
  length a = length m -> length v = length m ->
  np.put_mask a m (np.compress m v) = np.where_ m v a.
Proof.
  revert a v; induction m as [|[|] m IH]; intros [|x a] [|y v] Ha Hv;
    simpl in *; try discriminate; auto; now rewrite IH by lia.
Qed.

Lemma where_length m (x y : list A) :
  length x = length m -> length y = length m ->
  length (np.where_ m x y) = length m.
Proof.
  revert x y; induction m as [|b m IH]; intros [|v x] [|w y] Hx Hy;
    simpl in *; try discriminate; auto.
Qed.

Lemma where_nth m (x y : list A) i dm d :
  (i < length m)%nat -> length x = length m -> length y = length m ->
  nth i (np.where_ m x y) d = if nth i m dm then nth i x d else nth i y d.
Proof.
  revert x y i; induction m as [|b m IH]; intros [|v x] [|w y] [|i] Hi Hx Hy;
    simpl in *; try discriminate; try lia; auto.
  apply IH; lia.
Qed.

Lemma forallb_compress_map (p : A -> bool) (l : list A) :
  forallb p (np.compress (map p l) l) = true.
Proof.
  induction l as [|x l IH]; simpl; auto.
  destruct (p x) eqn:E; simpl; auto. now rewrite E.
Qed.

End ArrayFacts.

Lemma compress_ap {A B : Type} m (fs : list (A -> B)) (xs : list A) :
  np.compress m (np.ap fs xs) = np.ap (np.compress m fs) (np.compress m xs).
Proof. apply compress_zip_with. Qed.

Lemma ap_length {A B : Type} (fs : list (A -> B)) (xs : list A) :
  length fs = length xs -> length (np.ap fs xs) = length fs.
Proof. apply zip_with_length. Qed.

Lemma ap_nth {A B : Type} (fs : list (A -> B)) (xs : list A) i df dx d :
  (i < length fs)%nat -> (i < length xs)%nat ->
  nth i (np.ap fs xs) d = (nth i fs df) (nth i xs dx).
Proof. intros. unfold np.ap. now rewrite zip_with_nth with (da := df) (db := dx). Qed.

(** Lengths of arrays built from arrays of one length [n]. *)
Create HintDb len.

Lemma map_length_n {A B} (f : A -> B) l n :
  length l = n -> length (map f l) = n.
Proof. intros. now rewrite length_map. Qed.

Lemma zip_with_length_n {A B C} (f : A -> B -> C) a b n :
  length a = n -> length b = n -> length (np.zip_with f a b) = n.
Proof. intros. rewrite zip_with_length; congruence. Qed.

Lemma ap_length_n {A B} (fs : list (A -> B)) xs n :
  length fs = n -> length xs = n -> length (np.ap fs xs) = n.
Proof. apply zip_with_length_n. Qed.

Lemma where_length_n {A} m (x y : list A) n :
  length m = n -> length x = n -> length y = n ->
  length (np.where_ m x y) = n.
Proof. intros. rewrite where_length; congruence. Qed.

Lemma zeros_length n : length (np.zeros n) = n.
Proof. apply repeat_length. Qed.

Lemma full_length n x : length (np.full n x) = n.
Proof. apply repeat_length. Qed.

#[local] Hint Resolve map_length_n zip_with_length_n ap_length_n
  where_length_n zeros_length full_length repeat_length : len.

Ltac len := auto 12 with len.

Lemma put_mask_compress_n {A} (a : list A) m v n :
  length a = n -> length m = n -> length v = n ->
  np.put_mask a m (np.compress m v) = np.where_ m v a.
Proof. intros. apply put_mask_compress; congruence. Qed.

Lemma where_nth_n {A} m (x y : list A) n i d :
  length m = n -> length x = n -> length y = n -> (i < n)%nat ->
  nth i (np.where_ m x y) d
  = if nth i m false then nth i x d else nth i y d.
Proof. intros. apply where_nth; congruence || lia. Qed.

Lemma zip_with_nth_n {A B C} (f : A -> B -> C) a b n i da db dc :
  length a = n -> length b = n -> (i < n)%nat ->
  nth i (np.zip_with f a b) dc = f (nth i a da) (nth i b db).
Proof. intros. apply zip_with_nth; lia. Qed.

(** ** Float comparisons *)

Lemma Rltb_true x y : Rltb x y = true <-> x < y.
Proof. unfold Rltb; destruct (Rlt_dec x y); split; intros; try discriminate; auto; lra. Qed.

Lemma Rltb_false x y : Rltb x y = false <-> ~ x < y.
Proof. unfold Rltb; destruct (Rlt_dec x y); split; intros; try discriminate; auto; lra. Qed.

Lemma Rleb_true x y : Rleb x y = true <-> x <= y.
Proof. unfold Rleb; destruct (Rle_dec x y); split; intros; try discriminate; auto; lra. Qed.

Lemma Rleb_false x y : Rleb x y = false <-> ~ x <= y.
Proof. unfold Rleb; destruct (Rle_dec x y); split; intros; try discriminate; auto; lra. Qed.

(** ** The quadrature-order search *)

Section QuadratureOrder.

Context {lib : Libraries}.


Lemma fold_left_Rmin_nonneg l x :
  0 <= x -> Forall (fun y => 0 <= y) l -> 0 <= fold_left Rmin l x.
Proof.
  revert x; induction l as [|y l IH]; intros x Hx Hl; simpl; auto.
  inversion Hl; subst. apply IH; auto. now apply Rmin_glb.
Qed.

Lemma fold_left_Rmax_nonneg l x : 0 <= x -> 0 <= fold_left Rmax l x.
Proof.
  revert x; induction l as [|y l IH]; intros x Hx; simpl; auto.
  apply IH. eapply Rle_trans; [exact Hx | apply Rmax_l].
Qed.

Lemma Forall_Rabs_nonneg l : Forall (fun y => 0 <= y) (map Rabs l).
Proof. induction l; simpl; constructor; auto using Rabs_pos. Qed.

Lemma amin_abs_nonneg l a : np.amin (map Rabs l) = Ok a -> 0 <= a.
Proof.
  destruct l as [|x l]; simpl; intros H; inversion H; subst.
  apply fold_left_Rmin_nonneg; [apply Rabs_pos | apply Forall_Rabs_nonneg].
Qed.

Lemma amax_abs_nonneg l b : np.amax (map Rabs l) = Ok b -> 0 <= b.
Proof.
  destruct l as [|x l]; simpl; intros H; inversion H; subst.
  apply fold_left_Rmax_nonneg, Rabs_pos.
Qed.

Lemma erfcx_integral_scalar a b order :
  0 <= a -> 0 <= b ->
  _erfcx_integral [a] [b] order = Ok [erfcx_integral_at order a b].
Proof.
  intros Ha Hb. unfold _erfcx_integral. simpl.
  apply Rleb_true in Ha, Hb. now rewrite Ha, Hb.
Qed.

(** The loop started at [order] with [iters] iterations left: either it
    returns the first of the orders [order * 2^k], [k < iters], whose relative
    error is below [epsrel], or none of them is and it raises with the
    relative error of the last one. *)
Lemma gl_order_loop_spec a b I_quad epsrel maxiter :
  0 <= a -> 0 <= b ->
  forall iters order prev,
    (exists k, (k < iters)%nat
       /\ gl_order_loop a b I_quad epsrel maxiter iters order prev
          = Ok (order * 2 ^ k)%nat
       /\ rel_error_at a b I_quad (order * 2 ^ k) < epsrel
       /\ forall j, (j < k)%nat ->
            ~ rel_error_at a b I_quad (order * 2 ^ j) < epsrel)
    \/ ((forall j, (j < iters)%nat ->
            ~ rel_error_at a b I_quad (order * 2 ^ j) < epsrel)
        /\ gl_order_loop a b I_quad epsrel maxiter iters order prev
           = match iters with
             | O => match prev with
                    | Some r => Raise (RuntimeError_convergence maxiter r)
                    | None => Raise UnboundLocalError
                    end
             | S i => Raise (RuntimeError_convergence maxiter
                               (rel_error_at a b I_quad (order * 2 ^ i)))
             end).
Proof.
  intros Ha Hb. induction iters as [|iters IH]; intros order prev.
  - right. split; [intros j Hj; lia | reflexivity].
  - simpl gl_order_loop. rewrite erfcx_integral_scalar by assumption.
    simpl bind. simpl hd. fold (rel_error_at a b I_quad order).
    destruct (Rltb (rel_error_at a b I_quad order) epsrel) eqn:E.
    + left. exists 0%nat. simpl. rewrite Nat.mul_1_r.
      apply Rltb_true in E. repeat split; auto; lia.
    + apply Rltb_false in E.
      destruct (IH (order * 2)%nat (Some (rel_error_at a b I_quad order)))
        as [(k & Hk & Hret & Herr & Hprev) | (Hall & Hret)].
      * left. exists (S k).
        replace (order * 2 ^ S k)%nat with (order * 2 * 2 ^ k)%nat
          by (simpl; lia).
        repeat split; auto; try lia.
        intros [|j] Hj.
        -- simpl. now rewrite Nat.mul_1_r.
        -- replace (order * 2 ^ S j)%nat with (order * 2 * 2 ^ j)%nat
             by (simpl; lia).
           apply Hprev; lia.
      * right. split.
        -- intros [|j] Hj.
           ++ simpl. now rewrite Nat.mul_1_r.
           ++ replace (order * 2 ^ S j)%nat with (order * 2 * 2 ^ j)%nat
                by (simpl; lia).
              apply Hall; lia.
        -- rewrite Hret. destruct iters as [|i].
           ++ simpl. now rewrite Nat.mul_1_r.
           ++ replace (order * 2 ^ S i)%nat with (order * 2 * 2 ^ i)%nat
                by (simpl; lia).
              reflexivity.
Qed.

Lemma get_erfcx_integral_gl_order_unfold y_th y_r a_th a_r b_th b_r
  start_order epsrel maxiter :
  np.amin (map Rabs y_th) = Ok a_th ->
  np.amin (map Rabs y_r) = Ok a_r ->
  np.amax (map Rabs y_th) = Ok b_th ->
  np.amax (map Rabs y_r) = Ok b_r ->
  _get_erfcx_integral_gl_order y_th y_r start_order epsrel maxiter
  = gl_order_loop (Rmin a_th a_r) (Rmax b_th b_r)
      (quad erfcx (Rmin a_th a_r) (Rmax b_th b_r) epsrel) epsrel
      maxiter maxiter start_order None.
Proof.
  intros Hath Har Hbth Hbr.
  unfold _get_erfcx_integral_gl_order.
  now rewrite Hath, Har, Hbth, Hbr.
Qed.

(** C3.  With the parameters [nu_0] and [_nu0_dPhi] pass (start order 10,
    relative tolerance 1e-12, 10 iterations), the quadrature-order search
    tries the orders [10 * 2^k] for [k = 0, ..., 9] in turn.  It returns the
    first tried order whose fixed-order Gauss-Legendre estimate has a
    relative error below 1e-12 against the adaptive estimate of [quad]; if
    none of the ten tried orders reaches the tolerance it raises the
    convergence error, which carries the relative error of the last tried
    order (5120), and returns no order. *)
Theorem gl_order_search_first_converged_or_raise
  (y_th y_r : list R) (a_th a_r b_th b_r : R) :
  np.amin (map Rabs y_th) = Ok a_th ->
  np.amin (map Rabs y_r) = Ok a_r ->
  np.amax (map Rabs y_th) = Ok b_th ->
  np.amax (map Rabs y_r) = Ok b_r ->
  let a := Rmin a_th a_r in
  let b := Rmax b_th b_r in
  let I_quad := quad erfcx a b 1e-12 in
  let tried (k : nat) := (10 * 2 ^ k)%nat in
  (exists k, (k < 10)%nat
     /\ _get_erfcx_integral_gl_order y_th y_r 10 1e-12 10 = Ok (tried k)
     /\ rel_error_at a b I_quad (tried k) < 1e-12
     /\ forall j, (j < k)%nat -> ~ rel_error_at a b I_quad (tried j) < 1e-12)
  \/ ((forall j, (j < 10)%nat -> ~ rel_error_at a b I_quad (tried j) < 1e-12)
      /\ _get_erfcx_integral_gl_order y_th y_r 10 1e-12 10
         = Raise (RuntimeError_convergence 10
                    (rel_error_at a b I_quad (tried 9%nat)))).
Proof.
  intros Hath Har Hbth Hbr a b I_quad tried.
  assert (Ha : 0 <= a).
  { apply Rmin_glb; eapply amin_abs_nonneg; eauto. }
  assert (Hb : 0 <= b).
  { eapply Rle_trans; [eapply amax_abs_nonneg; exact Hbth | apply Rmax_l]. }
  rewrite (get_erfcx_integral_gl_order_unfold _ _ _ _ _ _ _ _ _
             Hath Har Hbth Hbr).
  fold a b I_quad.
  destruct (gl_order_loop_spec a b I_quad 1e-12 10 Ha Hb 10 10 None)
    as [(k & Hk & Hret & Herr & Hprev) | (Hall & Hret)].
  - left. exists k. auto.
  - right. split; [exact Hall|]. rewrite Hret. reflexivity.
Qed.

End QuadratureOrder.

(** ** Dawson's function *)

Lemma exp_sq_ge_1 t : 1 <= exp_sq t.
Proof.
  unfold exp_sq. pose proof (exp_ineq1_le (t * t)). nra.
Qed.

Lemma exp_sq_integral_ge a b :
  a <= b -> b - a <= RiemannInt (exp_sq_integrable a b).
Proof.
  intros Hab.
  pose (pr1 := RiemannInt_P14 a b 1).
  replace (b - a) with (RiemannInt pr1)
    by (unfold pr1; rewrite RiemannInt_P15; ring).
  apply RiemannInt_P19; [exact Hab|].
  intros x _. unfold fct_cte. apply exp_sq_ge_1.
Qed.

Lemma dawsn_0 : dawsn 0 = 0.
Proof. unfold dawsn. rewrite RiemannInt_P9. ring. Qed.

(** [exp(b^2) dawsn(b) - exp(a^2) dawsn(a)] is the integral of [exp(t^2)]
    over [[a, b]], which is at least [b - a]. *)
Lemma dawsn_increment a b :
  a <= b ->
  exp (- b ^ 2) * (b - a) <= dawsn b - exp (a ^ 2 - b ^ 2) * dawsn a.
Proof.
  intros Hab. unfold dawsn.
  pose proof (RiemannInt_P26 (exp_sq_integrable 0 a) (exp_sq_integrable a b)
                (exp_sq_integrable 0 b)) as Hch.
  pose proof (exp_sq_integral_ge a b Hab) as Hge.
  replace (exp (a ^ 2 - b ^ 2) * (exp (- (a * a)) * RiemannInt (exp_sq_integrable 0 a)))
    with (exp (- b ^ 2) * RiemannInt (exp_sq_integrable 0 a)).
  2:{ rewrite <- Rmult_assoc, <- exp_plus. f_equal. f_equal. ring. }
  replace (- (b * b)) with (- b ^ 2) by ring.
  pose proof (exp_pos (- b ^ 2)). nra.
Qed.

Lemma dawsn_lower x : 0 <= x -> exp (- x ^ 2) * x <= dawsn x.
Proof.
  intros Hx. pose proof (dawsn_increment 0 x Hx) as H.
  rewrite dawsn_0 in H. lra.
Qed.

(** ** The error function *)

(** *** Integrals of continuous functions *)

Lemma continuity_integrable (f : R -> R) (a b : R) :
  continuity f -> Riemann_integrable f a b.
Proof.
  intros Hc. destruct (Rle_dec a b) as [Hab | Hab].
  - apply continuity_implies_RiemannInt; [exact Hab | intros; apply Hc].
  - apply RiemannInt_P1.
    apply continuity_implies_RiemannInt; [lra | intros; apply Hc].
Qed.

Lemma exp_neg_sq_continuity : continuity exp_neg_sq.
Proof.
  intro x. unfold exp_neg_sq.
  apply (continuity_pt_comp (fun t => - (t * t)) exp).
  - apply continuity_pt_opp, continuity_pt_mult;
      apply derivable_continuous_pt, derivable_pt_id.
  - apply derivable_continuous_pt, derivable_pt_exp.
Qed.

(** The integral depends on the values of the integrand only. *)
Lemma RiemannInt_ext (f g : R -> R) a b
  (pf : Riemann_integrable f a b) (pg : Riemann_integrable g a b) :
  (forall x, f x = g x) -> RiemannInt pf = RiemannInt pg.
Proof.
  intros Hfg. destruct (Rle_dec a b) as [Hab | Hab].
  - apply RiemannInt_P18; [exact Hab | intros; apply Hfg].
  - rewrite (RiemannInt_P8 pf (RiemannInt_P1 pf)).
    rewrite (RiemannInt_P8 pg (RiemannInt_P1 pg)).
    f_equal. apply RiemannInt_P18; [lra | intros; apply Hfg].
Qed.

(** The integral of a continuous function is differentiable in its upper
    bound, with the integrand as derivative. *)
Lemma RiemannInt_upper_derivative (f : R -> R)
  (pr : forall y, Riemann_integrable f 0 y) (x : R) :
  continuity f ->
  derivable_pt_lim (fun y => RiemannInt (pr y)) x (f x).
Proof.
  intros Hc.
  assert (h : x - 1 <= x + 1) by lra.
  assert (C0 : forall y, x - 1 <= y <= x + 1 -> continuity_pt f y)
    by (intros; apply Hc).
  assert (Hx : x - 1 <= x <= x + 1) by lra.
  pose proof (RiemannInt_P28 h C0 Hx) as HP.
  assert (Heq : forall y, x - 1 <= y <= x + 1 ->
            RiemannInt (pr y)
            = RiemannInt (pr (x - 1)) + primitive h (FTC_P1 h C0) y).
  { intros y [Hy1 Hy2]. unfold primitive.
    destruct (Rle_dec (x - 1) y) as [H1 | H1]; [|lra].
    destruct (Rle_dec y (x + 1)) as [H2 | H2]; [|lra].
    symmetry. apply RiemannInt_P26. }
  intros eps Heps. destruct (HP eps Heps) as [delta Hdelta].
  assert (Hd : 0 < Rmin delta 1).
  { apply Rmin_glb_lt; [apply cond_pos | lra]. }
  exists (mkposreal _ Hd). intros h' Hh' Hlt. simpl in Hlt.
  assert (Hh1 : Rabs h' < 1) by (eapply Rlt_le_trans; [exact Hlt | apply Rmin_r]).
  assert (Hh2 : Rabs h' < delta) by (eapply Rlt_le_trans; [exact Hlt | apply Rmin_l]).
  apply Rabs_def2 in Hh1.
  rewrite (Heq (x + h')) by lra. rewrite (Heq x) by lra.
  replace (RiemannInt (pr (x - 1)) + primitive h (FTC_P1 h C0) (x + h')
           - (RiemannInt (pr (x - 1)) + primitive h (FTC_P1 h C0) x))
    with (primitive h (FTC_P1 h C0) (x + h') - primitive h (FTC_P1 h C0) x)
    by ring.
  apply Hdelta; assumption.
Qed.

(** The fundamental theorem for a function with a continuous derivative. *)
Lemma RiemannInt_antiderivative (F f : R -> R) a b
  (pr : Riemann_integrable f a b) :
  (forall x, derivable_pt_lim F x (f x)) -> continuity f ->
  RiemannInt pr = F b - F a.
Proof.
  intros HF Hc.
  assert (dF : derivable F) by (intro x; exists (f x); apply HF).
  assert (Hd : forall x, derive F dF x = f x).
  { intro x. unfold derive. apply derive_pt_eq_0, HF. }
  assert (cF : continuity (derive F dF)).
  { intros x eps Heps. destruct (Hc x eps Heps) as (al & Hal & H).
    exists al. split; [exact Hal|]. intros y Hy.
    rewrite !Hd. apply H, Hy. }
  pose (c := mkC1 cF).
  assert (pr' : Riemann_integrable (derive c (diff0 c)) a b)
    by apply RiemannInt_P32.
  change (RiemannInt pr = c b - c a).
  rewrite <- (FTC_Riemann c pr').
  apply RiemannInt_ext. intro x. simpl. symmetry. apply Hd.
Qed.

(** *** The kernel [exp(-x^2 (1 + t^2)) / (1 + t^2)] *)

Lemma gauss_kernel_continuity x : continuity (gauss_kernel x).
Proof.
  unfold gauss_kernel. intro t.
  apply continuity_pt_div.
  - apply (continuity_pt_comp (fun t => - (x * x) * (1 + t * t)) exp).
    + reg.
    + apply derivable_continuous_pt, derivable_pt_exp.
  - reg.
  - nra.
Qed.

Lemma gauss_kernel_dx_continuity x : continuity (gauss_kernel_dx x).
Proof.
  unfold gauss_kernel_dx. intro t.
  apply continuity_pt_mult.
  - reg.
  - apply (continuity_pt_comp (fun t => - (x * x) * (1 + t * t)) exp).
    + reg.
    + apply derivable_continuous_pt, derivable_pt_exp.
Qed.

Lemma Rabs_le_bounds a b : Rabs a <= b -> - b <= a <= b.
Proof. unfold Rabs. destruct (Rcase_abs a); lra. Qed.

(** [exp u] up to second order near 0. *)
Lemma exp_second_order u :
  Rabs u <= 1 / 2 -> 0 <= exp u - 1 - u <= 2 * (u * u).
Proof.
  intros Hu. apply Rabs_le_bounds in Hu.
  pose proof (exp_ineq1_le u) as H1.
  pose proof (exp_ineq1_le (- u)) as H2.
  pose proof (exp_pos u) as H3.
  assert (H4 : exp u * exp (- u) = 1).
  { rewrite <- exp_plus. replace (u + - u) with 0 by ring. apply exp_0. }
  split; [lra|].
  assert (H5 : (1 - u) * exp u <= 1) by nra.
  nra.
Qed.

(** The kernel is differentiable in [x], uniformly in [t] on [[0, 1]]: the
    remainder of the first-order expansion is bounded by a multiple of
    [h^2] that does not depend on [t]. *)
Lemma gauss_kernel_second_order x h t :
  0 <= t <= 1 -> 4 * (2 * Rabs x + 1) * Rabs h <= 1 ->
  Rabs (gauss_kernel (x + h) t - gauss_kernel x t - h * gauss_kernel_dx x t)
  <= (8 * (2 * Rabs x + 1) ^ 2 + 2) * (h * h).
Proof.
  intros Ht Hh.
  set (c := 1 + t * t). set (M := 2 * Rabs x + 1) in *.
  assert (Hc : 1 <= c <= 2) by (unfold c; nra).
  pose proof (Rabs_pos x) as Hx0. pose proof (Rabs_pos h) as Hh0.
  assert (HM : 1 <= M) by (unfold M; lra).
  assert (Hh1 : Rabs h <= 1) by nra.
  set (u := - c * (h * (2 * x + h))).
  set (p := exp (- (x * x) * c)).
  assert (Hp : 0 < p <= 1).
  { split; [apply exp_pos|]. unfold p. rewrite <- exp_0.
    destruct (Req_dec (- (x * x) * c) 0) as [-> | Hne]; [lra|].
    left. apply exp_increasing. nra. }
  assert (Hs : Rabs (2 * x + h) <= M).
  { eapply Rle_trans; [apply Rabs_triang|]. rewrite Rabs_mult.
    rewrite (Rabs_right 2) by lra. unfold M. lra. }
  assert (Hu : Rabs u <= 2 * (Rabs h * M)).
  { unfold u. rewrite !Rabs_mult, Rabs_Ropp, (Rabs_right c) by lra.
    pose proof (Rabs_pos (2 * x + h)).
    assert (Rabs h * Rabs (2 * x + h) <= Rabs h * M)
      by (apply Rmult_le_compat_l; lra).
    assert (0 <= Rabs h * Rabs (2 * x + h)) by (apply Rmult_le_pos; lra).
    nra. }
  assert (Hu2 : u * u <= 4 * (M * M) * (h * h)).
  { assert (Hq : u * u = Rabs u * Rabs u).
    { rewrite <- Rabs_mult. symmetry. apply Rabs_right. nra. }
    assert (Hq' : h * h = Rabs h * Rabs h).
    { rewrite <- Rabs_mult. symmetry. apply Rabs_right. nra. }
    rewrite Hq, Hq'. pose proof (Rabs_pos u). nra. }
  destruct (exp_second_order u) as [He1 He2]; [nra|].
  assert (Hsplit : exp (- ((x + h) * (x + h)) * c) = p * exp u).
  { unfold p, u. rewrite <- exp_plus. f_equal. ring. }
  assert (HD : gauss_kernel (x + h) t - gauss_kernel x t
               - h * gauss_kernel_dx x t
               = p / c * (exp u - 1 - u) - p * (h * h)).
  { unfold gauss_kernel, gauss_kernel_dx. fold c. rewrite Hsplit. fold p.
    unfold u. field. lra. }
  rewrite HD.
  assert (Hpc : 0 < p / c <= 1).
  { split; [apply Rdiv_lt_0_compat; lra|].
    apply Rle_trans with (p / 1); [|lra].
    unfold Rdiv. apply Rmult_le_compat_l; [lra|].
    apply Rinv_le_contravar; lra. }
  assert (Hh2 : 0 <= h * h) by nra.
  apply Rabs_le. split.
  - assert (0 <= p / c * (exp u - 1 - u)) by nra. nra.
  - assert (p / c * (exp u - 1 - u) <= 2 * (u * u)) by nra.
    assert (0 <= p * (h * h)) by nra. nra.
Qed.

Lemma RiemannInt_scal (f : R -> R) a b c
  (pf : Riemann_integrable f a b)
  (pr : Riemann_integrable (fun t => c * f t) a b) :
  RiemannInt pr = c * RiemannInt pf.
Proof.
  pose proof (RiemannInt_P13 (RiemannInt_P14 a b 0) pf
                (RiemannInt_P10 c (RiemannInt_P14 a b 0) pf)) as H.
  rewrite RiemannInt_P15 in H.
  rewrite (RiemannInt_ext _ _ _ _ pr
             (RiemannInt_P10 c (RiemannInt_P14 a b 0) pf)).
  - rewrite H. ring.
  - intro t. unfold fct_cte. ring.
Qed.

(** The integral of the remainder [f - g - c * k]. *)
Lemma RiemannInt_remainder (f g k : R -> R) a b c
  (pf : Riemann_integrable f a b) (pg : Riemann_integrable g a b)
  (pk : Riemann_integrable k a b)
  (pr : Riemann_integrable (fun t => f t - g t - c * k t) a b) :
  RiemannInt pr = RiemannInt pf - RiemannInt pg - c * RiemannInt pk.
Proof.
  pose (pfg := RiemannInt_P10 (-1) pf pg).
  pose (p3 := RiemannInt_P10 (- c) pfg pk).
  rewrite (RiemannInt_ext _ _ _ _ pr p3) by (intro t; ring).
  unfold p3. rewrite (RiemannInt_P13 pfg pk).
  unfold pfg. rewrite (RiemannInt_P13 pf pg). ring.
Qed.

(** Differentiation under the integral sign: [G' (x)] is the integral of
    the derivative of the kernel. *)
Lemma gauss_G_derivative x : derivable_pt_lim gauss_G x (gauss_G' x).
Proof.
  set (M := 2 * Rabs x + 1). set (K := 8 * M ^ 2 + 2).
  pose proof (Rabs_pos x) as Hx0.
  assert (HM : 1 <= M) by (unfold M; lra).
  assert (HK : 2 <= K) by (unfold K; nra).
  intros eps Heps.
  assert (Hd : 0 < Rmin (/ (4 * M)) (eps / K)).
  { apply Rmin_glb_lt.
    - apply Rinv_0_lt_compat. lra.
    - apply Rdiv_lt_0_compat; lra. }
  exists (mkposreal _ Hd). intros h Hh0 Hh. simpl in Hh.
  assert (Hh1 : Rabs h < / (4 * M))
    by (eapply Rlt_le_trans; [exact Hh | apply Rmin_l]).
  assert (Hh2 : Rabs h < eps / K)
    by (eapply Rlt_le_trans; [exact Hh | apply Rmin_r]).
  assert (Hsmall : 4 * M * Rabs h <= 1).
  { apply Rmult_lt_compat_l with (r := 4 * M) in Hh1; [|lra].
    rewrite Rinv_r in Hh1 by lra. lra. }
  assert (Hhabs : 0 < Rabs h) by (apply Rabs_pos_lt; exact Hh0).
  set (D := fun t => gauss_kernel (x + h) t - gauss_kernel x t
                     - h * gauss_kernel_dx x t).
  assert (pD : Riemann_integrable D 0 1).
  { apply continuity_integrable. unfold D. intro t.
    apply continuity_pt_minus; [apply continuity_pt_minus|].
    - apply gauss_kernel_continuity.
    - apply gauss_kernel_continuity.
    - apply continuity_pt_scal, gauss_kernel_dx_continuity. }
  assert (HD : RiemannInt pD = gauss_G (x + h) - gauss_G x - h * gauss_G' x).
  { unfold gauss_G, gauss_G'. apply RiemannInt_remainder. }
  assert (Hb : - (K * (h * h)) * (1 - 0) <= RiemannInt pD
               <= K * (h * h) * (1 - 0)).
  { apply RiemannInt_const_bound; [lra|]. intros t Ht.
    apply Rabs_le_bounds. unfold D, K, M.
    apply gauss_kernel_second_order; [lra | exact Hsmall]. }
  replace ((gauss_G (x + h) - gauss_G x) / h - gauss_G' x)
    with (RiemannInt pD / h) by (rewrite HD; field; exact Hh0).
  unfold Rdiv. rewrite Rabs_mult, Rabs_inv.
  assert (Habs : Rabs (RiemannInt pD) <= K * (Rabs h * Rabs h)).
  { apply Rabs_le.
    replace (Rabs h * Rabs h) with (h * h)
      by (rewrite <- Rabs_mult; symmetry; apply Rabs_right; nra).
    lra. }
  apply Rle_lt_trans with (K * (Rabs h * Rabs h) * / Rabs h).
  - apply Rmult_le_compat_r; [|exact Habs].
    left. apply Rinv_0_lt_compat. exact Hhabs.
  - replace (K * (Rabs h * Rabs h) * / Rabs h) with (K * Rabs h)
      by (field; lra).
    apply Rmult_lt_compat_l with (r := K) in Hh2; [|lra].
    replace (K * (eps / K)) with eps in Hh2 by (field; lra). exact Hh2.
Qed.

(** *** The identity [E(x)^2 + G(x) = pi / 4] *)

Lemma exp_le_mono a b : a <= b -> exp a <= exp b.
Proof.
  intros [H | ->]; [left; apply exp_increasing; exact H | lra].
Qed.

Lemma gauss_E_derivative x : derivable_pt_lim gauss_E x (exp_neg_sq x).
Proof.
  unfold gauss_E.
  apply (RiemannInt_upper_derivative exp_neg_sq
           (fun y => exp_neg_sq_integrable 0 y)).
  apply exp_neg_sq_continuity.
Qed.

Lemma gauss_E_0 : gauss_E 0 = 0.
Proof. apply RiemannInt_P9. Qed.

(** Substituting [u = x * t]: [int_0^1 x * exp(-(x t)^2) dt] is
    [int_0^x exp(-u^2) du]. *)
Lemma gauss_E_scaled x
  (pr : Riemann_integrable (fun t => x * exp_neg_sq (x * t)) 0 1) :
  RiemannInt pr = gauss_E x.
Proof.
  rewrite (RiemannInt_antiderivative (fun t => gauss_E (x * t))
             (fun t => x * exp_neg_sq (x * t))).
  - rewrite Rmult_1_r, Rmult_0_r, gauss_E_0. ring.
  - intro t.
    replace (x * exp_neg_sq (x * t)) with (exp_neg_sq (x * t) * (x * 1))
      by ring.
    apply (derivable_pt_lim_comp (fun t => x * t) gauss_E).
    + apply (derivable_pt_lim_scal id x t 1), derivable_pt_lim_id.
    + apply gauss_E_derivative.
  - intro t. apply continuity_pt_mult.
    + reg.
    + apply (continuity_pt_comp (fun t => x * t) exp_neg_sq).
      * reg.
      * apply exp_neg_sq_continuity.
Qed.

(** [G'(x) = - 2 exp(-x^2) E(x)], the opposite of the derivative of
    [E(x)^2]. *)
Lemma gauss_G'_eq x : gauss_G' x = - 2 * exp_neg_sq x * gauss_E x.
Proof.
  unfold gauss_G'.
  assert (pk : Riemann_integrable (fun t => x * exp_neg_sq (x * t)) 0 1).
  { apply continuity_integrable. intro t. apply continuity_pt_mult.
    - reg.
    - apply (continuity_pt_comp (fun t => x * t) exp_neg_sq).
      + reg.
      + apply exp_neg_sq_continuity. }
  rewrite <- (gauss_E_scaled x pk).
  rewrite <- (RiemannInt_scal _ 0 1 (- 2 * exp_neg_sq x) pk
               (Riemann_integrable_scal (- 2 * exp_neg_sq x) pk)).
  apply RiemannInt_ext. intro t.
  unfold gauss_kernel_dx, exp_neg_sq.
  replace (- (x * x) * (1 + t * t)) with (- (x * x) + - (x * t * (x * t)))
    by ring.
  rewrite exp_plus. ring.
Qed.

Lemma gauss_F_derivative x : derivable_pt_lim gauss_F x 0.
Proof.
  replace 0 with (exp_neg_sq x * gauss_E x + gauss_E x * exp_neg_sq x
                  + gauss_G' x)
    by (rewrite gauss_G'_eq; ring).
  apply (derivable_pt_lim_plus (gauss_E * gauss_E)%F gauss_G).
  - apply derivable_pt_lim_mult; apply gauss_E_derivative.
  - apply gauss_G_derivative.
Qed.

Lemma gauss_kernel_0 t : gauss_kernel 0 t = / (1 + t ^ 2).
Proof.
  unfold gauss_kernel. replace (- (0 * 0) * (1 + t * t)) with 0 by ring.
  rewrite exp_0. unfold Rdiv. rewrite Rmult_1_l. f_equal. ring.
Qed.

(** [G(0) = int_0^1 dt / (1 + t^2) = atan 1]. *)
Lemma gauss_G_0 : gauss_G 0 = PI / 4.
Proof.
  unfold gauss_G.
  assert (Hc : continuity (fun t => / (1 + t ^ 2))).
  { intro t. apply continuity_pt_inv; [reg | nra]. }
  rewrite (RiemannInt_ext _ _ _ _ (gauss_kernel_integrable 0)
             (continuity_integrable _ 0 1 Hc) gauss_kernel_0).
  rewrite (RiemannInt_antiderivative atan (fun t => / (1 + t ^ 2))).
  - rewrite atan_1, atan_0. ring.
  - apply derivable_pt_lim_atan.
  - exact Hc.
Qed.

Lemma gauss_F_constant x : gauss_F x = PI / 4.
Proof.
  assert (d : derivable gauss_F)
    by (intro y; exists 0; apply gauss_F_derivative).
  assert (H : constant gauss_F).
  { apply (null_derivative_1 gauss_F d). intro y.
    apply derive_pt_eq_0, gauss_F_derivative. }
  rewrite (H x 0). unfold gauss_F. rewrite gauss_E_0, gauss_G_0. ring.
Qed.

(** [exp(-2 x^2) pi/4 <= G(x) <= exp(-x^2) pi/4]. *)
Lemma gauss_G_bounds x :
  exp (- (2 * (x * x))) * (PI / 4) <= gauss_G x
  <= exp (- (x * x)) * (PI / 4).
Proof.
  rewrite <- gauss_G_0. unfold gauss_G.
  assert (Hk : forall t, 0 < / (1 + t * t))
    by (intro t; apply Rinv_0_lt_compat; nra).
  split.
  - rewrite <- (RiemannInt_scal _ 0 1 _ (gauss_kernel_integrable 0)
                 (Riemann_integrable_scal _ (gauss_kernel_integrable 0))).
    apply RiemannInt_P19; [lra|]. intros t Ht.
    unfold gauss_kernel. replace (- (0 * 0) * (1 + t * t)) with 0 by ring.
    rewrite exp_0. unfold Rdiv. rewrite Rmult_1_l.
    apply Rmult_le_compat_r; [left; apply Hk|].
    apply exp_le_mono.
    assert (0 <= x * x * (1 - t * t)) by (apply Rmult_le_pos; nra). lra.
  - rewrite <- (RiemannInt_scal _ 0 1 _ (gauss_kernel_integrable 0)
                 (Riemann_integrable_scal _ (gauss_kernel_integrable 0))).
    apply RiemannInt_P19; [lra|]. intros t Ht.
    unfold gauss_kernel. replace (- (0 * 0) * (1 + t * t)) with 0 by ring.
    rewrite exp_0. unfold Rdiv. rewrite Rmult_1_l.
    apply Rmult_le_compat_r; [left; apply Hk|].
    apply exp_le_mono.
    assert (0 <= x * x * (t * t)) by (apply Rmult_le_pos; nra). lra.
Qed.

Lemma gauss_E_nonneg x : 0 <= x -> 0 <= gauss_E x.
Proof.
  intros Hx. unfold gauss_E.
  pose proof (@RiemannInt_const_bound exp_neg_sq 0 x 0 1
                (exp_neg_sq_integrable 0 x) Hx) as H.
  destruct H as [H _]; [|lra].
  intros t _. unfold exp_neg_sq. split; [left; apply exp_pos|].
  rewrite <- exp_0. apply exp_le_mono. nra.
Qed.

(** *** Range and symmetry of [erf] and [erfcx] *)

Lemma gauss_E_bounds x :
  0 <= x ->
  1 - exp (- (x * x)) <= 2 / sqrt PI * gauss_E x < 1.
Proof.
  intros Hx.
  pose proof (gauss_F_constant x) as HF. unfold gauss_F in HF.
  pose proof (gauss_G_bounds x) as [HG1 HG2].
  pose proof (gauss_E_nonneg x Hx) as HE.
  pose proof PI_RGT_0 as Hpi.
  assert (Hs : 0 < sqrt PI) by (apply sqrt_lt_R0; lra).
  assert (Hss : sqrt PI * sqrt PI = PI) by (apply sqrt_sqrt; lra).
  set (e := 2 / sqrt PI * gauss_E x).
  assert (He : gauss_E x = sqrt PI / 2 * e) by (unfold e; field; lra).
  assert (He0 : 0 <= e).
  { unfold e. apply Rmult_le_pos; [|exact HE].
    left. apply Rdiv_lt_0_compat; lra. }
  pose proof (exp_pos (- (2 * (x * x)))) as Hp2.
  pose proof (exp_pos (- (x * x))) as Hp1.
  assert (Hp1' : exp (- (x * x)) <= 1).
  { rewrite <- exp_0. apply exp_le_mono. nra. }
  assert (Hsq : PI / 4 * (e * e) = PI / 4 - gauss_G x).
  { rewrite <- HF at 2. rewrite He.
    replace (sqrt PI / 2 * e * (sqrt PI / 2 * e))
      with (sqrt PI * sqrt PI / 4 * (e * e)) by field.
    rewrite Hss. ring. }
  assert (Hlo : 1 - exp (- (x * x)) <= e * e) by nra.
  assert (Hhi : e * e < 1) by nra.
  split; nra.
Qed.

Lemma erf_eq x : erf x = 2 / sqrt PI * gauss_E x.
Proof. reflexivity. Qed.

Lemma erf_0 : erf 0 = 0.
Proof. rewrite erf_eq, gauss_E_0. ring. Qed.

(** The error function is odd. *)
Lemma erf_odd x : erf (- x) = - erf x.
Proof.
  rewrite !erf_eq.
  assert (H : forall y, derivable_pt_lim
                (fun y => gauss_E y + gauss_E (- y)) y 0).
  { intro y.
    replace 0 with (exp_neg_sq y + exp_neg_sq (- y) * (-1)).
    - apply (derivable_pt_lim_plus gauss_E (fun y => gauss_E (- y))).
      + apply gauss_E_derivative.
      + apply (derivable_pt_lim_comp (fun y => - y) gauss_E).
        * apply (derivable_pt_lim_opp id y 1), derivable_pt_lim_id.
        * apply gauss_E_derivative.
    - unfold exp_neg_sq. replace (- y * - y) with (y * y) by ring. ring. }
  assert (d : derivable (fun y => gauss_E y + gauss_E (- y)))
    by (intro y; exists 0; apply H).
  assert (Hc : constant (fun y => gauss_E y + gauss_E (- y))).
  { apply (null_derivative_1 _ d). intro y. apply derive_pt_eq_0, H. }
  pose proof (Hc x 0) as H0. simpl in H0.
  rewrite Ropp_0, gauss_E_0 in H0.
  replace (gauss_E (- x)) with (- gauss_E x) by lra. ring.
Qed.

(** On the non-negative reals, [1 - exp(-x^2) <= erf(x) < 1]. *)
Lemma erf_bounds x : 0 <= x -> 1 - exp (- (x * x)) <= erf x < 1.
Proof. intros Hx. rewrite erf_eq. apply gauss_E_bounds, Hx. Qed.

(** The scaled complementary error function takes values in (0, 1] on the
    non-negative reals. *)
Lemma erfcx_unit_range x : 0 <= x -> 0 < erfcx x <= 1.
Proof.
  intros Hx. unfold erfcx. destruct (erf_bounds x Hx) as [H1 H2].
  pose proof (exp_pos (x ^ 2)) as He.
  assert (Hinv : exp (x ^ 2) * exp (- (x * x)) = 1).
  { rewrite <- exp_plus. replace (x ^ 2 + - (x * x)) with 0 by ring.
    apply exp_0. }
  split; [apply Rmult_lt_0_compat; lra|].
  rewrite <- Hinv. apply Rmult_le_compat_l; lra.
Qed.

(** ** Bounds on the Gauss-Legendre estimate *)

Section Quadrature.

Context {lib : Libraries}.

Lemma sum_nonneg (w : list R) : Forall (fun w => 0 <= w) w -> 0 <= np.sum w.
Proof. induction 1; simpl in *; lra. Qed.

Lemma weighted_sum_bounds (g : R -> R) (w x : list R) :
  Forall (fun w => 0 <= w) w ->
  Forall (fun x => 0 <= g x <= 1) x ->
  0 <= np.sum (np.zip_with (fun w x => w * g x) w x) <= np.sum w.
Proof.
  revert x; induction w as [|w0 w IH]; intros x Hw Hx.
  - simpl. lra.
  - inversion Hw as [|? ? Hw0 Hw']; subst.
    destruct x as [|x0 x].
    + pose proof (sum_nonneg w Hw'). simpl in *. lra.
    + inversion Hx as [|? ? Hx0 Hx']; subst.
      specialize (IH x Hw' Hx'). simpl in *. nra.
Qed.

Lemma erfcx_integral_at_bounds order a b :
  gauss_legendre_rule order ->
  0 <= a -> 0 <= b ->
  (a <= b -> 0 <= erfcx_integral_at order a b <= b - a)
  /\ (b <= a -> - (a - b) <= erfcx_integral_at order a b <= 0).
Proof.
  intros (Hx & Hw & Hs) Ha Hb.
  unfold erfcx_integral_at.
  destruct (roots_legendre order) as [x w]; simpl in Hx, Hw, Hs.
  assert (Hsum : 0 <= np.sum (np.zip_with
                   (fun w x => w * erfcx ((b - a) * x / 2 + (b + a) / 2)) w x)
                 <= 2).
  { pose proof (weighted_sum_bounds
                  (fun x => erfcx ((b - a) * x / 2 + (b + a) / 2)) w x Hw)
      as Hb2.
    rewrite Hs in Hb2. apply Hb2.
    eapply Forall_impl; [|exact Hx].
    intros t Ht.
    assert (H0 : 0 <= (b - a) * t / 2 + (b + a) / 2)
      by (destruct (Rle_dec a b); nra).
    destruct (erfcx_unit_range _ H0). lra. }
  split; intros Hab; nra.
Qed.

End Quadrature.

(** ** The three Siegert branches stay in (0, 1/t_ref] *)

Lemma sqrt_PI_pos : 0 < sqrt PI.
Proof. apply sqrt_lt_R0, PI_RGT_0. Qed.

(** [e / (e * t_ref + tau_m * sqrt(pi) * Int)] for a non-negative [Int]. *)
Lemma rate_quotient_range e t_ref tau_m Int :
  0 < e -> 0 < t_ref -> 0 < tau_m -> 0 <= Int ->
  0 < e / (e * t_ref + tau_m * sqrt PI * Int) <= 1 / t_ref.
Proof.
  intros He Ht Hm HI.
  pose proof sqrt_PI_pos as Hpi.
  assert (HX : 0 <= tau_m * sqrt PI * Int) by (apply Rmult_le_pos; nra).
  assert (HD : 0 < e * t_ref + tau_m * sqrt PI * Int) by nra.
  split.
  - apply Rdiv_lt_0_compat; assumption.
  - apply (Rmult_le_reg_r (e * t_ref + tau_m * sqrt PI * Int)); [exact HD|].
    unfold Rdiv. rewrite Rmult_assoc, Rinv_l by lra.
    apply (Rmult_le_reg_r t_ref); [exact Ht|].
    replace (1 * / t_ref * (e * t_ref + tau_m * sqrt PI * Int) * t_ref)
      with ((e * t_ref + tau_m * sqrt PI * Int) * (/ t_ref * t_ref)) by ring.
    rewrite Rinv_l by lra. nra.
Qed.

Lemma siegert_exc_at_range Int tau_m t_ref :
  0 < tau_m -> 0 < t_ref -> 0 <= Int ->
  0 < siegert_exc_at Int tau_m t_ref <= 1 / t_ref.
Proof.
  intros Hm Ht HI. unfold siegert_exc_at.
  pose proof (rate_quotient_range 1 t_ref tau_m Int Rlt_0_1 Ht Hm HI) as H.
  now rewrite Rmult_1_l in H.
Qed.

Lemma siegert_inh_at_range y_th y_r I tau_m t_ref :
  0 < tau_m -> 0 < t_ref -> y_r <= y_th -> I <= y_th - y_r ->
  0 < siegert_inh_at y_th y_r I tau_m t_ref <= 1 / t_ref.
Proof.
  intros Hm Ht Hy HI. unfold siegert_inh_at. cbv zeta.
  apply rate_quotient_range; auto using exp_pos.
  pose proof (dawsn_increment y_r y_th Hy) as HD.
  pose proof (exp_pos (- y_th ^ 2)) as He.
  nra.
Qed.

Lemma siegert_interm_at_range y_th I tau_m t_ref :
  0 < tau_m -> 0 < t_ref -> 0 <= y_th -> - y_th <= I ->
  0 < siegert_interm_at y_th I tau_m t_ref <= 1 / t_ref.
Proof.
  intros Hm Ht Hy HI. unfold siegert_interm_at. cbv zeta.
  apply rate_quotient_range; auto using exp_pos.
  pose proof (dawsn_lower y_th Hy) as HD.
  pose proof (exp_pos (- y_th ^ 2)) as He.
  nra.
Qed.

(** ** The masked evaluation of the three branches *)

Section MaskedBranches.

Context {lib : Libraries}.


(** An elementwise function of four arrays. *)
Local Abbreviation map4 f a b c d :=
  (np.ap (np.ap (np.ap (map f a) b) c) d).

Lemma map4_lengths {A} (f : R -> R -> R -> R -> A) a b c d n :
  length a = n -> length b = n -> length c = n -> length d = n ->
  length (np.ap (map f a) b) = n
  /\ length (np.ap (np.ap (map f a) b) c) = n
  /\ length (map4 f a b c d) = n.
Proof.
  intros Ha Hb Hc Hd.
  assert (H1 : length (map f a) = n) by (now rewrite length_map).
  assert (H2 : length (np.ap (map f a) b) = n)
    by (rewrite ap_length; congruence).
  assert (H3 : length (np.ap (np.ap (map f a) b) c) = n)
    by (rewrite ap_length; congruence).
  repeat split; auto. rewrite ap_length; congruence.
Qed.

Lemma map4_length {A} (f : R -> R -> R -> R -> A) a b c d n :
  length a = n -> length b = n -> length c = n -> length d = n ->
  length (map4 f a b c d) = n.
Proof. intros. now apply map4_lengths. Qed.

Lemma map4_nth {A} (f : R -> R -> R -> R -> A) a b c d n i (dflt : A) :
  length a = n -> length b = n -> length c = n -> length d = n ->
  (i < n)%nat ->
  nth i (map4 f a b c d) dflt
  = f (nth i a 0) (nth i b 0) (nth i c 0) (nth i d 0).
Proof.
  intros Ha Hb Hc Hd Hi.
  destruct (map4_lengths f a b c d n Ha Hb Hc Hd) as (H2 & H3 & _).
  rewrite ap_nth with (df := f 0 0 0) (dx := 0) by lia.
  rewrite ap_nth with (df := f 0 0) (dx := 0) by lia.
  rewrite ap_nth with (df := f 0) (dx := 0) by (rewrite ?length_map; lia).
  now rewrite (map_nth f a 0 i).
Qed.

Lemma compress_map4 {A} (f : R -> R -> R -> R -> A) m a b c d :
  np.compress m (map4 f a b c d)
  = map4 f (np.compress m a) (np.compress m b) (np.compress m c)
      (np.compress m d).
Proof. now rewrite !compress_ap, compress_map. Qed.

Lemma forallb_Rabs_nonneg l : forallb (fun a => Rleb 0 a) (map Rabs l) = true.
Proof.
  induction l as [|x l IH]; simpl; auto.
  rewrite IH, andb_true_r. apply Rleb_true, Rabs_pos.
Qed.

Lemma forallb_compress_nth {A} (p : A -> bool) (d : A) m l :
  (forall i, (i < length l)%nat -> nth i m false = true ->
             p (nth i l d) = true) ->
  forallb p (np.compress m l) = true.
Proof.
  revert l; induction m as [|b m IH]; intros [|x l] H; simpl; auto.
  assert (Hl : forallb p (np.compress m l) = true).
  { apply IH. intros i Hi Hm. apply (H (S i)); simpl; auto; lia. }
  destruct b; simpl; auto.
  rewrite Hl, andb_true_r. apply (H 0%nat); simpl; auto; lia.
Qed.

Lemma siegert_exc_compress m y_th y_r tau_m t_ref gl_order :
  forallb (fun y => Rltb y 0) (np.compress m y_th) = true ->
  _siegert_exc (np.compress m y_th) (np.compress m y_r)
    (np.compress m tau_m) (np.compress m t_ref) gl_order
  = Ok (np.compress m (map4 (exc_at gl_order) y_th y_r tau_m t_ref)).
Proof.
  intros Hassert. unfold _siegert_exc, _erfcx_integral.
  rewrite Hassert, !forallb_Rabs_nonneg. simpl. f_equal.
  rewrite compress_map4.
  generalize (np.compress m y_th) (np.compress m y_r) (np.compress m tau_m)
    (np.compress m t_ref).
  induction l as [|a l IH]; intros [|b l0] [|c l1] [|d l2]; simpl; auto.
  unfold np.ap in *. simpl. f_equal. apply IH.
Qed.

Lemma siegert_inh_compress m y_th y_r tau_m t_ref gl_order :
  forallb (fun y => Rltb 0 y) (np.compress m y_r) = true ->
  forallb (fun y => Rleb 0 y) (np.compress m y_r) = true ->
  forallb (fun y => Rleb 0 y) (np.compress m y_th) = true ->
  _siegert_inh (np.compress m y_th) (np.compress m y_r)
    (np.compress m tau_m) (np.compress m t_ref) gl_order
  = Ok (np.compress m (map4 (inh_at gl_order) y_th y_r tau_m t_ref)).
Proof.
  intros Hassert Hr Hth.
  unfold _siegert_inh, _erfcx_integral.
  rewrite Hassert, Hr, Hth. simpl. f_equal.
  rewrite compress_map4.
  generalize (np.compress m y_th) (np.compress m y_r) (np.compress m tau_m)
    (np.compress m t_ref).
  induction l as [|a l IH]; intros [|b l0] [|c l1] [|d l2]; simpl; auto.
  unfold np.ap in *. simpl. f_equal. apply IH.
Qed.

Lemma siegert_interm_compress m y_th y_r tau_m t_ref gl_order :
  forallb (fun b => b)
    (np.zip_with (fun y_r y_th => Rleb y_r 0 && Rleb 0 y_th)
       (np.compress m y_r) (np.compress m y_th)) = true ->
  forallb (fun y => Rleb 0 y) (np.compress m y_th) = true ->
  _siegert_interm (np.compress m y_th) (np.compress m y_r)
    (np.compress m tau_m) (np.compress m t_ref) gl_order
  = Ok (np.compress m (map4 (interm_at gl_order) y_th y_r tau_m t_ref)).
Proof.
  intros Hassert Hth.
  unfold _siegert_interm, _erfcx_integral.
  rewrite Hassert, Hth, forallb_Rabs_nonneg. simpl. f_equal.
  rewrite compress_map4.
  generalize (np.compress m y_th) (np.compress m y_r) (np.compress m tau_m)
    (np.compress m t_ref).
  induction l as [|a l IH]; intros [|b l0] [|c l1] [|d l2]; simpl; auto.
  unfold np.ap in *. simpl. f_equal. apply IH.
Qed.

Lemma nth_map_lt {A B} (f : A -> B) l i d d' :
  (i < length l)%nat -> nth i (map f l) d' = f (nth i l d).
Proof.
  intros Hi. rewrite (nth_indep _ d' (f d)) by (now rewrite length_map).
  apply map_nth.
Qed.

Lemma mask_exc_nth y_th i :
  (i < length y_th)%nat ->
  nth i (mask_exc y_th) false = Rltb (nth i y_th 0) 0.
Proof. intros. unfold mask_exc. now rewrite nth_map_lt with (d := 0). Qed.

Lemma mask_inh_nth y_r i :
  (i < length y_r)%nat ->
  nth i (mask_inh y_r) false = Rltb 0 (nth i y_r 0).
Proof. intros. unfold mask_inh. now rewrite nth_map_lt with (d := 0). Qed.

Lemma mask_interm_nth y_th y_r i :
  (i < length y_th)%nat -> (i < length y_r)%nat ->
  nth i (mask_interm y_th y_r) false
  = Rleb (nth i y_r 0) 0 && Rleb 0 (nth i y_th 0).
Proof.
  intros. unfold mask_interm.
  now rewrite zip_with_nth with (da := 0) (db := 0).
Qed.

Lemma mask_interm_length y_th y_r :
  length y_r = length y_th -> length (mask_interm y_th y_r) = length y_th.
Proof. intros H. unfold mask_interm. rewrite zip_with_length; auto. Qed.

Lemma mask_exc_length_n y_th n :
  length y_th = n -> length (mask_exc y_th) = n.
Proof. intros. unfold mask_exc. auto with len. Qed.

Lemma mask_inh_length_n y_r n :
  length y_r = n -> length (mask_inh y_r) = n.
Proof. intros. unfold mask_inh. auto with len. Qed.

Lemma mask_interm_length_n y_th y_r n :
  length y_th = n -> length y_r = n -> length (mask_interm y_th y_r) = n.
Proof. intros. unfold mask_interm. auto with len. Qed.

#[local] Hint Resolve mask_exc_length_n mask_inh_length_n
  mask_interm_length_n : len.

(** For an element with [y_r < y_th] exactly one of the three conditions
    holds. *)
Lemma branch_conditions_exclusive y_th y_r :
  y_r < y_th ->
  let exc := Rltb y_th 0 in
  let inh := Rltb 0 y_r in
  let interm := Rleb y_r 0 && Rleb 0 y_th in
  (exc = true /\ inh = false /\ interm = false)
  \/ (exc = false /\ inh = true /\ interm = false)
  \/ (exc = false /\ inh = false /\ interm = true).
Proof.
  intros H. cbv zeta. unfold Rltb, Rleb.
  destruct (Rlt_dec y_th 0), (Rlt_dec 0 y_r), (Rle_dec y_r 0),
    (Rle_dec 0 y_th); simpl; auto; lra.
Qed.

(** What a branch function returns on masked arguments, when it returns. *)
Lemma siegert_exc_compress_inv m y_th y_r tau_m t_ref gl_order v :
  _siegert_exc (np.compress m y_th) (np.compress m y_r)
    (np.compress m tau_m) (np.compress m t_ref) gl_order = Ok v ->
  v = np.compress m (map4 (exc_at gl_order) y_th y_r tau_m t_ref).
Proof.
  intros H.
  destruct (forallb (fun y => Rltb y 0) (np.compress m y_th)) eqn:E.
  - rewrite siegert_exc_compress in H by assumption. congruence.
  - unfold _siegert_exc in H. rewrite E in H. discriminate.
Qed.

Lemma siegert_inh_compress_inv m y_th y_r tau_m t_ref gl_order v :
  _siegert_inh (np.compress m y_th) (np.compress m y_r)
    (np.compress m tau_m) (np.compress m t_ref) gl_order = Ok v ->
  v = np.compress m (map4 (inh_at gl_order) y_th y_r tau_m t_ref).
Proof.
  intros H.
  destruct (forallb (fun y => Rltb 0 y) (np.compress m y_r)) eqn:E1;
    [|unfold _siegert_inh in H; rewrite E1 in H; discriminate].
  destruct (forallb (fun y => Rleb 0 y) (np.compress m y_r)) eqn:E2;
    [|unfold _siegert_inh, _erfcx_integral in H;
      rewrite E1, E2 in H; discriminate].
  destruct (forallb (fun y => Rleb 0 y) (np.compress m y_th)) eqn:E3;
    [|unfold _siegert_inh, _erfcx_integral in H;
      rewrite E1, E2, E3 in H; discriminate].
  rewrite siegert_inh_compress in H by assumption. congruence.
Qed.

Lemma siegert_interm_compress_inv m y_th y_r tau_m t_ref gl_order v :
  _siegert_interm (np.compress m y_th) (np.compress m y_r)
    (np.compress m tau_m) (np.compress m t_ref) gl_order = Ok v ->
  v = np.compress m (map4 (interm_at gl_order) y_th y_r tau_m t_ref).
Proof.
  intros H.
  destruct (forallb (fun b => b)
              (np.zip_with (fun y_r y_th => Rleb y_r 0 && Rleb 0 y_th)
                 (np.compress m y_r) (np.compress m y_th))) eqn:E1;
    [|unfold _siegert_interm in H; rewrite E1 in H; discriminate].
  destruct (forallb (fun y => Rleb 0 y) (np.compress m y_th)) eqn:E2;
    [|unfold _siegert_interm, _erfcx_integral in H;
      rewrite E1, E2 in H; discriminate].
  rewrite siegert_interm_compress in H by assumption. congruence.
Qed.

(** The three masked assignments of [nu_0] and [_nu0_dPhi], on arrays of one
    length: the array left after them holds at each index the value of the
    last branch whose mask selects the index. *)
Lemma masked_branches_value y_th y_r tau_m t_ref n gl_order :
  length y_th = n -> length y_r = n ->
  length tau_m = n -> length t_ref = n ->
  np.put_mask
    (np.put_mask
       (np.put_mask (np.zeros n) (mask_exc y_th)
          (np.compress (mask_exc y_th)
             (map4 (exc_at gl_order) y_th y_r tau_m t_ref)))
       (mask_inh y_r)
       (np.compress (mask_inh y_r)
          (map4 (inh_at gl_order) y_th y_r tau_m t_ref)))
    (mask_interm y_th y_r)
    (np.compress (mask_interm y_th y_r)
       (map4 (interm_at gl_order) y_th y_r tau_m t_ref))
  = map4 (siegert_at gl_order) y_th y_r tau_m t_ref.
Proof.
  intros Hth Hr Hm Ht.
  assert (Hl3 : length (mask_interm y_th y_r) = n) by len.
  rewrite (put_mask_compress_n (np.zeros n) (mask_exc y_th) _ n)
    by len.
  rewrite (put_mask_compress_n _ (mask_inh y_r) _ n) by len.
  rewrite (put_mask_compress_n _ (mask_interm y_th y_r) _ n)
    by len.
  apply nth_ext with (d := 0) (d' := 0).
  - transitivity n; [|symmetry]; len.
  - intros i Hi.
    replace (length _) with n in Hi by (symmetry; len).
    rewrite !where_nth_n with (n := n) by len.
    rewrite mask_exc_nth, mask_inh_nth, mask_interm_nth by lia.
    rewrite !map4_nth with (n := n) by assumption.
    unfold siegert_at.
    destruct (Rleb (nth i y_r 0) 0 && Rleb 0 (nth i y_th 0)); auto.
    destruct (Rltb 0 (nth i y_r 0)); auto.
    destruct (Rltb (nth i y_th 0) 0); auto.
    unfold np.zeros. now rewrite nth_repeat_lt.
Qed.

(** When every element satisfies [y_r < y_th], no assertion of the branch
    functions fails. *)
Lemma masked_branches_return y_th y_r tau_m t_ref n gl_order :
  length y_th = n -> length y_r = n ->
  (forall i, (i < n)%nat -> nth i y_r 0 < nth i y_th 0) ->
  _siegert_exc (np.compress (mask_exc y_th) y_th)
    (np.compress (mask_exc y_th) y_r) (np.compress (mask_exc y_th) tau_m)
    (np.compress (mask_exc y_th) t_ref) gl_order
  = Ok (np.compress (mask_exc y_th)
          (map4 (exc_at gl_order) y_th y_r tau_m t_ref))
  /\ _siegert_inh (np.compress (mask_inh y_r) y_th)
       (np.compress (mask_inh y_r) y_r) (np.compress (mask_inh y_r) tau_m)
       (np.compress (mask_inh y_r) t_ref) gl_order
     = Ok (np.compress (mask_inh y_r)
             (map4 (inh_at gl_order) y_th y_r tau_m t_ref))
  /\ _siegert_interm (np.compress (mask_interm y_th y_r) y_th)
       (np.compress (mask_interm y_th y_r) y_r)
       (np.compress (mask_interm y_th y_r) tau_m)
       (np.compress (mask_interm y_th y_r) t_ref) gl_order
     = Ok (np.compress (mask_interm y_th y_r)
             (map4 (interm_at gl_order) y_th y_r tau_m t_ref)).
Proof.
  intros Hth Hr Hlt.
  split; [|split].
  - apply siegert_exc_compress. apply forallb_compress_map.
  - apply siegert_inh_compress.
    + apply forallb_compress_map.
    + apply forallb_compress_nth with (d := 0). intros i Hi Hmask.
      rewrite mask_inh_nth in Hmask by lia.
      apply Rltb_true in Hmask. apply Rleb_true. lra.
    + apply forallb_compress_nth with (d := 0). intros i Hi Hmask.
      rewrite mask_inh_nth in Hmask by lia.
      apply Rltb_true in Hmask. apply Rleb_true.
      specialize (Hlt i ltac:(lia)). lra.
  - apply siegert_interm_compress.
    + rewrite <- compress_zip_with. fold (mask_interm y_th y_r).
      generalize (mask_interm y_th y_r).
      induction l as [|[|] l IH]; simpl; auto.
    + apply forallb_compress_nth with (d := 0). intros i Hi Hmask.
      rewrite mask_interm_nth in Hmask by lia.
      apply andb_true_iff in Hmask. tauto.
Qed.

End MaskedBranches.

#[local] Hint Resolve mask_exc_length_n mask_inh_length_n
  mask_interm_length_n : len.

(** ** The delta-synapse rate [nu_0] *)

Lemma zip_with_length_min {A B C} (f : A -> B -> C) a b :
  length (np.zip_with f a b) = Nat.min (length a) (length b).
Proof.
  revert b; induction a as [|x a IH]; intros [|y b]; simpl; auto.
Qed.

Lemma atleast_1d_item_if_single l : atleast_1d (np.item_if_single l) = l.
Proof. destruct l as [|x [|y l]]; reflexivity. Qed.

Section DeltaRate.

Context {lib : Libraries}.


(** The shifted coordinates [nu_0] computes. *)
Local Abbreviation y_of V mu sigma :=
  (np.zip_with (fun m s => (V - m) / s) mu sigma).

Lemma y_of_order V_th_rel V_0_rel mu sigma i :
  V_0_rel < V_th_rel -> Forall (fun s => 0 < s) sigma ->
  (i < length (y_of V_th_rel mu sigma))%nat ->
  nth i (y_of V_0_rel mu sigma) 0 < nth i (y_of V_th_rel mu sigma) 0.
Proof.
  intros HV Hs Hi. rewrite zip_with_length_min in Hi.
  rewrite !zip_with_nth with (da := 0) (db := 0) by lia.
  assert (Hsi : 0 < nth i sigma 0).
  { rewrite Forall_forall in Hs. apply Hs, nth_In. lia. }
  unfold Rdiv. apply Rmult_lt_compat_r; [now apply Rinv_0_lt_compat | lra].
Qed.

(** On inputs with [V_0_rel < V_th_rel] and positive [sigma], [nu_0] is the
    order search followed by the elementwise choice of one branch. *)
Lemma nu_0_elementwise tau_m tau_r V_th_rel V_0_rel mu sigma :
  V_0_rel < V_th_rel -> Forall (fun s => 0 < s) sigma ->
  let y_th := y_of V_th_rel mu sigma in
  let y_r := y_of V_0_rel mu sigma in
  let n := length y_th in
  nu_0 tau_m tau_r V_th_rel V_0_rel mu sigma
  = (gl_order <- _get_erfcx_integral_gl_order y_th y_r 10 1e-12 10 ;;
     Ok (np.item_if_single
           (np.ap (np.ap (np.ap (map (siegert_at gl_order) y_th) y_r)
                     (np.full n tau_m)) (np.full n tau_r)))).
Proof.
  intros HV Hs y_th y_r n. unfold nu_0. fold y_th y_r.
  destruct (_get_erfcx_integral_gl_order y_th y_r 10 1e-12 10)
    as [gl_order|e]; [|reflexivity].
  cbv beta iota zeta delta [bind].
  assert (Hr : length y_r = n)
    by (unfold y_r, n, y_th; now rewrite !zip_with_length_min).
  assert (Hl1 : length (mask_exc y_th) = length y_th)
    by (unfold mask_exc; now rewrite length_map).
  assert (Hl2 : length (mask_inh y_r) = length y_th)
    by (unfold mask_inh; now rewrite length_map).
  assert (Hl3 : length (mask_interm y_th y_r) = length y_th)
    by (now rewrite mask_interm_length).
  unfold np.full. rewrite !compress_repeat by assumption.
  destruct (masked_branches_return y_th y_r
              (repeat tau_m n) (repeat tau_r n) n gl_order)
    as (E1 & E2 & E3); auto.
  { intros i Hi. now apply y_of_order. }
  fold n. rewrite E1, E2, E3.
  now rewrite masked_branches_value by auto using repeat_length.
Qed.

(** What [nu_0] returns, when it returns: the order search succeeded and
    every element holds the value of the last branch selecting it. *)
Lemma nu_0_value tau_m tau_r V_th_rel V_0_rel mu sigma v :
  nu_0 tau_m tau_r V_th_rel V_0_rel mu sigma = Ok v ->
  let y_th := y_of V_th_rel mu sigma in
  let y_r := y_of V_0_rel mu sigma in
  let n := length y_th in
  exists gl_order,
    _get_erfcx_integral_gl_order y_th y_r 10 1e-12 10 = Ok gl_order
    /\ v = np.item_if_single
             (np.ap (np.ap (np.ap (map (siegert_at gl_order) y_th) y_r)
                       (np.full n tau_m)) (np.full n tau_r)).
Proof.
  intros H y_th y_r n. unfold nu_0 in H. fold y_th y_r in H.
  destruct (_get_erfcx_integral_gl_order y_th y_r 10 1e-12 10)
    as [gl_order|e]; [|discriminate].
  exists gl_order. split; [reflexivity|].
  cbv beta iota zeta delta [bind] in H.
  assert (Hr : length y_r = length y_th)
    by (unfold y_r, y_th; now rewrite !zip_with_length_min).
  assert (Hl1 : length (mask_exc y_th) = length y_th) by len.
  assert (Hl2 : length (mask_inh y_r) = length y_th) by len.
  assert (Hl3 : length (mask_interm y_th y_r) = length y_th) by len.
  unfold np.full in H.
  rewrite !compress_repeat in H by assumption.
  fold n in H.
  destruct (_siegert_exc _ _ _ _ _) as [v1|] eqn:E1 in H;
    [|discriminate].
  apply siegert_exc_compress_inv in E1. subst v1.
  destruct (_siegert_inh _ _ _ _ _) as [v2|] eqn:E2 in H;
    [|discriminate].
  apply siegert_inh_compress_inv in E2. subst v2.
  destruct (_siegert_interm _ _ _ _ _) as [v3|] eqn:E3 in H;
    [|discriminate].
  apply siegert_interm_compress_inv in E3. subst v3.
  rewrite masked_branches_value in H by len.
  now injection H as <-.
Qed.

Section BranchRanges.

Hypothesis gl_rule : forall order, gauss_legendre_rule order.

Variables tau_m t_ref : R.
Hypothesis tau_m_pos : 0 < tau_m.
Hypothesis t_ref_pos : 0 < t_ref.

Lemma exc_at_range gl_order y_th y_r :
  y_r < y_th -> y_th < 0 ->
  0 < exc_at gl_order y_th y_r tau_m t_ref <= 1 / t_ref.
Proof.
  intros Hlt Hth. unfold exc_at.
  apply siegert_exc_at_range; auto.
  rewrite (Rabs_left y_th), (Rabs_left y_r) by lra.
  apply (erfcx_integral_at_bounds gl_order
           (- y_th) (- y_r)); auto; lra.
Qed.

Lemma inh_at_range gl_order y_th y_r :
  y_r < y_th -> 0 < y_r ->
  0 < inh_at gl_order y_th y_r tau_m t_ref <= 1 / t_ref.
Proof.
  intros Hlt Hr. unfold inh_at.
  apply siegert_inh_at_range; auto; try lra.
  apply (erfcx_integral_at_bounds gl_order y_r y_th);
    auto; lra.
Qed.

Lemma interm_at_range gl_order y_th y_r :
  y_r <= 0 -> 0 <= y_th ->
  0 < interm_at gl_order y_th y_r tau_m t_ref <= 1 / t_ref.
Proof.
  intros Hr Hth. unfold interm_at.
  apply siegert_interm_at_range; auto.
  rewrite (Rabs_left1 y_r) by lra.
  destruct (erfcx_integral_at_bounds gl_order
              y_th (- y_r)) as [Hle Hge]; auto; lra.
Qed.

Lemma siegert_at_range gl_order y_th y_r :
  y_r < y_th ->
  0 < siegert_at gl_order y_th y_r tau_m t_ref <= 1 / t_ref.
Proof.
  intros Hlt. unfold siegert_at.
  destruct (Rleb y_r 0 && Rleb 0 y_th) eqn:E3.
  - apply andb_true_iff in E3. destruct E3 as [E3 E4].
    apply Rleb_true in E3, E4. now apply interm_at_range.
  - destruct (Rltb 0 y_r) eqn:E2.
    + apply Rltb_true in E2. now apply inh_at_range.
    + destruct (Rltb y_th 0) eqn:E1.
      * apply Rltb_true in E1. now apply exc_at_range.
      * apply Rltb_false in E1, E2. apply andb_false_iff in E3.
        destruct E3 as [E3 | E3]; apply Rleb_false in E3; lra.
Qed.

End BranchRanges.

(** C1.  Assume every Gauss-Legendre rule has its sample points in
    [[-1, 1]] and non-negative weights summing to 2.  Then for [tau_m > 0],
    [tau_r > 0], [V_th_rel > V_0_rel], positive [sigma] and [mu], [sigma] of
    one length: each of the three branches [_siegert_exc], [_siegert_inh]
    and [_siegert_interm] computes, on its domain, a value that is at least
    0 and at most [1 / tau_r]; the value is strictly greater than 0 in
    [_siegert_exc], and in the two other branches wherever
    [y_th ^ 2 <= 700] (for larger [y_th] the factor [exp(-y_th^2)] of these
    branches is 0.0 in double precision, and with it the rate).  [nu_0]
    either raises the exception of the quadrature-order search or returns
    one value per element of [mu], each with these bounds. *)
Theorem nu_0_in_unit_range tau_m tau_r V_th_rel V_0_rel mu sigma :
  (forall order, gauss_legendre_rule order) ->
  0 < tau_m -> 0 < tau_r -> V_0_rel < V_th_rel ->
  Forall (fun s => 0 < s) sigma -> length mu = length sigma ->
  (forall gl_order y_th y_r, y_r < y_th ->
     (y_th < 0 ->
      0 < exc_at gl_order y_th y_r tau_m tau_r <= 1 / tau_r)
     /\ (0 < y_r ->
         0 <= inh_at gl_order y_th y_r tau_m tau_r <= 1 / tau_r
         /\ (y_th ^ 2 <= 700 -> 0 < inh_at gl_order y_th y_r tau_m tau_r))
     /\ (y_r <= 0 <= y_th ->
         0 <= interm_at gl_order y_th y_r tau_m tau_r <= 1 / tau_r
         /\ (y_th ^ 2 <= 700 ->
             0 < interm_at gl_order y_th y_r tau_m tau_r)))
  /\ ((exists e,
         _get_erfcx_integral_gl_order (y_of V_th_rel mu sigma)
           (y_of V_0_rel mu sigma) 10 1e-12 10 = Raise e
         /\ nu_0 tau_m tau_r V_th_rel V_0_rel mu sigma = Raise e)
      \/ (exists v,
            nu_0 tau_m tau_r V_th_rel V_0_rel mu sigma = Ok v
            /\ length (atleast_1d v) = length mu
            /\ forall i, (i < length mu)%nat ->
                 0 <= nth i (atleast_1d v) 0 <= 1 / tau_r
                 /\ (((V_th_rel - nth i mu 0) / nth i sigma 0) ^ 2 <= 700 ->
                     0 < nth i (atleast_1d v) 0))).
Proof.
  intros Hgl Hm Hr HV Hs Hlen. split.
  - intros gl_order y_th y_r Hlt. split; [|split]; intros H.
    + now apply exc_at_range.
    + pose proof (inh_at_range Hgl tau_m tau_r Hm Hr gl_order y_th y_r
                    Hlt H) as [H1 H2].
      split; [lra | intros _; exact H1].
    + pose proof (interm_at_range Hgl tau_m tau_r Hm Hr gl_order y_th y_r
                    (proj1 H) (proj2 H)) as [H1 H2].
      split; [lra | intros _; exact H1].
  - rewrite nu_0_elementwise by assumption.
    destruct (_get_erfcx_integral_gl_order _ _ 10 1e-12 10)
      as [gl_order|e].
    + right. eexists. split; [reflexivity|].
      rewrite atleast_1d_item_if_single.
      set (y_th := y_of V_th_rel mu sigma).
      set (y_r := y_of V_0_rel mu sigma).
      assert (Hth : length y_th = length mu)
        by (unfold y_th; rewrite zip_with_length_min; lia).
      assert (Hlr : length y_r = length y_th)
        by (unfold y_r, y_th; now rewrite !zip_with_length_min).
      assert (Hl : length (np.ap (np.ap (np.ap
                        (map (siegert_at gl_order) y_th) y_r)
                        (np.full (length y_th) tau_m))
                        (np.full (length y_th) tau_r)) = length y_th).
      { apply map4_length; auto; apply repeat_length. }
      split; [congruence|].
      intros i Hi. rewrite <- Hth in Hi.
      rewrite map4_nth with (n := length y_th);
        auto; try apply repeat_length.
      unfold np.full. rewrite !nth_repeat_lt by assumption.
      destruct (siegert_at_range Hgl tau_m tau_r Hm Hr gl_order
                  (nth i y_th 0) (nth i y_r 0)) as [H1 H2].
      { now apply y_of_order. }
      split; [lra | intros _; exact H1].
    + left. exists e. split; reflexivity.
Qed.

End DeltaRate.

(** ** The rescaled-Phi auxiliary [_nu0_dPhi] *)

Lemma similar_array_length x array x' :
  _similar_array x array = Ok x' -> length x' = length array.
Proof.
  unfold _similar_array. intros H.
  destruct (length x =? length array)%nat eqn:E.
  - apply Nat.eqb_eq in E. congruence.
  - destruct (length x =? 1)%nat; [|discriminate].
    injection H as <-. now rewrite length_map, repeat_length.
Qed.

Lemma mapM_similar_array_length max_arg args args' :
  mapM (fun arg => _similar_array arg max_arg) args = Ok args' ->
  Forall (fun a => length a = length max_arg) args'.
Proof.
  revert args'; induction args as [|a args IH]; intros args' H; simpl in H.
  - injection H as <-. constructor.
  - destruct (_similar_array a max_arg) as [a'|] eqn:Ea; [|discriminate].
    simpl in H.
    destruct (mapM _ args) as [r|] eqn:Er; [|discriminate].
    simpl in H. injection H as <-.
    constructor; [eapply similar_array_length; eauto | now apply IH].
Qed.

(** The arrays [_equalize_shape] returns have one length. *)
Lemma equalize_shape_lengths args args' :
  _equalize_shape args = Ok args' ->
  exists n, Forall (fun a => length a = n) args'.
Proof.
  unfold _equalize_shape. intros H.
  eexists. eapply mapM_similar_array_length; eauto.
Qed.

Section NuZeroDPhi.

Context {lib : Libraries}.

Lemma Phi_neg_compress_inv m y v :
  _Phi_neg (map (fun y => sqrt 2 * y) (np.compress m y)) = Ok v ->
  v = np.compress m (map (fun y => Phi_neg_at (sqrt 2 * y)) y).
Proof.
  unfold _Phi_neg. intros H.
  destruct (forallb _ _); [|discriminate].
  injection H as <-. now rewrite compress_map, map_map.
Qed.

Lemma Phi_pos_compress_inv m y v :
  _Phi_pos (map (fun y => sqrt 2 * y) (np.compress m y)) = Ok v ->
  v = np.compress m (map (fun y => Phi_pos_at (sqrt 2 * y)) y).
Proof.
  unfold _Phi_pos. intros H.
  destruct (forallb _ _); [|discriminate].
  injection H as <-. now rewrite compress_map, map_map.
Qed.

Lemma Phi_neg_compress m y :
  (forall i, (i < length y)%nat -> nth i m false = true -> nth i y 0 <= 0) ->
  _Phi_neg (map (fun y => sqrt 2 * y) (np.compress m y))
  = Ok (np.compress m (map (fun y => Phi_neg_at (sqrt 2 * y)) y)).
Proof.
  intros Hy. unfold _Phi_neg.
  rewrite <- compress_map.
  rewrite (forallb_compress_nth (fun s => Rleb s 0) 0).
  - simpl. now rewrite compress_map, map_map, <- compress_map.
  - intros i Hi Hm. rewrite length_map in Hi.
    rewrite nth_map_lt with (d := 0) by assumption.
    apply Rleb_true. pose proof Rlt_sqrt2_0. specialize (Hy i Hi Hm). nra.
Qed.

Lemma Phi_pos_compress m y :
  (forall i, (i < length y)%nat -> nth i m false = true -> 0 <= nth i y 0) ->
  _Phi_pos (map (fun y => sqrt 2 * y) (np.compress m y))
  = Ok (np.compress m (map (fun y => Phi_pos_at (sqrt 2 * y)) y)).
Proof.
  intros Hy. unfold _Phi_pos.
  rewrite <- compress_map.
  rewrite (forallb_compress_nth (fun s => Rleb 0 s) 0).
  - simpl. now rewrite compress_map, map_map, <- compress_map.
  - intros i Hi Hm. rewrite length_map in Hi.
    rewrite nth_map_lt with (d := 0) by assumption.
    apply Rleb_true. pose proof Rlt_sqrt2_0. specialize (Hy i Hi Hm). nra.
Qed.

(** The shifted coordinates [_nu0_dPhi] computes. *)
Local Abbreviation y3_of V mu sigma :=
  (np.ap (np.ap (map (fun v m s => (v - m) / s) V) mu) sigma).

Ltac rewrite_put_mask n :=
  repeat match goal with
    | |- context [np.put_mask ?a ?m (np.compress ?m ?v)] =>
        rewrite (put_mask_compress_n a m v n) by len
    end.

(** What [_nu0_dPhi] returns, when it returns: the order search succeeded,
    and every element with [y_r < y_th] holds the value of the one domain it
    lies in. *)
Lemma nu0_dPhi_value V0' Vth' mu' sigma' tm' tr'
  V_0_rel V_th_rel mu sigma tau_m tau_r v :
  _equalize_shape [V0'; Vth'; mu'; sigma'; tm'; tr']
  = Ok [V_0_rel; V_th_rel; mu; sigma; tau_m; tau_r] ->
  _nu0_dPhi V0' Vth' mu' sigma' tm' tr' = Ok v ->
  let y_th := y3_of V_th_rel mu sigma in
  let y_r := y3_of V_0_rel mu sigma in
  let n := length y_th in
  exists gl_order,
    _get_erfcx_integral_gl_order y_th y_r 10 1e-12 10 = Ok gl_order
    /\ length (atleast_1d v) = n
    /\ forall i, (i < n)%nat -> nth i y_r 0 < nth i y_th 0 ->
         nth i (atleast_1d v) 0
         = if Rltb (nth i y_th 0) 0 then
             nu0_dPhi_exc_at gl_order (nth i y_th 0) (nth i y_r 0)
               (nth i tau_m 0) (nth i tau_r 0)
           else if Rltb 0 (nth i y_r 0) then
             nu0_dPhi_inh_at gl_order (nth i y_th 0) (nth i y_r 0)
               (nth i tau_m 0) (nth i tau_r 0)
           else
             nu0_dPhi_interm_at gl_order (nth i y_th 0) (nth i y_r 0)
               (nth i tau_m 0) (nth i tau_r 0).
Proof.
  intros Heq H y_th y_r n.
  destruct (equalize_shape_lengths _ _ Heq) as [n0 Hlen].
  assert (L0 : length V_0_rel = n0 /\ length V_th_rel = n0
               /\ length mu = n0 /\ length sigma = n0
               /\ length tau_m = n0 /\ length tau_r = n0).
  { rewrite Forall_forall in Hlen. repeat split; apply Hlen; simpl; tauto. }
  destruct L0 as (LV0 & LVth & Lmu & Lsigma & Lm & Lr).
  assert (Hth : length y_th = n0) by (unfold y_th; len).
  assert (Hr : length y_r = n0) by (unfold y_r; len).
  unfold n. rewrite Hth. clear n.
  unfold _nu0_dPhi, lif_delta._get_erfcx_integral_gl_order,
    lif_delta._siegert_exc, lif_delta._siegert_inh,
    lif_delta._siegert_interm in H.
  rewrite Heq in H.
  cbv beta iota zeta delta [bind] in H.
  fold y_th y_r in H.
  destruct (_get_erfcx_integral_gl_order y_th y_r 10 1e-12 10)
    as [gl_order|e]; [|discriminate].
  exists gl_order. split; [reflexivity|].
  destruct (_siegert_exc _ _ _ _ _) as [v1|] eqn:E1 in H;
    [|discriminate].
  apply siegert_exc_compress_inv in E1. subst v1.
  destruct (_siegert_inh _ _ _ _ _) as [v2|] eqn:E2 in H;
    [|discriminate].
  apply siegert_inh_compress_inv in E2. subst v2.
  destruct (_siegert_interm _ _ _ _ _) as [v3|] eqn:E3 in H;
    [|discriminate].
  apply siegert_interm_compress_inv in E3. subst v3.
  destruct (_Phi_neg _) as [p1|] eqn:P1 in H; [|discriminate].
  apply Phi_neg_compress_inv in P1. subst p1.
  destruct (_Phi_neg _) as [p2|] eqn:P2 in H; [|discriminate].
  apply Phi_neg_compress_inv in P2. subst p2.
  destruct (_Phi_pos _) as [p3|] eqn:P3 in H; [|discriminate].
  apply Phi_pos_compress_inv in P3. subst p3.
  destruct (_Phi_pos _) as [p4|] eqn:P4 in H; [|discriminate].
  apply Phi_pos_compress_inv in P4. subst p4.
  destruct (_Phi_pos _) as [p5|] eqn:P5 in H; [|discriminate].
  apply Phi_pos_compress_inv in P5. subst p5.
  destruct (_Phi_neg _) as [p6|] eqn:P6 in H; [|discriminate].
  apply Phi_neg_compress_inv in P6. subst p6.
  injection H as <-. rewrite atleast_1d_item_if_single.
  rewrite Hth, Hr.
  rewrite masked_branches_value by len.
  rewrite <- !compress_map, <- !compress_zip_with.
  rewrite_put_mask n0.
  split; [len|].
  intros i Hi Hlt.
  rewrite zip_with_nth_n with (n := n0) (da := 0) (db := 0) by len.
  rewrite zip_with_nth_n with (n := n0) (da := 0) (db := 0) by len.
  rewrite map4_nth with (n := n0) by assumption.
  repeat first
    [ rewrite where_nth_n with (n := n0) by len
    | rewrite zip_with_nth_n with (n := n0) (da := 0) (db := 0) by len
    | rewrite nth_map_lt with (d := 0) by lia ].
  rewrite mask_exc_nth, mask_inh_nth, mask_interm_nth by lia.
  unfold siegert_at, nu0_dPhi_exc_at, nu0_dPhi_inh_at, nu0_dPhi_interm_at.
  cbn [pow].
  destruct (branch_conditions_exclusive _ _ Hlt)
    as [(E1 & E2 & E3) | [(E1 & E2 & E3) | (E1 & E2 & E3)]];
    rewrite E1, E2, E3; reflexivity.
Qed.


(** When every element satisfies [y_r < y_th] and the order search
    succeeds, [_nu0_dPhi] returns: none of its assertions fails. *)
Lemma nu0_dPhi_returns V0' Vth' mu' sigma' tm' tr'
  V_0_rel V_th_rel mu sigma tau_m tau_r gl_order :
  _equalize_shape [V0'; Vth'; mu'; sigma'; tm'; tr']
  = Ok [V_0_rel; V_th_rel; mu; sigma; tau_m; tau_r] ->
  let y_th := y3_of V_th_rel mu sigma in
  let y_r := y3_of V_0_rel mu sigma in
  (forall i, (i < length y_th)%nat -> nth i y_r 0 < nth i y_th 0) ->
  _get_erfcx_integral_gl_order y_th y_r 10 1e-12 10 = Ok gl_order ->
  exists v, _nu0_dPhi V0' Vth' mu' sigma' tm' tr' = Ok v.
Proof.
  intros Heq y_th y_r Hlt Hord.
  destruct (equalize_shape_lengths _ _ Heq) as [n0 Hlen].
  assert (L0 : length V_0_rel = n0 /\ length V_th_rel = n0
               /\ length mu = n0 /\ length sigma = n0
               /\ length tau_m = n0 /\ length tau_r = n0).
  { rewrite Forall_forall in Hlen. repeat split; apply Hlen; simpl; tauto. }
  destruct L0 as (LV0 & LVth & Lmu & Lsigma & Lm & Lr).
  assert (Hth : length y_th = n0) by (unfold y_th; len).
  assert (Hr : length y_r = n0) by (unfold y_r; len).
  rewrite Hth in Hlt.
  unfold _nu0_dPhi, lif_delta._get_erfcx_integral_gl_order,
    lif_delta._siegert_exc, lif_delta._siegert_inh,
    lif_delta._siegert_interm.
  rewrite Heq.
  cbv beta iota zeta delta [bind].
  fold y_th y_r. rewrite Hord.
  destruct (masked_branches_return y_th y_r tau_m tau_r n0 gl_order)
    as (E1 & E2 & E3); auto.
  rewrite E1, E2, E3.
  assert (Hexc : forall i, (i < n0)%nat ->
            nth i (mask_exc y_th) false = true -> nth i y_th 0 < 0).
  { intros i Hi Hm. rewrite mask_exc_nth in Hm by lia.
    now apply Rltb_true in Hm. }
  assert (Hinh : forall i, (i < n0)%nat ->
            nth i (mask_inh y_r) false = true -> 0 < nth i y_r 0).
  { intros i Hi Hm. rewrite mask_inh_nth in Hm by lia.
    now apply Rltb_true in Hm. }
  assert (Hint : forall i, (i < n0)%nat ->
            nth i (mask_interm y_th y_r) false = true ->
            nth i y_r 0 <= 0 <= nth i y_th 0).
  { intros i Hi Hm. rewrite mask_interm_nth in Hm by lia.
    apply andb_true_iff in Hm. destruct Hm as [H1 H2].
    apply Rleb_true in H1, H2. lra. }
  rewrite (Phi_neg_compress (mask_exc y_th) y_th).
  2:{ intros i Hi Hm. rewrite Hth in Hi. specialize (Hexc i Hi Hm). lra. }
  rewrite (Phi_neg_compress (mask_exc y_th) y_r).
  2:{ intros i Hi Hm. rewrite Hr in Hi.
      specialize (Hexc i Hi Hm). specialize (Hlt i Hi). lra. }
  rewrite (Phi_pos_compress (mask_inh y_r) y_th).
  2:{ intros i Hi Hm. rewrite Hth in Hi.
      specialize (Hinh i Hi Hm). specialize (Hlt i Hi). lra. }
  rewrite (Phi_pos_compress (mask_inh y_r) y_r).
  2:{ intros i Hi Hm. rewrite Hr in Hi. specialize (Hinh i Hi Hm). lra. }
  rewrite (Phi_pos_compress (mask_interm y_th y_r) y_th).
  2:{ intros i Hi Hm. rewrite Hth in Hi. specialize (Hint i Hi Hm). lra. }
  rewrite (Phi_neg_compress (mask_interm y_th y_r) y_r).
  2:{ intros i Hi Hm. rewrite Hr in Hi. specialize (Hint i Hi Hm). lra. }
  eexists. reflexivity.
Qed.

End NuZeroDPhi.

(** ** Every element is computed by exactly one branch *)

Section BranchPartition.

Context {lib : Libraries}.

(** C2.  For an element whose shifted coordinates satisfy [y_r < y_th],
    exactly one of the three conditions [y_th < 0], [0 < y_r] and
    [(y_r <= 0) & (0 <= y_th)] holds.  Hence, whenever [nu_0] returns, each
    element of its output with [y_r < y_th] is the value of exactly one of
    the branches [_siegert_exc], [_siegert_inh], [_siegert_interm]: the one
    whose mask holds at that index, the two other masks being false there;
    and the same holds for the rescaled-Phi auxiliary [_nu0_dPhi].  Both
    functions do return when all elements satisfy [y_r < y_th] and the
    quadrature-order search succeeds. *)
Theorem siegert_branches_partition :
  (forall y_th y_r : R, y_r < y_th ->
     (Rltb y_th 0 = true /\ Rltb 0 y_r = false
      /\ Rleb y_r 0 && Rleb 0 y_th = false)
     \/ (Rltb y_th 0 = false /\ Rltb 0 y_r = true
         /\ Rleb y_r 0 && Rleb 0 y_th = false)
     \/ (Rltb y_th 0 = false /\ Rltb 0 y_r = false
         /\ Rleb y_r 0 && Rleb 0 y_th = true))
  /\ (forall tau_m tau_r V_th_rel V_0_rel mu sigma,
        let y_th := np.zip_with (fun m s => (V_th_rel - m) / s) mu sigma in
        let y_r := np.zip_with (fun m s => (V_0_rel - m) / s) mu sigma in
        (forall v,
           nu_0 tau_m tau_r V_th_rel V_0_rel mu sigma = Ok v ->
           exists gl_order,
             _get_erfcx_integral_gl_order y_th y_r 10 1e-12 10 = Ok gl_order
             /\ length (atleast_1d v) = length y_th
             /\ forall i, (i < length y_th)%nat ->
                  nth i y_r 0 < nth i y_th 0 ->
                  computed_by_one_branch
                    (nth i (mask_exc y_th) false)
                    (nth i (mask_inh y_r) false)
                    (nth i (mask_interm y_th y_r) false)
                    (nth i (atleast_1d v) 0)
                    (exc_at gl_order (nth i y_th 0) (nth i y_r 0) tau_m tau_r)
                    (inh_at gl_order (nth i y_th 0) (nth i y_r 0) tau_m tau_r)
                    (interm_at gl_order (nth i y_th 0) (nth i y_r 0)
                       tau_m tau_r))
        /\ (V_0_rel < V_th_rel -> Forall (fun s => 0 < s) sigma ->
            forall gl_order,
              _get_erfcx_integral_gl_order y_th y_r 10 1e-12 10 = Ok gl_order ->
              exists v, nu_0 tau_m tau_r V_th_rel V_0_rel mu sigma = Ok v))
  /\ (forall V0' Vth' mu' sigma' tm' tr' V_0_rel V_th_rel mu sigma tau_m tau_r,
        _equalize_shape [V0'; Vth'; mu'; sigma'; tm'; tr']
        = Ok [V_0_rel; V_th_rel; mu; sigma; tau_m; tau_r] ->
        let y_th :=
          np.ap (np.ap (map (fun v m s => (v - m) / s) V_th_rel) mu) sigma in
        let y_r :=
          np.ap (np.ap (map (fun v m s => (v - m) / s) V_0_rel) mu) sigma in
        (forall v,
           _nu0_dPhi V0' Vth' mu' sigma' tm' tr' = Ok v ->
           exists gl_order,
             _get_erfcx_integral_gl_order y_th y_r 10 1e-12 10 = Ok gl_order
             /\ length (atleast_1d v) = length y_th
             /\ forall i, (i < length y_th)%nat ->
                  nth i y_r 0 < nth i y_th 0 ->
                  computed_by_one_branch
                    (nth i (mask_exc y_th) false)
                    (nth i (mask_inh y_r) false)
                    (nth i (mask_interm y_th y_r) false)
                    (nth i (atleast_1d v) 0)
                    (nu0_dPhi_exc_at gl_order (nth i y_th 0) (nth i y_r 0)
                       (nth i tau_m 0) (nth i tau_r 0))
                    (nu0_dPhi_inh_at gl_order (nth i y_th 0) (nth i y_r 0)
                       (nth i tau_m 0) (nth i tau_r 0))
                    (nu0_dPhi_interm_at gl_order (nth i y_th 0) (nth i y_r 0)
                       (nth i tau_m 0) (nth i tau_r 0)))
        /\ ((forall i, (i < length y_th)%nat -> nth i y_r 0 < nth i y_th 0) ->
            forall gl_order,
              _get_erfcx_integral_gl_order y_th y_r 10 1e-12 10 = Ok gl_order ->
              exists v, _nu0_dPhi V0' Vth' mu' sigma' tm' tr' = Ok v)).
Proof.
  split; [|split].
  - intros y_th y_r H. exact (branch_conditions_exclusive y_th y_r H).
  - intros tau_m tau_r V_th_rel V_0_rel mu sigma y_th y_r. split.
    + intros v Hv.
      destruct (nu_0_value _ _ _ _ _ _ _ Hv) as (gl_order & Hord & Hval).
      fold y_th y_r in Hord, Hval.
      assert (Hr : length y_r = length y_th)
        by (unfold y_r, y_th; now rewrite !zip_with_length_min).
      rewrite Hval, atleast_1d_item_if_single.
      exists gl_order. split; [exact Hord|]. split.
      * len.
      * intros i Hi Hlt.
        rewrite map4_nth with (n := length y_th) by len.
        unfold np.full. rewrite !nth_repeat_lt by assumption.
        rewrite mask_exc_nth, mask_inh_nth, mask_interm_nth by lia.
        unfold computed_by_one_branch, siegert_at.
        destruct (branch_conditions_exclusive _ _ Hlt)
          as [(E1 & E2 & E3) | [(E1 & E2 & E3) | (E1 & E2 & E3)]];
          rewrite E1, E2, E3; tauto.
    + intros HV Hs gl_order Hord.
      rewrite nu_0_elementwise by assumption.
      fold y_th y_r. rewrite Hord. eexists. reflexivity.
  - intros V0' Vth' mu' sigma' tm' tr' V_0_rel V_th_rel mu sigma tau_m tau_r
      Heq y_th y_r.
    split.
    + intros v Hv.
      destruct (nu0_dPhi_value _ _ _ _ _ _ _ _ _ _ _ _ _ Heq Hv)
        as (gl_order & Hord & Hlen & Hval).
      fold y_th y_r in Hord, Hlen, Hval.
      assert (Hr : length y_r = length y_th).
      { destruct (equalize_shape_lengths _ _ Heq) as [n0 Hl].
        rewrite Forall_forall in Hl.
        assert (length V_0_rel = n0 /\ length V_th_rel = n0
                /\ length mu = n0 /\ length sigma = n0)
          as (L1 & L2 & L3 & L4)
          by (repeat split; apply Hl; simpl; tauto).
        transitivity n0; [|symmetry]; unfold y_r, y_th; len. }
      exists gl_order. split; [exact Hord|]. split; [exact Hlen|].
      intros i Hi Hlt. rewrite (Hval i Hi Hlt).
      rewrite mask_exc_nth, mask_inh_nth, mask_interm_nth by lia.
      unfold computed_by_one_branch.
      destruct (branch_conditions_exclusive _ _ Hlt)
        as [(E1 & E2 & E3) | [(E1 & E2 & E3) | (E1 & E2 & E3)]];
        rewrite E1, E2, E3; tauto.
    + intros Hlt gl_order Hord.
      exact (nu0_dPhi_returns _ _ _ _ _ _ _ _ _ _ _ _ gl_order Heq Hlt Hord).
Qed.

End BranchPartition.

(** ** The overflow-safe forms of Phi *)

Section RescaledPhi.

Lemma sqrt2_sqr : sqrt 2 * sqrt 2 = 2.
Proof. apply sqrt_sqrt. lra. Qed.

Lemma sqrt2_bounds : 1 < sqrt 2 < 2.
Proof.
  pose proof sqrt2_sqr as H. pose proof Rlt_sqrt2_0 as H0. split; nra.
Qed.

Lemma half_square s : (s / sqrt 2) ^ 2 = s ^ 2 / 2.
Proof.
  pose proof Rlt_sqrt2_0 as H2. pose proof sqrt2_sqr as Hs.
  unfold Rdiv. rewrite Rpow_mult_distr.
  replace ((/ sqrt 2) ^ 2) with (/ 2); [reflexivity|].
  rewrite <- Hs at 1. simpl. field. lra.
Qed.

Lemma Phi_neg_at_exact s : s <= 0 -> Phi_neg_at s = _Phi s.
Proof.
  intros Hs. unfold Phi_neg_at, _Phi.
  rewrite Rabs_left1 by assumption. unfold erfcx.
  replace (- s / sqrt 2) with (- (s / sqrt 2)) by (unfold Rdiv; ring).
  rewrite erf_odd.
  replace ((- (s / sqrt 2)) ^ 2) with ((s / sqrt 2) ^ 2) by ring.
  rewrite half_square. f_equal. f_equal. ring.
Qed.

Lemma Phi_pos_at_exact s : Phi_pos_at s = exp (- s ^ 2 / 2) * _Phi s.
Proof.
  unfold Phi_pos_at, _Phi, erfcx.
  rewrite half_square.
  assert (He : exp (- s ^ 2 / 2) * exp (s ^ 2 / 2) = 1).
  { rewrite <- exp_plus. replace (- s ^ 2 / 2 + s ^ 2 / 2) with 0 by lra.
    apply exp_0. }
  transitivity
    (sqrt (PI / 2)
     * (2 - exp (- s ^ 2 / 2) * exp (s ^ 2 / 2) * (1 - erf (s / sqrt 2))));
    [f_equal; ring|].
  transitivity
    (sqrt (PI / 2)
     * (exp (- s ^ 2 / 2) * exp (s ^ 2 / 2) * (1 + erf (s / sqrt 2))));
    [|ring].
  rewrite He. ring.
Qed.

(** C10.  In real arithmetic, the overflow-safe forms agree with the
    reference [_Phi(s) = sqrt(pi/2) * exp(s^2/2) * (1 + erf(s/sqrt 2))] on
    their domains: for every [s <= 0], [_Phi_neg(s) = _Phi(s)], and for
    every [s >= 0], [_Phi_pos(s) = exp(-s^2/2) * _Phi(s)]; on arrays within
    the domain the assertion passes and the identity holds elementwise. *)
Theorem Phi_neg_pos_agree_with_Phi :
  (forall s, s <= 0 -> Phi_neg_at s = _Phi s)
  /\ (forall s, 0 <= s -> Phi_pos_at s = exp (- s ^ 2 / 2) * _Phi s)
  /\ (forall s, Forall (fun s => s <= 0) s -> _Phi_neg s = Ok (map _Phi s))
  /\ (forall s, Forall (fun s => 0 <= s) s ->
        _Phi_pos s = Ok (map (fun s => exp (- s ^ 2 / 2) * _Phi s) s)).
Proof.
  split; [|split; [|split]].
  - intros s Hs. now apply Phi_neg_at_exact.
  - intros s _. now apply Phi_pos_at_exact.
  - intros s Hs. unfold _Phi_neg.
    replace (forallb (fun s0 => Rleb s0 0) s) with true.
    + simpl. f_equal. apply map_ext_in. intros a Ha.
      rewrite Forall_forall in Hs. apply Phi_neg_at_exact; auto.
    + symmetry. apply forallb_forall. intros a Ha.
      rewrite Forall_forall in Hs. apply Rleb_true. auto.
  - intros s Hs. unfold _Phi_pos.
    replace (forallb (fun s0 => Rleb 0 s0) s) with true.
    + simpl. f_equal. apply map_ext. intros a.
      now apply Phi_pos_at_exact.
    + symmetry. apply forallb_forall. intros a Ha.
      rewrite Forall_forall in Hs. apply Rleb_true. auto.
Qed.

End RescaledPhi.

(** ** The Taylor-corrected rate [nu0_fb433] *)

Section TaylorCorrectedRate.

Context {lib : Libraries}.

Lemma as_float_item_if_single x : as_float (np.item_if_single [x]) = Ok x.
Proof. reflexivity. Qed.

(** C5.  [nu0_fb433] raises exactly when the delta-synapse rate [nu_0] at
    the same parameters does.  Otherwise, with [r] the value [nu_0] returns:
    whenever the rescaled shifted threshold
    [x_th = sqrt 2 * (V_th_rel - mu) / sigma] exceeds [20 / sqrt 2] the
    returned value is [r] itself, and the correction term, with its [Phi],
    is not part of the result; otherwise the correction term
    [sqrt(tau_s/tau_m) * alpha / (tau_m * sqrt 2) * dPhi * (r * tau_m)^2] is
    subtracted from [r]. *)
Theorem nu0_fb433_falls_back_to_delta_rate
  tau_m tau_s tau_r V_th_rel V_0_rel mu sigma :
  let alpha := sqrt 2 * Rabs (zetac (1 / 2) + 1) in
  let x_th := sqrt 2 * (V_th_rel - mu) / sigma in
  let x_r := sqrt 2 * (V_0_rel - mu) / sigma in
  let delta_rate := nu_0 tau_m tau_r V_th_rel V_0_rel [mu] [sigma] in
  (forall e, delta_rate = Raise e ->
     nu0_fb433 tau_m tau_s tau_r V_th_rel V_0_rel mu sigma = Raise e)
  /\ (forall v, delta_rate = Ok v ->
        exists r,
          v = PyFloat r
          /\ (20 / sqrt 2 < x_th ->
              nu0_fb433 tau_m tau_s tau_r V_th_rel V_0_rel mu sigma = Ok r)
          /\ (~ 20 / sqrt 2 < x_th ->
              nu0_fb433 tau_m tau_s tau_r V_th_rel V_0_rel mu sigma
              = Ok (r - sqrt (tau_s / tau_m) * alpha / (tau_m * sqrt 2)
                        * (Phi x_th - Phi x_r) * (r * tau_m) ^ 2))).
Proof.
  intros alpha x_th x_r delta_rate. split.
  - intros e He. unfold nu0_fb433. fold x_th delta_rate. rewrite He.
    now destruct (Rltb (20 / sqrt 2) x_th).
  - intros v Hv. unfold delta_rate in Hv.
    destruct (nu_0_value _ _ _ _ _ _ _ Hv) as (gl_order & _ & Hval).
    simpl in Hval.
    match type of Hval with v = PyFloat ?x => exists x end.
    split; [exact Hval|]. split; intros Hx.
    + unfold nu0_fb433. fold x_th delta_rate.
      apply Rltb_true in Hx. rewrite Hx.
      unfold delta_rate. rewrite Hv, Hval. reflexivity.
    + unfold nu0_fb433. fold x_th x_r alpha delta_rate.
      apply Rltb_false in Hx. rewrite Hx.
      unfold delta_rate. rewrite Hv, Hval. reflexivity.
Qed.

End TaylorCorrectedRate.

(** ** The Taylor firing rate and its warning *)

Section TaylorFiringRate.

Context {lib : Libraries} {delta : DeltaModule}.

Lemma any_negative_iff l :
  np.any (map (fun r => Rltb r 0) l) = true <-> Exists (fun r => r < 0) l.
Proof.
  unfold np.any. rewrite existsb_exists, Exists_exists. split.
  - intros (b & Hin & Hb). subst b. apply in_map_iff in Hin.
    destruct Hin as (r & Hr & Hin). exists r. split; auto.
    now apply Rltb_true.
  - intros (r & Hin & Hr). exists true. split; auto.
    apply in_map_iff. exists r. split; auto. now apply Rltb_true.
Qed.

(** C7.  [_firing_rate_taylor] raises only when the delta-synapse rate, the
    auxiliary [_nu0_dPhi] or the broadcasting of the formula does.  When
    they yield the array [result], the function returns [result] itself
    (a single element as a scalar), negative elements included and
    unchanged; it emits the one warning "Negative firing rates detected"
    if some element of [result] is negative, and no warning if none is. *)
Theorem firing_rate_taylor_warns_and_returns
  V_0_rel V_th_rel mu sigma tau_m tau_r tau_s :
  let alpha := sqrt 2 * Rabs (zetac (1 / 2) + 1) in
  let computed :=
    nu0 <- _delta_firing_rate V_0_rel V_th_rel mu sigma tau_m tau_r ;;
    nu0_dPhi <- _nu0_dPhi V_0_rel V_th_rel mu sigma tau_m tau_r ;;
    taylor_rate alpha (atleast_1d nu0) (atleast_1d nu0_dPhi) tau_s tau_m in
  (forall e, computed = Raise e ->
     _firing_rate_taylor V_0_rel V_th_rel mu sigma tau_m tau_r tau_s
     = Raise e)
  /\ (forall result, computed = Ok result ->
        exists warnings,
          _firing_rate_taylor V_0_rel V_th_rel mu sigma tau_m tau_r tau_s
          = Ok (np.item_if_single result, warnings)
          /\ atleast_1d (np.item_if_single result) = result
          /\ (Exists (fun r => r < 0) result ->
              warnings = [NegativeFiringRates])
          /\ (Forall (fun r => ~ r < 0) result -> warnings = [])).
Proof.
  intros alpha computed. unfold computed, _firing_rate_taylor. fold alpha.
  destruct (_delta_firing_rate _ _ _ _ _ _) as [nu0|e0]; simpl.
  2:{ split; [intros e He; congruence | intros r Hr; discriminate]. }
  destruct (_nu0_dPhi _ _ _ _ _ _) as [nu0_dPhi|e1]; simpl.
  2:{ split; [intros e He; congruence | intros r Hr; discriminate]. }
  destruct (taylor_rate _ _ _ _ _) as [result|e2]; simpl.
  2:{ split; [intros e He; congruence | intros r Hr; discriminate]. }
  split; [intros e He; discriminate|].
  intros r Hr. injection Hr as <-.
  eexists. split; [reflexivity|].
  split; [apply atleast_1d_item_if_single|]. split.
  - intros Hneg. apply any_negative_iff in Hneg. now rewrite Hneg.
  - intros Hpos.
    destruct (np.any (map (fun r => Rltb r 0) result)) eqn:E; auto.
    apply any_negative_iff in E. apply Exists_exists in E.
    destruct E as (r & Hin & Hr). rewrite Forall_forall in Hpos.
    exfalso. exact (Hpos r Hin Hr).
Qed.

End TaylorFiringRate.

(** ** Complex sums and matrix products *)

Lemma complex_eq (z w : complex) : fst z = fst w -> snd z = snd w -> z = w.
Proof. destruct z, w; simpl; congruence. Qed.

Ltac complex_ring :=
  intros; apply complex_eq; simpl; ring.

Lemma Cplus_comm z w : Cplus z w = Cplus w z.
Proof. complex_ring. Qed.

Lemma Cplus_assoc z w v : Cplus z (Cplus w v) = Cplus (Cplus z w) v.
Proof. complex_ring. Qed.

Lemma Cplus_0_l z : Cplus (RtoC 0) z = z.
Proof. complex_ring. Qed.

Lemma Cplus_0_r z : Cplus z (RtoC 0) = z.
Proof. complex_ring. Qed.

Lemma Cmult_assoc z w v : Cmult z (Cmult w v) = Cmult (Cmult z w) v.
Proof. complex_ring. Qed.

Lemma Cmult_0_l z : Cmult (RtoC 0) z = RtoC 0.
Proof. complex_ring. Qed.


Lemma Cmult_1_l z : Cmult (RtoC 1) z = z.
Proof. complex_ring. Qed.

Lemma Cmult_plus_distr_l z w v :
  Cmult z (Cplus w v) = Cplus (Cmult z w) (Cmult z v).
Proof. complex_ring. Qed.

Lemma Cmult_plus_distr_r z w v :
  Cmult (Cplus z w) v = Cplus (Cmult z v) (Cmult w v).
Proof. complex_ring. Qed.

Lemma Cmult_minus_distr_r z w v :
  Cmult (Cminus z w) v = Cminus (Cmult z v) (Cmult w v).
Proof. complex_ring. Qed.

Lemma Csum_ext f g n :
  (forall k, (k < n)%nat -> f k = g k) -> Csum f n = Csum g n.
Proof.
  induction n as [|n IH]; intros H; simpl; auto.
  rewrite IH by (intros; apply H; lia). now rewrite H by lia.
Qed.

Lemma Csum_0 n : Csum (fun _ => RtoC 0) n = RtoC 0.
Proof. induction n as [|n IH]; simpl; auto. rewrite IH. complex_ring. Qed.

Lemma Csum_plus f g n :
  Csum (fun k => Cplus (f k) (g k)) n = Cplus (Csum f n) (Csum g n).
Proof.
  induction n as [|n IH]; simpl; [complex_ring|]. rewrite IH. complex_ring.
Qed.


Lemma Csum_mult_l z f n :
  Csum (fun k => Cmult z (f k)) n = Cmult z (Csum f n).
Proof.
  induction n as [|n IH]; simpl; [complex_ring|]. rewrite IH. complex_ring.
Qed.

Lemma Csum_mult_r z f n :
  Csum (fun k => Cmult (f k) z) n = Cmult (Csum f n) z.
Proof.
  induction n as [|n IH]; simpl; [complex_ring|]. rewrite IH. complex_ring.
Qed.

Lemma Csum_swap (f : nat -> nat -> complex) n m :
  Csum (fun k => Csum (fun l => f k l) m) n
  = Csum (fun l => Csum (fun k => f k l) n) m.
Proof.
  induction n as [|n IH]; simpl.
  - now rewrite Csum_0.
  - rewrite IH. now rewrite <- Csum_plus.
Qed.

(** A sum all of whose terms but the [k]-th vanish. *)
Lemma Csum_single f n k :
  (k < n)%nat -> (forall l, (l < n)%nat -> l <> k -> f l = RtoC 0) ->
  Csum f n = f k.
Proof.
  induction n as [|n IH]; intros Hk H; [lia|]. simpl.
  destruct (Nat.eq_dec k n) as [-> | Hne].
  - rewrite (Csum_ext f (fun _ => RtoC 0)) by (intros; apply H; lia).
    rewrite Csum_0. apply Cplus_0_l.
  - rewrite IH by (try lia; intros; apply H; lia).
    rewrite (H n) by lia. apply Cplus_0_r.
Qed.

Lemma dot_assoc n A B C i j :
  mat.dot n A (mat.dot n B C) i j = mat.dot n (mat.dot n A B) C i j.
Proof.
  unfold mat.dot.
  rewrite (Csum_ext _ (fun k => Csum (fun l =>
             Cmult (Cmult (A i k) (B k l)) (C l j)) n)).
  2:{ intros k _. rewrite <- Csum_mult_l. apply Csum_ext.
      intros l _. apply Cmult_assoc. }
  rewrite Csum_swap. apply Csum_ext. intros l _.
  now rewrite Csum_mult_r.
Qed.

Lemma dot_identity_l n A i j :
  (i < n)%nat -> mat.dot n mat.identity A i j = A i j.
Proof.
  intros Hi. unfold mat.dot, mat.identity.
  rewrite (Csum_single _ n i Hi).
  - rewrite Nat.eqb_refl. apply Cmult_1_l.
  - intros l _ Hl. apply Nat.eqb_neq in Hl. rewrite Nat.eqb_sym in Hl.
    rewrite Hl. apply Cmult_0_l.
Qed.

(** The product depends on the rows of its left factor entry by entry. *)
Lemma dot_eq_l n A A' B i j :
  (i < n)%nat -> mat.eq n A A' -> mat.dot n A B i j = mat.dot n A' B i j.
Proof.
  intros Hi HA. unfold mat.dot. apply Csum_ext. intros k Hk.
  now rewrite HA.
Qed.

(** [np.linalg.inv] returns the inverse of an invertible array and raises
    for a singular one. *)
Lemma inv_spec n A :
  (mat.invertible n A /\ exists Q, mat.inv n A = Ok Q /\ mat.is_inverse n A Q)
  \/ (~ mat.invertible n A /\ mat.inv n A = Raise LinAlgError).
Proof.
  unfold mat.inv.
  destruct (excluded_middle_informative (mat.invertible n A)) as [H | H].
  - left. split; [exact H|].
    destruct (constructive_indefinite_description _ H) as [Q HQ]. simpl.
    exists Q. auto.
  - right. auto.
Qed.

Lemma inv_ok n A Q : mat.inv n A = Ok Q -> mat.is_inverse n A Q.
Proof.
  intros H. destruct (inv_spec n A) as [(_ & Q' & HQ' & Hinv) | (_ & Hr)];
    congruence.
Qed.

(** ** The propagator *)

Section Propagator.

Lemma propagator_cons n W ec :
  _propagator n (W :: ec)
  = (Q <- mat.inv n (mat.sub mat.identity W) ;;
     P <- _propagator n ec ;;
     Ok (mat.dot n Q W :: P)).
Proof.
  unfold _propagator. simpl.
  destruct (mat.inv n (mat.sub mat.identity W)) as [Q|e]; simpl; auto.
  destruct (mapM _ ec) as [Qs|e]; simpl; auto.
Qed.

(** Left-multiplying [(I - W)^-1 W] by [I - W] gives [W] back. *)
Lemma inverse_times_propagator n W Q :
  mat.is_inverse n (mat.sub mat.identity W) Q ->
  mat.eq n (mat.dot n (mat.sub mat.identity W) (mat.dot n Q W)) W.
Proof.
  intros [Hr _] i j Hi Hj.
  rewrite dot_assoc.
  rewrite (dot_eq_l n _ mat.identity W i j Hi Hr).
  now apply dot_identity_l.
Qed.

(** C9.  When [I - W] is invertible at every frequency, [_propagator]
    returns one array per frequency, and left-multiplying the propagator of a
    frequency by [I - W] reproduces the effective connectivity [W] of that
    frequency exactly: [(I - W) . propagator(W) = W], the propagator being
    [(I - W)^-1 . W]. *)
Theorem propagator_left_multiplication n effective_connectivity :
  Forall (fun W => mat.invertible n (mat.sub mat.identity W))
    effective_connectivity ->
  exists prop,
    _propagator n effective_connectivity = Ok prop
    /\ length prop = length effective_connectivity
    /\ forall i W, nth_error effective_connectivity i = Some W ->
         exists Q p,
           mat.inv n (mat.sub mat.identity W) = Ok Q
           /\ nth_error prop i = Some p
           /\ p = mat.dot n Q W
           /\ mat.eq n (mat.dot n (mat.sub mat.identity W) p) W.
Proof.
  induction 1 as [|W ec HW Hec IH].
  - exists []. repeat split; auto. intros [|i] W H; discriminate.
  - destruct IH as (P & HP & Hlen & Hnth).
    destruct (inv_spec n (mat.sub mat.identity W))
      as [(_ & Q & HQ & Hinv) | (Hn & _)]; [|contradiction].
    exists (mat.dot n Q W :: P). rewrite propagator_cons, HQ, HP. simpl.
    repeat split; auto.
    intros [|i] W' H; simpl in H.
    + injection H as <-. exists Q, (mat.dot n Q W). repeat split; auto.
      now apply inverse_times_propagator.
    + apply Hnth, H.
Qed.

End Propagator.

(** ** The power spectrum *)

Section PowerSpectra.

(** A sum of non-negative reals, as complex numbers, is a non-negative
    real. *)
Lemma Csum_nonneg_real f n :
  (forall k, (k < n)%nat -> Cim (f k) = 0 /\ 0 <= Cre (f k)) ->
  Cim (Csum f n) = 0 /\ 0 <= Cre (Csum f n).
Proof.
  induction n as [|n IH]; intros H; simpl.
  - split; lra.
  - destruct IH as [Hi Hr]; [intros; apply H; lia|].
    destruct (H n) as [Hi' Hr']; [lia|].
    unfold Cim, Cre in *. simpl. split; lra.
Qed.

Lemma Cabs_nonneg_real z : Cim z = 0 -> 0 <= Cre z -> Cabs z = Cre z.
Proof.
  destruct z as [x y]. unfold Cim, Cre, Cabs. simpl. intros -> Hx.
  replace (x * (x * 1) + 0 * (0 * 1)) with (x * x) by ring.
  now apply sqrt_square.
Qed.

(** Row [k] of [A . Q^H] for the diagonal [A = diag(nu / N)]. *)
Lemma rate_size_times_conj_transpose n nu N Q k j :
  (k < n)%nat ->
  mat.dot n (rate_size_matrix nu N) (mat.conj_transpose Q) k j
  = Cmult (RtoC (nth k nu 0 / nth k N 0)) (Cconj (Q j k)).
Proof.
  intros Hk. unfold mat.dot, rate_size_matrix, mat.conj_transpose.
  rewrite (Csum_single _ n k Hk).
  - rewrite Nat.eqb_refl. f_equal. f_equal. unfold Rdiv. ring.
  - intros l _ Hl. apply Nat.eqb_neq in Hl. rewrite Nat.eqb_sym in Hl.
    rewrite Hl. apply complex_eq; simpl; unfold Rdiv; ring.
Qed.

(** The diagonal of [C = Q . A . Q^H] is real and non-negative when all
    [nu / N] are non-negative. *)
Lemma power_matrix_diagonal n nu N Q j :
  (forall k, (k < n)%nat -> 0 <= nth k nu 0 / nth k N 0) ->
  Cim (power_matrix n nu N Q j j) = 0
  /\ 0 <= Cre (power_matrix n nu N Q j j).
Proof.
  intros Ha. unfold power_matrix. unfold mat.dot at 1.
  apply Csum_nonneg_real. intros k Hk.
  rewrite rate_size_times_conj_transpose by assumption.
  specialize (Ha k Hk). destruct (Q j k) as [x y].
  unfold Cim, Cre. simpl. split; [ring|].
  replace (x * (nth k nu 0 / nth k N 0 * x - 0 * - y)
           - y * (nth k nu 0 / nth k N 0 * - y + 0 * x))
    with (nth k nu 0 / nth k N 0 * (x * x + y * y)) by ring.
  apply Rmult_le_pos; [exact Ha | nra].
Qed.

Lemma sum_app a b : np.sum (a ++ b) = np.sum a + np.sum b.
Proof.
  unfold np.sum. induction a as [|x a IH]; simpl; [ring|].
  rewrite IH. ring.
Qed.

Lemma Csum_RtoC f n :
  Csum (fun k => RtoC (f k)) n = RtoC (np.sum (map f (seq 0 n))).
Proof.
  induction n as [|n IH]; [reflexivity|].
  simpl Csum. rewrite IH, seq_S, map_app, sum_app. simpl.
  unfold Cplus, RtoC, np.sum. simpl. apply complex_eq; simpl; ring.
Qed.

Lemma Cabs_RtoC x : Cabs (RtoC x) = Rabs x.
Proof.
  unfold Cabs, RtoC. simpl.
  replace (x * (x * 1) + 0 * (0 * 1)) with (Rsqr x) by (unfold Rsqr; ring).
  apply sqrt_Rsqr_abs.
Qed.

Lemma Cabs_sqr z : Cabs z ^ 2 = fst z ^ 2 + snd z ^ 2.
Proof.
  unfold Cabs. apply pow2_sqrt. nra.
Qed.

(** The diagonal of [C = Q . A . Q^H]. *)
Lemma power_matrix_diagonal_entry n nu N Q j :
  power_matrix n nu N Q j j
  = RtoC (np.sum (map (fun k => Cabs (Q j k) ^ 2
                                * (nth k nu 0 / nth k N 0)) (seq 0 n))).
Proof.
  rewrite <- Csum_RtoC. unfold power_matrix. unfold mat.dot at 1.
  apply Csum_ext. intros k Hk.
  rewrite rate_size_times_conj_transpose by assumption.
  rewrite Cabs_sqr. destruct (Q j k) as [x y].
  unfold Cmult, Cconj, RtoC. apply complex_eq; simpl; ring.
Qed.

Lemma power_spectra_cons nu W ec N :
  _power_spectra nu (W :: ec) N
  = (Q <- mat.inv (length N) (mat.sub mat.identity W) ;;
     power <- _power_spectra nu ec N ;;
     Ok (map (fun j => Cabs (power_matrix (length N) nu N Q j j))
           (seq 0 (length N)) :: power)).
Proof.
  unfold _power_spectra. simpl.
  destruct (mat.inv _ _) as [Q|e]; simpl; auto.
Qed.

(** C6.  For rates and population sizes of one length, sizes other than 0
    and [I - W] invertible at every frequency, [_power_spectra] returns a
    row per frequency.  With [Q = (I - W)^-1] and [A = diag(nu / N)], the
    diagonal entry [C j j] of [C = Q . A . Q^H] is the real number
    [sum_k |Q[j, k]|^2 * nu[k] / N[k]], and the entry of population [j] in
    the row of the frequency is its absolute value
    ([np.absolute(np.diag(C))]).  That is the real part of the diagonal
    entry where the sum is not negative, as it is for non-negative rates
    and positive sizes. *)
Theorem power_spectra_absolute_diagonal nu effective_connectivity N :
  length nu = length N ->
  Forall (fun s => s <> 0) N ->
  Forall (fun W => mat.invertible (length N) (mat.sub mat.identity W))
    effective_connectivity ->
  exists power,
    _power_spectra nu effective_connectivity N = Ok power
    /\ length power = length effective_connectivity
    /\ forall i W, nth_error effective_connectivity i = Some W ->
         exists Q row,
           mat.inv (length N) (mat.sub mat.identity W) = Ok Q
           /\ mat.is_inverse (length N) (mat.sub mat.identity W) Q
           /\ nth_error power i = Some row
           /\ length row = length N
           /\ forall j, (j < length N)%nat ->
                let C :=
                  mat.dot (length N) Q
                    (mat.dot (length N) (rate_size_matrix nu N)
                       (mat.conj_transpose Q)) in
                let gain :=
                  np.sum (map (fun k => Cabs (Q j k) ^ 2
                                        * (nth k nu 0 / nth k N 0))
                            (seq 0 (length N))) in
                C j j = RtoC gain
                /\ nth j row 0 = Rabs gain
                /\ (0 <= gain -> nth j row 0 = Cre (C j j))
                /\ (Forall (fun r => 0 <= r) nu ->
                    Forall (fun s => 0 < s) N -> 0 <= gain).
Proof.
  intros Hlen _ Hinv.
  induction Hinv as [|W ec HW Hec IH].
  - exists []. repeat split; auto. intros [|i] W H; discriminate.
  - destruct IH as (P & HP & HlenP & Hnth).
    destruct (inv_spec (length N) (mat.sub mat.identity W))
      as [(_ & Q & HQ & HQinv) | (Hn & _)]; [|contradiction].
    eexists. rewrite power_spectra_cons, HQ, HP. simpl.
    split; [reflexivity|]. split; [simpl; congruence|].
    intros [|i] W' H; simpl in H.
    + injection H as <-. exists Q. eexists.
      split; [exact HQ|]. split; [exact HQinv|]. split; [reflexivity|].
      split; [now rewrite length_map, length_seq|].
      intros j Hj. cbv zeta.
      set (gain := np.sum (map (fun k => Cabs (Q j k) ^ 2
                                         * (nth k nu 0 / nth k N 0))
                             (seq 0 (length N)))).
      fold (power_matrix (length N) nu N Q).
      assert (HC : power_matrix (length N) nu N Q j j = RtoC gain)
        by (apply power_matrix_diagonal_entry).
      assert (Hrow : nth j (map (fun j0 => Cabs (power_matrix (length N)
                                                  nu N Q j0 j0))
                              (seq 0 (length N))) 0 = Rabs gain).
      { rewrite nth_map_lt with (d := 0%nat) by (now rewrite length_seq).
        rewrite seq_nth by assumption. simpl.
        rewrite HC. apply Cabs_RtoC. }
      split; [exact HC|]. split; [exact Hrow|]. split.
      * intros Hg. rewrite Hrow, HC. simpl. now apply Rabs_right, Rle_ge.
      * intros Hnu HN. apply sum_nonneg, Forall_map, Forall_forall.
        intros k Hk. apply in_seq in Hk.
        apply Rmult_le_pos; [apply pow2_ge_0|].
        rewrite Forall_forall in Hnu, HN.
        assert (0 <= nth k nu 0) by (apply Hnu, nth_In; lia).
        assert (0 < nth k N 0) by (apply HN, nth_In; lia).
        apply Rmult_le_pos; [assumption|].
        left. now apply Rinv_0_lt_compat.
    + apply Hnth, H.
Qed.

End PowerSpectra.

(** ** The sensitivity measure selects the eigenvalue closest to one *)

Section SensitivityMeasure.

Context {lib : Libraries}.

Lemma argmin_from_spec l : forall best best_i i,
  let r := np.argmin_from best best_i i l in
  (r = best_i /\ forall x, In x l -> best <= x)
  \/ (exists k, r = (i + k)%nat /\ (k < length l)%nat
        /\ nth k l 0 < best /\ forall x, In x l -> nth k l 0 <= x).
Proof.
  induction l as [|x l IH]; intros best best_i i; simpl.
  - left. split; [reflexivity | intros x []].
  - destruct (Rltb x best) eqn:E.
    + apply Rltb_true in E.
      destruct (IH x i (S i)) as [[Hr Hall] | (k & Hr & Hk & Hlt & Hall)].
      * right. exists 0%nat. rewrite Hr. simpl.
        repeat split; try lia; auto.
        intros y [<- | Hy]; [lra | now apply Hall].
      * right. exists (S k). rewrite Hr. simpl.
        repeat split; try lia; try lra.
        intros y [<- | Hy]; [lra | now apply Hall].
    + apply Rltb_false in E.
      destruct (IH best best_i (S i))
        as [[Hr Hall] | (k & Hr & Hk & Hlt & Hall)].
      * left. split; [exact Hr|].
        intros y [<- | Hy]; [lra | now apply Hall].
      * right. exists (S k). rewrite Hr. simpl.
        repeat split; try lia; auto.
        intros y [<- | Hy]; [lra | now apply Hall].
Qed.

(** [np.argmin] returns an index of a least element. *)
Lemma argmin_spec l :
  l <> [] ->
  exists r, np.argmin l = Ok r /\ (r < length l)%nat
            /\ forall j, (j < length l)%nat -> nth r l 0 <= nth j l 0.
Proof.
  destruct l as [|x l]; [congruence|]. intros _. simpl.
  eexists. split; [reflexivity|].
  destruct (argmin_from_spec l x 0%nat 1%nat)
    as [[Hr Hall] | (k & Hr & Hk & Hlt & Hall)]; rewrite Hr.
  - split; [lia|]. intros [|j] Hj; simpl; [lra|].
    apply Hall, nth_In. lia.
  - simpl. split; [lia|]. intros [|j] Hj; simpl; [lra|].
    apply Hall, nth_In. lia.
Qed.

Lemma closest_to_one_spec (e : list complex) :
  e <> [] ->
  exists index,
    closest_to_one e = Ok index /\ (index < length e)%nat
    /\ forall j, (j < length e)%nat ->
         Cabs (Cminus (nth index e (RtoC 0)) (RtoC 1))
         <= Cabs (Cminus (nth j e (RtoC 0)) (RtoC 1)).
Proof.
  intros He. unfold closest_to_one.
  set (dist := fun e => Cabs (Cminus e (RtoC 1))).
  destruct (argmin_spec (map dist e)) as (r & Hr & Hlt & Hmin).
  { destruct e; [congruence | discriminate]. }
  rewrite length_map in Hlt, Hmin.
  exists r. split; [exact Hr|]. split; [exact Hlt|].
  intros j Hj. specialize (Hmin j Hj).
  rewrite !nth_map_lt with (d := RtoC 0) in Hmin by assumption.
  exact Hmin.
Qed.

(** The distances to 1 of the three eigenvalues of the example. *)
Lemma example_distances :
  Cabs (Cminus (0.95, 0.1) (RtoC 1)) < Cabs (Cminus (0.2, 0) (RtoC 1))
  /\ Cabs (Cminus (0.95, 0.1) (RtoC 1)) < Cabs (Cminus (0, 0.5) (RtoC 1)).
Proof.
  unfold Cabs, Cminus, RtoC. simpl. split; apply sqrt_lt_1_alt; lra.
Qed.

(** C8.  For each frequency [_sensitivity_measure] takes the eigenvalues
    and the left and right eigenvectors of the effective connectivity from
    [eig] and selects the index [np.argmin(np.abs(e - 1))]: an eigenvalue
    whose Euclidean distance to 1 in the complex plane is minimal.  In
    particular, when the eigenvalues are 0.2, 0.95+0.1i and 0.5i, in any
    order, the selected eigenvalue is 0.95+0.1i.  When [eig] returns at
    least one eigenvalue at every frequency, the function returns an array
    per frequency, and the array of a frequency is the projector on the
    mode selected at that frequency,
    [outer(conj(U_l[:, index]), U_r[:, index]) / dot(conj(U_l[:, index]),
    U_r[:, index])], times the effective connectivity of the frequency,
    elementwise; a frequency without eigenvalues raises the [ValueError] of
    [np.argmin]. *)
Theorem sensitivity_measure_selects_closest_to_one :
  (forall e : list complex, e <> [] ->
     exists index,
       closest_to_one e = Ok index /\ (index < length e)%nat
       /\ forall j, (j < length e)%nat ->
            Cabs (Cminus (nth index e (RtoC 0)) (RtoC 1))
            <= Cabs (Cminus (nth j e (RtoC 0)) (RtoC 1)))
  /\ (forall e : list complex,
        Permutation e [(0.2, 0); (0.95, 0.1); (0, 0.5)] ->
        exists index,
          closest_to_one e = Ok index
          /\ nth index e (RtoC 0) = (0.95, 0.1))
  /\ (forall n effective_connectivity,
        Forall (fun W => fst (fst (eig n W)) <> []) effective_connectivity ->
        exists T,
          _sensitivity_measure n effective_connectivity = Ok T
          /\ length T = length effective_connectivity
          /\ forall i W, nth_error effective_connectivity i = Some W ->
               exists e U_l U_r index,
                 eig n W = (e, U_l, U_r)
                 /\ closest_to_one e = Ok index
                 /\ (index < length e)%nat
                 /\ (forall j, (j < length e)%nat ->
                       Cabs (Cminus (nth index e (RtoC 0)) (RtoC 1))
                       <= Cabs (Cminus (nth j e (RtoC 0)) (RtoC 1)))
                 /\ nth_error T i
                    = Some (fun a b =>
                              Cmult
                                (Cdiv (Cmult (Cconj (U_l a index))
                                         (U_r b index))
                                   (Csum (fun k =>
                                            Cmult (Cconj (U_l k index))
                                              (U_r k index)) n))
                                (W a b)))
  /\ (forall n effective_connectivity,
        Exists (fun W => fst (fst (eig n W)) = []) effective_connectivity ->
        _sensitivity_measure n effective_connectivity = Raise ValueError).
Proof.
  split; [exact closest_to_one_spec|]. split; [|split].
  - intros e Hperm.
    assert (Hne : e <> []).
    { intros ->. apply Permutation_nil in Hperm. discriminate. }
    destruct (closest_to_one_spec e Hne) as (index & Hidx & Hlt & Hmin).
    exists index. split; [exact Hidx|].
    assert (Hin : In (0.95, 0.1) e).
    { apply (Permutation_in _ (Permutation_sym Hperm)). simpl. auto. }
    destruct (In_nth _ _ (RtoC 0) Hin) as (j & Hj & Hnj).
    specialize (Hmin j Hj). rewrite Hnj in Hmin.
    assert (Hsel : In (nth index e (RtoC 0))
                     [(0.2, 0); (0.95, 0.1); (0, 0.5)]).
    { apply (Permutation_in _ Hperm), nth_In, Hlt. }
    destruct example_distances as [H1 H3].
    simpl in Hsel. destruct Hsel as [H | [H | [H | []]]]; auto;
      rewrite <- H in Hmin; lra.
  - intros n ec Hall. unfold _sensitivity_measure.
    induction Hall as [|W ec HW Hall IH].
    + exists []. split; [reflexivity|]. split; [reflexivity|].
      intros [|i] W H; discriminate.
    + destruct IH as (T & HT & HlenT & Hnth).
      destruct (eig n W) as [[e U_l] U_r] eqn:He. simpl in HW.
      destruct (closest_to_one_spec e HW) as (index & Hidx & Hlt & Hmin).
      eexists. cbn [mapM]. rewrite He, Hidx. cbn [bind]. rewrite HT.
      cbn [bind]. split; [reflexivity|]. split; [simpl; congruence|].
      intros [|i] W' H; simpl in H.
      * injection H as <-. exists e, U_l, U_r, index.
        split; [exact He|]. split; [exact Hidx|]. split; [exact Hlt|].
        split; [exact Hmin | reflexivity].
      * apply Hnth, H.
  - intros n ec Hex. unfold _sensitivity_measure.
    induction Hex as [W ec HW | W ec Hex IH]; cbn [mapM].
    + destruct (eig n W) as [[e U_l] U_r]. simpl in HW. subst e.
      reflexivity.
    + destruct (eig n W) as [[e U_l] U_r].
      destruct (closest_to_one e) as [index|x] eqn:E; cbn [bind].
      * rewrite IH. reflexivity.
      * destruct e as [|z e]; [|discriminate].
        unfold closest_to_one in E. simpl in E. injection E as <-.
        reflexivity.
Qed.

End SensitivityMeasure.

(** ** The zero-frequency test of the two transfer functions *)

Section TransferFunction.

Context {lib : Libraries} {delta : DeltaModule}.

Lemma zero_omega_mask_taylor_negative :
  zero_omega_mask_taylor [-1] = [true]
  /\ zero_omega_mask_taylor [0] = [true].
Proof.
  unfold zero_omega_mask_taylor. simpl.
  split; f_equal; apply Rltb_true; lra.
Qed.

Lemma zero_omega_mask_shift_negative :
  zero_omega_mask_shift [-1] = [false]
  /\ zero_omega_mask_shift [0] = [true].
Proof.
  unfold zero_omega_mask_shift. simpl. split; f_equal.
  - apply Rltb_false. rewrite Rabs_left by lra. lra.
  - apply Rltb_true. rewrite Rabs_R0. lra.
Qed.

Lemma zero_omega_mask_shift_even omegas :
  zero_omega_mask_shift (map Ropp omegas) = zero_omega_mask_shift omegas.
Proof.
  unfold zero_omega_mask_shift. rewrite map_map. apply map_ext.
  intros omega. now rewrite Rabs_Ropp.
Qed.

(** What the Taylor method returns for the single frequency [-1]: the row
    of the derivative of the rate with respect to the mean input. *)
Lemma transfer_function_taylor_at_minus_one
  mu' sigma' tau_m' tau_s' tau_r' V_th_rel' V_0_rel'
  mu sigma tau_m tau_s tau_r V_th_rel V_0_rel d synaptic_filter :
  _equalize_shape [mu'; sigma'; tau_m'; tau_r'; tau_s'; V_th_rel'; V_0_rel']
  = Ok [mu; sigma; tau_m; tau_r; tau_s; V_th_rel; V_0_rel] ->
  _derivative_of_firing_rates_wrt_mean_input
    V_0_rel V_th_rel mu sigma tau_m tau_r tau_s = Ok d ->
  _transfer_function_taylor mu' sigma' tau_m' tau_s' tau_r' V_th_rel'
    V_0_rel' [-1] synaptic_filter
  = Ok (apply_synaptic_filter synaptic_filter
          (np.put_mask [repeat (RtoC 0) (length mu)] [true] [map RtoC d])
          [-1] tau_s,
        []).
Proof.
  intros Heq Hd. unfold _transfer_function_taylor. rewrite Heq.
  destruct zero_omega_mask_taylor_negative as [-> _].
  cbn [bind np.any existsb map negb orb length repeat np.compress dc_rows].
  rewrite Hd. reflexivity.
Qed.

(** C4 fails for the Taylor method.  The shift method tests
    [np.abs(omegas) < 1e-15], so that its classification depends only on
    [|omega|].  The Taylor method tests [omegas < 1e-15] without the
    absolute value: the frequency [omega = -1], whose absolute value is not
    below 1e-15, is regular for the shift method but counts as zero for the
    Taylor method, which returns for it the DC limit (the derivative of the
    rate with respect to the mean input), the very value it returns for
    [omega = 0], and never evaluates the general parabolic-cylinder
    formula. *)
Theorem transfer_function_taylor_negative_omega_is_dc_limit
  mu sigma tau_m tau_s tau_r V_th_rel V_0_rel :
  ~ Rabs (-1) < 1e-15
  /\ (forall omegas,
        zero_omega_mask_shift (map Ropp omegas) = zero_omega_mask_shift omegas)
  /\ zero_omega_mask_shift [-1] = [false]
  /\ zero_omega_mask_taylor [-1] = [true]
  /\ zero_omega_mask_taylor [1] = [false]
  /\ _transfer_function_taylor mu sigma tau_m tau_s tau_r V_th_rel V_0_rel
       [-1] false
     = _transfer_function_taylor mu sigma tau_m tau_s tau_r V_th_rel V_0_rel
         [0] false
  /\ (forall mu1 sigma1 tau_m1 tau_s1 tau_r1 V_th_rel1 V_0_rel1 d,
        _equalize_shape [mu; sigma; tau_m; tau_r; tau_s; V_th_rel; V_0_rel]
        = Ok [mu1; sigma1; tau_m1; tau_r1; tau_s1; V_th_rel1; V_0_rel1] ->
        _derivative_of_firing_rates_wrt_mean_input
          V_0_rel1 V_th_rel1 mu1 sigma1 tau_m1 tau_r1 tau_s1 = Ok d ->
        _transfer_function_taylor mu sigma tau_m tau_s tau_r V_th_rel
          V_0_rel [-1] false
        = Ok ([map RtoC d], [])).
Proof.
  split; [rewrite Rabs_left by lra; lra|].
  split; [exact zero_omega_mask_shift_even|].
  split; [apply zero_omega_mask_shift_negative|].
  split; [apply zero_omega_mask_taylor_negative|].
  split.
  { unfold zero_omega_mask_taylor. simpl. f_equal. apply Rltb_false. lra. }
  split.
  - unfold _transfer_function_taylor.
    destruct zero_omega_mask_taylor_negative as [-> ->].
    reflexivity.
  - intros mu1 sigma1 tau_m1 tau_s1 tau_r1 V_th_rel1 V_0_rel1 d Heq Hd.
    rewrite (transfer_function_taylor_at_minus_one _ _ _ _ _ _ _
               _ _ _ _ _ _ _ d false Heq Hd).
    reflexivity.
Qed.

End TransferFunction.

(* ================================================================== *)
(** * Part III: the theorems at concrete inputs *)
(* ================================================================== *)

(** ** The midpoint libraries *)

Lemma midpoint_libraries_rule order :
  @gauss_legendre_rule midpoint_libraries order.
Proof.
  unfold gauss_legendre_rule. simpl. repeat split.
  - constructor; [lra | constructor].
  - constructor; [lra | constructor].
  - lra.
Qed.

(** With the midpoint libraries the fixed-order estimate is the estimate of
    [quad], so that the relative error of every order is 0. *)
Lemma midpoint_rel_error a b epsrel order :
  0 <= a -> 0 <= b -> a <> b ->
  @rel_error_at midpoint_libraries a b
    (@quad midpoint_libraries erfcx a b epsrel) order
  = 0.
Proof.
  intros Ha Hb Hab. unfold rel_error_at, erfcx_integral_at. simpl.
  replace ((b - a) * 0 / 2 + (b + a) / 2) with ((b + a) / 2) by lra.
  set (e := erfcx ((b + a) / 2)).
  assert (He : 0 < e) by (apply erfcx_unit_range; lra).
  replace ((b - a) * (2 * e + 0) / 2 / ((b - a) * e) - 1) with 0.
  - apply Rabs_R0.
  - field. split; lra.
Qed.

Lemma gl_order_loop_first {lib : Libraries}
  a b I_quad epsrel maxiter iters order prev :
  0 <= a -> 0 <= b ->
  rel_error_at a b I_quad order < epsrel ->
  gl_order_loop a b I_quad epsrel maxiter (S iters) order prev = Ok order.
Proof.
  intros Ha Hb Herr. cbn [gl_order_loop].
  rewrite erfcx_integral_scalar by assumption. cbn [bind hd].
  fold (rel_error_at a b I_quad order).
  apply Rltb_true in Herr. now rewrite Herr.
Qed.

(** The order search of the midpoint libraries on one-element arrays with
    [|y_th| <> |y_r|] succeeds at the first order tried. *)
Lemma midpoint_order_search y_th y_r :
  Rabs y_th <> Rabs y_r ->
  @_get_erfcx_integral_gl_order midpoint_libraries [y_th] [y_r] 10 1e-12 10
  = Ok 10%nat.
Proof.
  intros Hne.
  rewrite (get_erfcx_integral_gl_order_unfold [y_th] [y_r]
             (Rabs y_th) (Rabs y_r) (Rabs y_th) (Rabs y_r)) by reflexivity.
  pose proof (Rabs_pos y_th). pose proof (Rabs_pos y_r).
  assert (Ha : 0 <= Rmin (Rabs y_th) (Rabs y_r)) by now apply Rmin_glb.
  assert (Hb : 0 <= Rmax (Rabs y_th) (Rabs y_r))
    by (eapply Rle_trans; [|apply Rmax_l]; assumption).
  apply gl_order_loop_first; [exact Ha | exact Hb |].
  rewrite midpoint_rel_error; [lra | exact Ha | exact Hb |].
  unfold Rmin, Rmax. destruct (Rle_dec (Rabs y_th) (Rabs y_r)); lra.
Qed.

(** ** C3 at a concrete input *)

Lemma gl_order_search_first_converged_or_raise_witness :
  np.amin (map Rabs [1]) = Ok (Rabs 1)
  /\ np.amin (map Rabs [0]) = Ok (Rabs 0)
  /\ np.amax (map Rabs [1]) = Ok (Rabs 1)
  /\ np.amax (map Rabs [0]) = Ok (Rabs 0)
  /\ @_get_erfcx_integral_gl_order midpoint_libraries [1] [0] 10 1e-12 10
     = Ok 10%nat.
Proof.
  repeat (split; [reflexivity|]).
  assert (Hne : 0 <= Rmin (Rabs 1) (Rabs 0) /\ 0 <= Rmax (Rabs 1) (Rabs 0)
                /\ Rmin (Rabs 1) (Rabs 0) <> Rmax (Rabs 1) (Rabs 0)).
  { rewrite Rabs_R0, Rabs_R1. unfold Rmin, Rmax.
    destruct (Rle_dec 1 0); lra. }
  destruct Hne as (Ha & Hb & Hne).
  destruct (@gl_order_search_first_converged_or_raise midpoint_libraries
              [1] [0] (Rabs 1) (Rabs 0) (Rabs 1) (Rabs 0)
              eq_refl eq_refl eq_refl eq_refl)
    as [(k & Hk & Hret & Herr & Hprev) | (Hall & Hret)].
  - destruct k as [|k]; [exact Hret|].
    exfalso. apply (Hprev 0%nat); [lia|].
    rewrite midpoint_rel_error by assumption. lra.
  - exfalso. apply (Hall 0%nat); [lia|].
    rewrite midpoint_rel_error by assumption. lra.
Defined.

(** ** C1 at a concrete input *)

Lemma nu_0_in_unit_range_witness :
  (forall order, @gauss_legendre_rule midpoint_libraries order)
  /\ 0 < 1 /\ 0 < 2 /\ 0 < 1 /\ Forall (fun s => 0 < s) [1]
  /\ length [0] = length [1]
  /\ exists v,
       @nu_0 midpoint_libraries 1 2 1 0 [0] [1] = Ok v
       /\ length (atleast_1d v) = 1%nat
       /\ 0 < nth 0 (atleast_1d v) 0 <= 1 / 2.
Proof.
  assert (Hs : Forall (fun s => 0 < s) [1]) by (constructor; [lra | constructor]).
  split; [exact midpoint_libraries_rule|].
  split; [lra|]. split; [lra|]. split; [lra|]. split; [exact Hs|].
  split; [reflexivity|].
  destruct (@nu_0_in_unit_range midpoint_libraries 1 2 1 0 [0] [1]
              midpoint_libraries_rule
              ltac:(lra) ltac:(lra) ltac:(lra) Hs eq_refl)
    as [_ [(e & Hraise & _) | (v & Hv & Hlen & Hrange)]].
  - exfalso. simpl in Hraise.
    rewrite midpoint_order_search in Hraise; [discriminate|].
    replace ((1 - 0) / 1) with 1 by lra.
    replace ((0 - 0) / 1) with 0 by lra.
    rewrite Rabs_R0, Rabs_R1. lra.
  - exists v. split; [exact Hv|]. split; [exact Hlen|].
    destruct (Hrange 0%nat ltac:(simpl; lia)) as [[H1 H2] H3].
    split; [|exact H2]. apply H3. simpl. lra.
Defined.

(** ** C10 at a concrete input *)

Lemma Phi_neg_pos_agree_with_Phi_witness :
  Phi_neg_at (-1) = _Phi (-1)
  /\ Phi_pos_at 1 = exp (- 1 ^ 2 / 2) * _Phi 1
  /\ _Phi_neg [-1; 0] = Ok (map _Phi [-1; 0])
  /\ _Phi_pos [0; 1]
     = Ok (map (fun s => exp (- s ^ 2 / 2) * _Phi s) [0; 1]).
Proof.
  destruct Phi_neg_pos_agree_with_Phi as (Hneg & Hpos & Hnegs & Hposs).
  split; [apply Hneg; lra|]. split; [apply Hpos; lra|].
  split; [apply Hnegs | apply Hposs]; repeat constructor; lra.
Defined.

(** ** C9 and C6 at a concrete input *)

Lemma identity_minus_zero_invertible n :
  mat.invertible n (mat.sub mat.identity zero_matrix).
Proof.
  assert (He : mat.eq n (mat.sub mat.identity zero_matrix) mat.identity).
  { intros i j _ _. unfold mat.sub, zero_matrix.
    apply complex_eq; simpl; ring. }
  exists mat.identity. split; intros i j Hi Hj.
  - rewrite (dot_eq_l n _ mat.identity _ i j Hi He).
    now apply dot_identity_l.
  - rewrite dot_identity_l by assumption. now apply He.
Qed.

(** The inverse of [I - 0] has the entries of the identity. *)
Lemma inverse_of_identity_minus_zero n Q :
  mat.is_inverse n (mat.sub mat.identity zero_matrix) Q ->
  mat.eq n Q mat.identity.
Proof.
  intros [H _] i j Hi Hj. rewrite <- (H i j Hi Hj).
  rewrite (dot_eq_l n _ mat.identity _ i j Hi).
  - symmetry. now apply dot_identity_l.
  - intros i' j' _ _. unfold mat.sub, zero_matrix.
    apply complex_eq; simpl; ring.
Qed.

Lemma propagator_left_multiplication_witness :
  Forall (fun W => mat.invertible 2 (mat.sub mat.identity W)) [zero_matrix]
  /\ exists p,
       _propagator 2 [zero_matrix] = Ok [p]
       /\ mat.eq 2 (mat.dot 2 (mat.sub mat.identity zero_matrix) p)
            zero_matrix.
Proof.
  assert (H : Forall (fun W => mat.invertible 2 (mat.sub mat.identity W))
                [zero_matrix]).
  { constructor; [apply identity_minus_zero_invertible | constructor]. }
  split; [exact H|].
  destruct (propagator_left_multiplication 2 [zero_matrix] H)
    as (prop & Hprop & Hlen & Hnth).
  destruct (Hnth 0%nat zero_matrix eq_refl) as (Q & p & HQ & Hp & _ & Heq).
  destruct prop as [|p' [|p'' prop]]; try discriminate.
  simpl in Hp. injection Hp as ->.
  exists p. auto.
Defined.

Lemma power_spectra_absolute_diagonal_witness :
  length [3; 0] = length [4; 5] /\ Forall (fun s => s <> 0) [4; 5]
  /\ Forall (fun W => mat.invertible (length [4; 5])
                        (mat.sub mat.identity W)) [zero_matrix]
  /\ exists Q row,
       mat.inv 2 (mat.sub mat.identity zero_matrix) = Ok Q
       /\ _power_spectra [3; 0] [zero_matrix] [4; 5] = Ok [row]
       /\ nth 0 row 0
          = Rabs (np.sum (map (fun k => Cabs (Q 0%nat k) ^ 2
                                        * (nth k [3; 0] 0 / nth k [4; 5] 0))
                            (seq 0 2)))
       /\ nth 0 row 0
          = Cre (mat.dot 2 Q
                   (mat.dot 2 (rate_size_matrix [3; 0] [4; 5])
                      (mat.conj_transpose Q)) 0%nat 0%nat).
Proof.
  assert (HN : Forall (fun s => s <> 0) [4; 5]) by (repeat constructor; lra).
  assert (H : Forall (fun W => mat.invertible (length [4; 5])
                                 (mat.sub mat.identity W)) [zero_matrix]).
  { constructor; [apply identity_minus_zero_invertible | constructor]. }
  split; [reflexivity|]. split; [exact HN|]. split; [exact H|].
  destruct (power_spectra_absolute_diagonal [3; 0] [zero_matrix] [4; 5]
              eq_refl HN H)
    as (power & Hpower & Hlen & Hnth).
  destruct (Hnth 0%nat zero_matrix eq_refl)
    as (Q & row & HQ & _ & Hrow & _ & Hdiag).
  destruct power as [|row' [|row'' power]]; try discriminate.
  simpl in Hrow. injection Hrow as ->.
  exists Q, row. split; [exact HQ|]. split; [exact Hpower|].
  destruct (Hdiag 0%nat ltac:(simpl; lia)) as (_ & Habs & Hre & Hpos).
  split; [exact Habs|].
  apply Hre, Hpos; repeat constructor; lra.
Defined.

(** C6, an input at which the output is not the real part of the diagonal:
    one population with rate [-1] and size [1], without connections.  The
    diagonal entry of [C] is [-1], the power spectrum returned is its
    absolute value [1]. *)
Lemma power_spectra_of_a_negative_rate :
  mat.invertible 1 (mat.sub mat.identity zero_matrix)
  /\ exists Q,
       mat.inv 1 (mat.sub mat.identity zero_matrix) = Ok Q
       /\ _power_spectra [-1] [zero_matrix] [1] = Ok [[1]]
       /\ Cre (power_matrix 1 [-1] [1] Q 0%nat 0%nat) = -1
       /\ nth 0 (nth 0 [[1]] []) 0
          <> Cre (power_matrix 1 [-1] [1] Q 0%nat 0%nat).
Proof.
  split; [apply identity_minus_zero_invertible|].
  destruct (inv_spec 1 (mat.sub mat.identity zero_matrix))
    as [(_ & Q & HQ & HQinv) | (Hn & _)];
    [|exfalso; apply Hn, identity_minus_zero_invertible].
  apply inverse_of_identity_minus_zero in HQinv.
  assert (HC : power_matrix 1 [-1] [1] Q 0%nat 0%nat = RtoC (-1)).
  { rewrite power_matrix_diagonal_entry. simpl.
    rewrite (HQinv 0%nat 0%nat) by lia. unfold mat.identity. simpl.
    rewrite Cabs_RtoC, Rabs_R1. f_equal. unfold np.sum. simpl. lra. }
  exists Q. split; [exact HQ|]. split.
  - rewrite power_spectra_cons. change (length [1]) with 1%nat.
    rewrite HQ. unfold _power_spectra. cbn [bind mapM map seq].
    rewrite HC, Cabs_RtoC.
    do 3 f_equal. unfold Rabs. destruct (Rcase_abs (-1)); lra.
  - rewrite HC. simpl. split; [reflexivity | lra].
Qed.

(** ** C2 at a concrete input: one element in each domain *)

Lemma fold_left_Rmin_le l x : fold_left Rmin l x <= x.
Proof.
  revert x; induction l as [|y l IH]; intros x; simpl; [lra|].
  eapply Rle_trans; [apply IH | apply Rmin_l].
Qed.

Lemma fold_left_Rmax_ge l x : x <= fold_left Rmax l x.
Proof.
  revert x; induction l as [|y l IH]; intros x; simpl; [lra|].
  eapply Rle_trans; [apply Rmax_l | apply IH].
Qed.

(** The order search of the midpoint libraries succeeds at the first order
    on arrays whose first elements differ in absolute value. *)
Lemma midpoint_order_search_arrays x_th l_th x_r l_r :
  Rabs x_th < Rabs x_r ->
  @_get_erfcx_integral_gl_order midpoint_libraries
    (x_th :: l_th) (x_r :: l_r) 10 1e-12 10
  = Ok 10%nat.
Proof.
  intros Hlt.
  rewrite (get_erfcx_integral_gl_order_unfold (x_th :: l_th) (x_r :: l_r)
             (fold_left Rmin (map Rabs l_th) (Rabs x_th))
             (fold_left Rmin (map Rabs l_r) (Rabs x_r))
             (fold_left Rmax (map Rabs l_th) (Rabs x_th))
             (fold_left Rmax (map Rabs l_r) (Rabs x_r))) by reflexivity.
  set (a_th := fold_left Rmin (map Rabs l_th) (Rabs x_th)).
  set (a_r := fold_left Rmin (map Rabs l_r) (Rabs x_r)).
  set (b_th := fold_left Rmax (map Rabs l_th) (Rabs x_th)).
  set (b_r := fold_left Rmax (map Rabs l_r) (Rabs x_r)).
  assert (Ha_th : 0 <= a_th <= Rabs x_th).
  { split; [|apply fold_left_Rmin_le].
    apply fold_left_Rmin_nonneg;
      [apply Rabs_pos | apply Forall_Rabs_nonneg]. }
  assert (Ha_r : 0 <= a_r).
  { apply fold_left_Rmin_nonneg;
      [apply Rabs_pos | apply Forall_Rabs_nonneg]. }
  assert (Hb_r : Rabs x_r <= b_r) by apply fold_left_Rmax_ge.
  assert (Ha : 0 <= Rmin a_th a_r <= Rabs x_th).
  { split; [apply Rmin_glb; lra|].
    eapply Rle_trans; [apply Rmin_l | lra]. }
  assert (Hb : Rabs x_r <= Rmax b_th b_r).
  { eapply Rle_trans; [exact Hb_r | apply Rmax_r]. }
  apply gl_order_loop_first; try lra.
  rewrite midpoint_rel_error; lra.
Qed.

Lemma siegert_branches_partition_witness :
  exists a b c,
    @nu_0 midpoint_libraries 1 2 1 0 [2; -1; 1 / 2] [1; 1; 1]
    = Ok (NdArray [a; b; c])
    /\ a = @exc_at midpoint_libraries 10 ((1 - 2) / 1) ((0 - 2) / 1) 1 2
    /\ b = @inh_at midpoint_libraries 10 ((1 - -1) / 1) ((0 - -1) / 1) 1 2
    /\ c = @interm_at midpoint_libraries 10 ((1 - 1 / 2) / 1)
             ((0 - 1 / 2) / 1) 1 2.
Proof.
  assert (Hord : @_get_erfcx_integral_gl_order midpoint_libraries
                   (np.zip_with (fun m s => (1 - m) / s)
                      [2; -1; 1 / 2] [1; 1; 1])
                   (np.zip_with (fun m s => (0 - m) / s)
                      [2; -1; 1 / 2] [1; 1; 1]) 10 1e-12 10
                 = Ok 10%nat).
  { simpl. apply midpoint_order_search_arrays.
    replace ((1 - 2) / 1) with (-1) by lra.
    replace ((0 - 2) / 1) with (-2) by lra.
    rewrite !Rabs_left by lra. lra. }
  destruct (@siegert_branches_partition midpoint_libraries)
    as (_ & Hnu & _).
  destruct (Hnu 1 2 1 0 [2; -1; 1 / 2] [1; 1; 1]) as [Hval Hret].
  destruct (Hret ltac:(lra) ltac:(repeat constructor; lra) 10%nat Hord)
    as [v Hv].
  destruct (Hval v Hv) as (gl_order & Hord' & Hlen & Helt).
  rewrite Hord in Hord'. injection Hord' as <-.
  simpl in Hlen.
  destruct v as [x | [|a [|b [|c [|d l]]]]]; try discriminate.
  exists a, b, c. split; [exact Hv|].
  pose proof (Helt 0%nat ltac:(simpl; lia) ltac:(simpl; lra)) as H0.
  pose proof (Helt 1%nat ltac:(simpl; lia) ltac:(simpl; lra)) as H1.
  pose proof (Helt 2%nat ltac:(simpl; lia) ltac:(simpl; lra)) as H2.
  simpl in H0, H1, H2. unfold computed_by_one_branch in H0, H1, H2.
  repeat split.
  - destruct H0 as [(_ & _ & _ & E) | [(E & _) | (E & _)]];
      [exact E | |]; apply Rltb_false in E; lra.
  - destruct H1 as [(E & _) | [(_ & _ & _ & E) | (_ & E & _)]];
      [|exact E|]; [apply Rltb_true in E | apply Rltb_false in E]; lra.
  - destruct H2 as [(E & _) | [(_ & E & _) | (_ & _ & _ & E)]];
      [| |exact E]; apply Rltb_true in E; lra.
Defined.

(** ** C5 at concrete inputs: both sides of the guard *)

Lemma nu0_fb433_falls_back_to_delta_rate_witness :
  (exists r,
     @nu_0 midpoint_libraries 1 2 30 0 [0] [1] = Ok (PyFloat r)
     /\ @nu0_fb433 midpoint_libraries 1 1 2 30 0 0 1 = Ok r)
  /\ (exists r,
        @nu_0 midpoint_libraries 1 2 1 0 [0] [1] = Ok (PyFloat r)
        /\ @nu0_fb433 midpoint_libraries 1 1 2 1 0 0 1
           = Ok (r - sqrt (1 / 1) * (sqrt 2 * Rabs (0 + 1)) / (1 * sqrt 2)
                     * (Phi (sqrt 2 * (1 - 0) / 1)
                        - Phi (sqrt 2 * (0 - 0) / 1))
                     * (r * 1) ^ 2)).
Proof.
  pose proof Rlt_sqrt2_0 as H2. pose proof sqrt2_sqr as Hs.
  split.
  - assert (Hnu : exists v, @nu_0 midpoint_libraries 1 2 30 0 [0] [1] = Ok v).
    { rewrite nu_0_elementwise; [|lra | repeat constructor; lra].
      simpl. rewrite midpoint_order_search; [eexists; reflexivity|].
      replace ((30 - 0) / 1) with 30 by lra.
      replace ((0 - 0) / 1) with 0 by lra.
      rewrite Rabs_R0, Rabs_right by lra. lra. }
    destruct Hnu as [v Hv].
    destruct (@nu0_fb433_falls_back_to_delta_rate midpoint_libraries
                1 1 2 30 0 0 1) as [_ Hok].
    destruct (Hok v Hv) as (r & -> & Hguard & _).
    exists r. split; [exact Hv|]. apply Hguard.
    apply (Rmult_lt_reg_r (sqrt 2)); [exact H2|].
    unfold Rdiv. rewrite !Rmult_assoc, Rinv_l by lra.
    replace (sqrt 2 * ((30 - 0) * (/ 1 * sqrt 2)))
      with ((sqrt 2 * sqrt 2) * 30) by (field; lra).
    rewrite Hs. lra.
  - assert (Hnu : exists v, @nu_0 midpoint_libraries 1 2 1 0 [0] [1] = Ok v).
    { rewrite nu_0_elementwise; [|lra | repeat constructor; lra].
      simpl. rewrite midpoint_order_search; [eexists; reflexivity|].
      replace ((1 - 0) / 1) with 1 by lra.
      replace ((0 - 0) / 1) with 0 by lra.
      rewrite Rabs_R0, Rabs_R1. lra. }
    destruct Hnu as [v Hv].
    destruct (@nu0_fb433_falls_back_to_delta_rate midpoint_libraries
                1 1 2 1 0 0 1) as [_ Hok].
    destruct (Hok v Hv) as (r & -> & _ & Hcorr).
    exists r. split; [exact Hv|]. apply Hcorr.
    intros Hgt.
    assert (20 < sqrt 2 * sqrt 2); [|lra].
    apply (Rmult_lt_compat_r (sqrt 2)) in Hgt; [|exact H2].
    unfold Rdiv in Hgt. rewrite Rmult_assoc, Rinv_l in Hgt by lra.
    replace (sqrt 2 * (1 - 0) * / 1 * sqrt 2) with (sqrt 2 * sqrt 2) in Hgt
      by (field; lra).
    lra.
Defined.

(** ** C7 at concrete inputs: a negative and a non-negative result *)

(** With a zero synaptic time constant the Taylor correction vanishes and
    the result is the delta-synapse rate itself. *)
Lemma taylor_rate_without_filter alpha nu0 nu0_dPhi tau_m :
  taylor_rate alpha [nu0] [nu0_dPhi] [0] [tau_m] = Ok [nu0 * (1 - 0)].
Proof.
  unfold taylor_rate, broadcast. simpl.
  replace (0 * tau_m / 2) with 0 by lra.
  rewrite sqrt_0. do 3 f_equal. ring.
Qed.

Lemma nu0_dPhi_midpoint_returns :
  exists v, @_nu0_dPhi midpoint_libraries [0] [1] [0] [1] [1] [2] = Ok v.
Proof.
  apply (@nu0_dPhi_returns midpoint_libraries [0] [1] [0] [1] [1] [2]
           [0] [1] [0] [1] [1] [2] 10%nat eq_refl).
  - intros [|i] Hi; simpl in *; [lra | lia].
  - simpl. apply midpoint_order_search.
    replace ((1 - 0) / 1) with 1 by lra.
    replace ((0 - 0) / 1) with 0 by lra.
    rewrite Rabs_R0, Rabs_R1. lra.
Qed.

Lemma firing_rate_taylor_warns_and_returns_witness :
  (exists r,
     @_firing_rate_taylor midpoint_libraries (constant_delta (-1) 0)
       [0] [1] [0] [1] [1] [2] [0]
     = Ok (PyFloat r, [NegativeFiringRates]) /\ r < 0)
  /\ (exists r,
        @_firing_rate_taylor midpoint_libraries (constant_delta 1 0)
          [0] [1] [0] [1] [1] [2] [0]
        = Ok (PyFloat r, []) /\ ~ r < 0).
Proof.
  destruct nu0_dPhi_midpoint_returns as [d Hd].
  assert (Hd1 : exists x, atleast_1d d = [x]).
  { destruct (@nu0_dPhi_value midpoint_libraries [0] [1] [0] [1] [1] [2]
                [0] [1] [0] [1] [1] [2] d eq_refl Hd)
      as (_ & _ & Hlen & _).
    simpl in Hlen. destruct (atleast_1d d) as [|x [|y l]]; try discriminate.
    now exists x. }
  destruct Hd1 as [x Hx].
  split.
  - destruct (@firing_rate_taylor_warns_and_returns midpoint_libraries
                (constant_delta (-1) 0) [0] [1] [0] [1] [1] [2] [0])
      as [_ Hok].
    destruct (Hok [-1 * (1 - 0)]) as (w & Hret & _ & Hwarn & _).
    { simpl. rewrite Hd. simpl. rewrite Hx.
      apply taylor_rate_without_filter. }
    exists (-1 * (1 - 0)). split; [|lra].
    rewrite Hret. simpl. rewrite Hwarn; [reflexivity|].
    constructor. lra.
  - destruct (@firing_rate_taylor_warns_and_returns midpoint_libraries
                (constant_delta 1 0) [0] [1] [0] [1] [1] [2] [0])
      as [_ Hok].
    destruct (Hok [1 * (1 - 0)]) as (w & Hret & _ & _ & Hquiet).
    { simpl. rewrite Hd. simpl. rewrite Hx.
      apply taylor_rate_without_filter. }
    exists (1 * (1 - 0)). split; [|lra].
    rewrite Hret. simpl. rewrite Hquiet; [reflexivity|].
    repeat constructor. lra.
Defined.

(** ** C8 at a concrete input: a diagonal effective connectivity *)

Lemma sensitivity_measure_selects_closest_to_one_witness :
  let W := diagonal_matrix [(0.2, 0); (0.95, 0.1); (0, 0.5)] in
  @eig midpoint_libraries 3 W
  = ([(0.2, 0); (0.95, 0.1); (0, 0.5)], mat.identity, mat.identity)
  /\ @closest_to_one [(0.2, 0); (0.95, 0.1); (0, 0.5)] = Ok 1%nat
  /\ exists T0 T1,
       @_sensitivity_measure midpoint_libraries 3 [zero_matrix; W]
       = Ok [T0; T1]
       /\ T1 = fun a b =>
                 Cmult
                   (Cdiv (Cmult (Cconj (mat.identity a 1%nat))
                            (mat.identity b 1%nat))
                      (Csum (fun k =>
                               Cmult (Cconj (mat.identity k 1%nat))
                                 (mat.identity k 1%nat)) 3))
                   (W a b).
Proof.
  intros W.
  assert (He : @eig midpoint_libraries 3 W
               = ([(0.2, 0); (0.95, 0.1); (0, 0.5)],
                  mat.identity, mat.identity)) by reflexivity.
  destruct (@sensitivity_measure_selects_closest_to_one midpoint_libraries)
    as (_ & Hsel & Hret & _).
  destruct (Hsel [(0.2, 0); (0.95, 0.1); (0, 0.5)] (Permutation_refl _))
    as (index & Hidx & Hnth).
  assert (Hone : index = 1%nat).
  { destruct index as [|[|[|k]]]; simpl in Hnth; auto;
      try (injection Hnth; intros; lra).
    destruct k; injection Hnth; intros; lra. }
  subst index.
  split; [exact He|]. split; [exact Hidx|].
  destruct (Hret 3%nat [zero_matrix; W]) as (T & HT & HlenT & HnthT).
  { repeat constructor; discriminate. }
  destruct (HnthT 1%nat W eq_refl)
    as (e & U_l & U_r & index & He' & Hidx' & _ & _ & HT1).
  rewrite He in He'. injection He' as <- <- <-.
  rewrite Hidx in Hidx'. injection Hidx' as <-.
  destruct T as [|T0 [|T1 [|T2 T]]]; try discriminate.
  simpl in HT1. injection HT1 as ->.
  exists T0. eexists. split; [exact HT | reflexivity].
Defined.

(** ** When the network functions return, every frequency is regular *)

Lemma propagator_returns_invertible n effective_connectivity prop :
  _propagator n effective_connectivity = Ok prop ->
  Forall (fun W => mat.invertible n (mat.sub mat.identity W))
    effective_connectivity.
Proof.
  revert prop; induction effective_connectivity as [|W ec IH];
    intros prop H; [constructor|].
  rewrite propagator_cons in H.
  destruct (inv_spec n (mat.sub mat.identity W))
    as [(Hinv & Q & HQ & _) | (_ & Hr)]; [|rewrite Hr in H; discriminate].
  rewrite HQ in H. simpl in H.
  destruct (_propagator n ec) as [P|e] eqn:E; [|discriminate].
  constructor; [exact Hinv | eapply IH; reflexivity].
Qed.

Lemma power_spectra_returns_invertible nu effective_connectivity N power :
  _power_spectra nu effective_connectivity N = Ok power ->
  Forall (fun W => mat.invertible (length N) (mat.sub mat.identity W))
    effective_connectivity.
Proof.
  revert power; induction effective_connectivity as [|W ec IH];
    intros power H; [constructor|].
  rewrite power_spectra_cons in H.
  destruct (inv_spec (length N) (mat.sub mat.identity W))
    as [(Hinv & Q & HQ & _) | (_ & Hr)]; [|rewrite Hr in H; discriminate].
  rewrite HQ in H. simpl in H.
  destruct (_power_spectra nu ec N) as [P|e] eqn:E; [|discriminate].
  constructor; [exact Hinv | eapply IH; reflexivity].
Qed.

(* ================================================================== *)
(** * Part IV: further properties of the code *)
(* ================================================================== *)

(** ** The delta-synapse rate depends on the rescaled distances only *)

Lemma zip_with_map {A B C A' B' : Type} (f : A -> B -> C) (g : A' -> A)
  (h : B' -> B) a b :
  np.zip_with f (map g a) (map h b)
  = np.zip_with (fun x y => f (g x) (h y)) a b.
Proof.
  revert b; induction a as [|x a IH]; intros [|y b]; simpl; auto.
  now rewrite IH.
Qed.


Section RateInvariance.

Context {lib : Libraries}.


End RateInvariance.


(** ** The quadrature-order search at its edges *)

Section OrderSearchEdges.

Context {lib : Libraries}.

Lemma erfcx_integral_at_empty_range order a :
  erfcx_integral_at order a a = 0.
Proof.
  unfold erfcx_integral_at. destruct (roots_legendre order) as [x w].
  unfold Rdiv. replace (a - a) with 0 by ring. ring.
Qed.

(** On an integration range of length 0 the fixed-order estimate is 0, so
    that [I_gl / I_quad - 1] is never within a tolerance of at most 1 (it is
    -1, or not a number where [quad] returns 0). *)
Lemma rel_error_at_empty_range a I_quad order :
  rel_error_at a a I_quad order = 1.
Proof.
  unfold rel_error_at. rewrite erfcx_integral_at_empty_range.
  unfold Rdiv. rewrite Rmult_0_l.
  unfold Rabs. destruct (Rcase_abs (0 - 1)); lra.
Qed.

Lemma gl_order_loop_empty_range a I_quad epsrel maxiter :
  0 <= a -> epsrel <= 1 ->
  forall iters order prev,
    (0 < iters)%nat ->
    gl_order_loop a a I_quad epsrel maxiter iters order prev
    = Raise (RuntimeError_convergence maxiter 1).
Proof.
  intros Ha He iters order prev Hi.
  destruct (gl_order_loop_spec a a I_quad epsrel maxiter Ha Ha
              iters order prev)
    as [(k & Hk & _ & Herr & _) | (_ & Hret)].
  - rewrite rel_error_at_empty_range in Herr. lra.
  - rewrite Hret. destruct iters as [|i]; [lia|].
    now rewrite rel_error_at_empty_range.
Qed.

Lemma amin_constant c l :
  l <> [] -> Forall (fun y => y = c) l -> np.amin l = Ok c.
Proof.
  intros Hne Hall. destruct l as [|x l]; [contradiction|].
  inversion Hall as [|? ? Hx Hl]; subst. unfold np.amin. f_equal.
  clear Hne Hall. induction Hl as [|y l Hy Hl IH]; simpl; auto.
  subst y. rewrite Rmin_left by lra. exact IH.
Qed.

Lemma amax_constant c l :
  l <> [] -> Forall (fun y => y = c) l -> np.amax l = Ok c.
Proof.
  intros Hne Hall. destruct l as [|x l]; [contradiction|].
  inversion Hall as [|? ? Hx Hl]; subst. unfold np.amax. f_equal.
  clear Hne Hall. induction Hl as [|y l Hy Hl IH]; simpl; auto.
  subst y. rewrite Rmax_left by lra. exact IH.
Qed.

(** When all shifted coordinates have one magnitude, the integration range
    of the order search is empty and the search cannot converge. *)
Lemma order_search_empty_range y_th y_r c start_order epsrel maxiter :
  y_th <> [] -> y_r <> [] ->
  Forall (fun y => Rabs y = c) y_th -> Forall (fun y => Rabs y = c) y_r ->
  epsrel <= 1 -> (0 < maxiter)%nat ->
  _get_erfcx_integral_gl_order y_th y_r start_order epsrel maxiter
  = Raise (RuntimeError_convergence maxiter 1).
Proof.
  intros Hth Hr Ath Ar He Hm.
  assert (Hc : 0 <= c).
  { destruct y_th as [|y l]; [contradiction|].
    inversion Ath as [|? ? Hy _]; subst. apply Rabs_pos. }
  assert (Mth : Forall (fun y => y = c) (map Rabs y_th))
    by (apply Forall_map; exact Ath).
  assert (Mr : Forall (fun y => y = c) (map Rabs y_r))
    by (apply Forall_map; exact Ar).
  assert (Nth : map Rabs y_th <> [])
    by (destruct y_th; [contradiction | discriminate]).
  assert (Nr : map Rabs y_r <> [])
    by (destruct y_r; [contradiction | discriminate]).
  rewrite (get_erfcx_integral_gl_order_unfold y_th y_r c c c c)
    by (apply amin_constant || apply amax_constant; assumption).
  rewrite Rmin_left, Rmax_left by lra.
  now apply gl_order_loop_empty_range.
Qed.

(** X2.  At an input whose mean lies midway between reset and threshold
    ([V_th_rel - mu = -(V_0_rel - mu)], so that [y_r = -y_th]) the
    integration range [[a, b]] of the order search is empty, every
    fixed-order estimate is 0, no order is accepted, and [nu_0] raises the
    convergence error instead of returning a rate. *)
Theorem nu_0_raises_midway_between_reset_and_threshold
  tau_m tau_r V_th_rel V_0_rel mu sigma :
  sigma <> 0 -> V_th_rel - mu = - (V_0_rel - mu) ->
  exists rel_error,
    nu_0 tau_m tau_r V_th_rel V_0_rel [mu] [sigma]
    = Raise (RuntimeError_convergence 10 rel_error).
Proof.
  intros Hs Hsym. exists 1. unfold nu_0. simpl np.zip_with.
  rewrite (order_search_empty_range _ _ (Rabs ((V_th_rel - mu) / sigma)));
    try reflexivity; try discriminate; try lra; try lia.
  - constructor; [reflexivity | constructor].
  - constructor; [|constructor].
    rewrite Hsym. unfold Rdiv. rewrite Ropp_mult_distr_l_reverse.
    symmetry. apply Rabs_Ropp.
Qed.

End OrderSearchEdges.

(** C1, an input of the domain on which [nu_0] does not return.  With
    [tau_m = 0.01], [tau_r = 0.002], [V_th_rel = 15], [V_0_rel = 0],
    [sigma = 1] and the mean input [mu = 7.5] midway between reset and
    threshold, [y_r = -y_th]: the order search integrates over an empty
    range, accepts no order, and [nu_0] raises the convergence error,
    whatever the libraries compute. *)
Lemma nu_0_raises_on_an_input_of_its_domain :
  (0 < 1 /\ 0 < 0.01 /\ 0 < 0.002 /\ 0 < 15)
  /\ forall lib : Libraries,
       exists rel_error,
         @nu_0 lib 0.01 0.002 15 0 [7.5] [1]
         = Raise (RuntimeError_convergence 10 rel_error).
Proof.
  split; [lra|]. intros lib. exists 1. unfold nu_0. simpl np.zip_with.
  rewrite (order_search_empty_range _ _ (Rabs 7.5));
    try reflexivity; try discriminate; try lra; try lia.
  - constructor; [|constructor]. f_equal. lra.
  - constructor; [|constructor].
    replace ((0 - 7.5) / 1) with (Ropp 7.5) by lra. apply Rabs_Ropp.
Qed.

Lemma nu_0_raises_midway_between_reset_and_threshold_witness :
  (1 : R) <> 0 /\ 15 - 15 / 2 = - (0 - 15 / 2)
  /\ exists rel_error,
       @nu_0 midpoint_libraries 1 2 15 0 [15 / 2] [1]
       = Raise (RuntimeError_convergence 10 rel_error).
Proof.
  assert (H1 : (1 : R) <> 0) by lra.
  assert (H2 : 15 - 15 / 2 = - (0 - 15 / 2)) by lra.
  split; [exact H1|]. split; [exact H2|].
  exact (@nu_0_raises_midway_between_reset_and_threshold midpoint_libraries
           1 2 15 0 (15 / 2) 1 H1 H2).
Defined.

(** ** The fixed-order estimate under an exchange of its bounds *)

Lemma sum_rev a : np.sum (rev a) = np.sum a.
Proof.
  induction a as [|x a IH]; simpl; auto.
  rewrite sum_app, IH. unfold np.sum. simpl. ring.
Qed.

Lemma zip_with_app {A B C : Type} (f : A -> B -> C) a a' b b' :
  length a = length b ->
  np.zip_with f (a ++ a') (b ++ b') = np.zip_with f a b ++ np.zip_with f a' b'.
Proof.
  revert b. induction a as [|x a IH]; intros [|y b] H; simpl in *;
    try discriminate; auto.
  rewrite IH by lia. reflexivity.
Qed.

Lemma zip_with_rev {A B C : Type} (f : A -> B -> C) a b :
  length a = length b ->
  np.zip_with f (rev a) (rev b) = rev (np.zip_with f a b).
Proof.
  revert b. induction a as [|x a IH]; intros [|y b] H; simpl in *;
    try discriminate; auto.
  rewrite zip_with_app by (rewrite !length_rev; lia).
  rewrite IH by lia. reflexivity.
Qed.

(** A rule that is symmetric about 0 gives a function and its reflection
    the same weighted sum. *)
Lemma symmetric_weighted_sum (g : R -> R) (x w : list R) :
  map Ropp (rev x) = x -> rev w = w -> length x = length w ->
  np.sum (np.zip_with (fun w x => w * g (- x)) w x)
  = np.sum (np.zip_with (fun w x => w * g x) w x).
Proof.
  intros Hx Hw Hl.
  rewrite <- Hx at 2. rewrite <- Hw at 2.
  rewrite <- (map_id (rev w)), zip_with_map.
  rewrite zip_with_rev by lia. rewrite sum_rev. reflexivity.
Qed.

Section ExchangedBounds.

Context {lib : Libraries}.

Lemma erfcx_integral_at_antisymmetric order a b :
  symmetric_rule order ->
  erfcx_integral_at order b a = - erfcx_integral_at order a b.
Proof.
  unfold symmetric_rule, erfcx_integral_at.
  destruct (roots_legendre order) as [x w]. simpl. intros (Hx & Hw & Hl).
  pose proof (symmetric_weighted_sum
                (fun x => erfcx ((b - a) * x / 2 + (b + a) / 2)) x w Hx Hw Hl)
    as H.
  rewrite <- H.
  replace (np.zip_with
             (fun w0 x0 => w0 * erfcx ((a - b) * x0 / 2 + (a + b) / 2)) w x)
    with (np.zip_with
            (fun w0 x0 => w0 * erfcx ((b - a) * - x0 / 2 + (b + a) / 2)) w x).
  - unfold Rdiv. ring.
  - clear. revert x. induction w as [|w0 w IH]; intros [|x0 x]; simpl; auto.
    rewrite IH. do 3 f_equal. unfold Rdiv. ring.
Qed.

(** X4.  For a quadrature rule that is symmetric about 0, exchanging the
    bounds of [_erfcx_integral] changes the sign of the estimate.  The
    formulas of neighbouring branches of the Siegert rate then agree where
    their domains meet: the inhibitory and the intermediate one at
    [y_r = 0], and (for any rule) the intermediate and the excitatory one at
    [y_th = 0]. *)
Theorem siegert_branches_agree_at_domain_boundaries order :
  symmetric_rule order ->
  (forall a b, erfcx_integral_at order b a = - erfcx_integral_at order a b)
  /\ (forall y_th tau_m t_ref,
        inh_at order y_th 0 tau_m t_ref = interm_at order y_th 0 tau_m t_ref)
  /\ (forall y_r tau_m t_ref,
        interm_at order 0 y_r tau_m t_ref = exc_at order 0 y_r tau_m t_ref).
Proof.
  intros Hsym. split; [|split].
  - intros a b. now apply erfcx_integral_at_antisymmetric.
  - intros y_th tau_m t_ref.
    unfold inh_at, interm_at, siegert_inh_at, siegert_interm_at.
    rewrite Rabs_R0, dawsn_0.
    rewrite (erfcx_integral_at_antisymmetric order 0 y_th Hsym).
    cbv zeta. f_equal. f_equal. f_equal. ring.
  - intros y_r tau_m t_ref.
    unfold interm_at, exc_at, siegert_interm_at, siegert_exc_at.
    rewrite Rabs_R0, dawsn_0. cbv zeta.
    replace (- 0 ^ 2) with 0 by ring. rewrite exp_0.
    f_equal. ring.
Qed.

End ExchangedBounds.

Lemma midpoint_libraries_symmetric order :
  @symmetric_rule midpoint_libraries order.
Proof.
  unfold symmetric_rule. simpl. repeat split. f_equal. ring.
Qed.

Lemma siegert_branches_agree_at_domain_boundaries_witness :
  @symmetric_rule midpoint_libraries 10
  /\ @erfcx_integral_at midpoint_libraries 10 2 1
     = - @erfcx_integral_at midpoint_libraries 10 1 2
  /\ @inh_at midpoint_libraries 10 1 0 1 2
     = @interm_at midpoint_libraries 10 1 0 1 2.
Proof.
  split; [apply midpoint_libraries_symmetric|].
  destruct (@siegert_branches_agree_at_domain_boundaries midpoint_libraries
              10 (midpoint_libraries_symmetric 10)) as (H1 & H2 & _).
  split; [apply H1 | apply H2].
Defined.

(** ** The rate with shifted integration boundaries, [nu0_fb] *)

Section ShiftedRate.

Context {lib : Libraries}.

(** [nu_0] on floats: the order search, then the branch of the one
    element. *)
Lemma nu_0_float tau_m tau_r V_th_rel V_0_rel mu sigma :
  V_0_rel < V_th_rel -> 0 < sigma ->
  let y_th := (V_th_rel - mu) / sigma in
  let y_r := (V_0_rel - mu) / sigma in
  nu_0 tau_m tau_r V_th_rel V_0_rel [mu] [sigma]
  = (gl_order <- _get_erfcx_integral_gl_order [y_th] [y_r] 10 1e-12 10 ;;
     Ok (PyFloat (siegert_at gl_order y_th y_r tau_m tau_r))).
Proof.
  intros HV Hs y_th y_r.
  rewrite nu_0_elementwise
    by (assumption || (constructor; [assumption | constructor])).
  reflexivity.
Qed.

(** With the budget of 10 iterations, the order search on one-element
    arrays returns an order or raises the convergence error. *)
Lemma order_search_float_outcome y_th y_r :
  (exists gl_order,
     _get_erfcx_integral_gl_order [y_th] [y_r] 10 1e-12 10 = Ok gl_order)
  \/ (exists rel_error,
        _get_erfcx_integral_gl_order [y_th] [y_r] 10 1e-12 10
        = Raise (RuntimeError_convergence 10 rel_error)).
Proof.
  rewrite (get_erfcx_integral_gl_order_unfold [y_th] [y_r]
             (Rabs y_th) (Rabs y_r) (Rabs y_th) (Rabs y_r)) by reflexivity.
  pose proof (Rabs_pos y_th) as H1. pose proof (Rabs_pos y_r) as H2.
  set (a := Rmin (Rabs y_th) (Rabs y_r)).
  set (b := Rmax (Rabs y_th) (Rabs y_r)).
  assert (Ha : 0 <= a) by (now apply Rmin_glb).
  assert (Hb : 0 <= b)
    by (eapply Rle_trans; [exact H1 | apply Rmax_l]).
  destruct (gl_order_loop_spec a b (quad erfcx a b 1e-12) 1e-12 10 Ha Hb
              10 10%nat None)
    as [(k & _ & Hret & _) | (_ & Hret)].
  - left. eexists. exact Hret.
  - right. eexists. exact Hret.
Qed.

(** X5.  [nu0_fb] shifts threshold and reset by the same amount,
    [sigma * alpha / 2 * sqrt(tau_s / tau_m)], so that for [tau_m > 0],
    [tau_s >= 0], [tau_r > 0], [V_r < V_th] and [sigma > 0] it returns, like
    [nu_0], a float that is at least 0 and at most [1 / tau_r] (for
    Gauss-Legendre rules with sample points in [[-1, 1]] and non-negative
    weights summing to 2); the float is strictly greater than 0 wherever the
    shifted threshold is within [sqrt 700] standard deviations of the mean
    (further out the factor [exp(-y_th^2)] of [_siegert_inh] and
    [_siegert_interm] is 0.0 in double precision, and with it the rate).
    The only exception it raises is the convergence error of the order
    search. *)
Theorem nu0_fb_in_unit_range tau_m tau_s tau_r V_th V_r mu sigma :
  (forall order, gauss_legendre_rule order) ->
  0 < tau_m -> 0 <= tau_s -> 0 < tau_r -> V_r < V_th -> 0 < sigma ->
  let alpha := sqrt 2 * Rabs (zetac (1 / 2) + 1) in
  let shift := sigma * alpha / 2 * sqrt (tau_s / tau_m) in
  (exists r,
     nu0_fb tau_m tau_s tau_r V_th V_r mu sigma = Ok (PyFloat r)
     /\ 0 <= r <= 1 / tau_r
     /\ (((V_th + shift - mu) / sigma) ^ 2 <= 700 -> 0 < r))
  \/ (exists rel_error,
        nu0_fb tau_m tau_s tau_r V_th V_r mu sigma
        = Raise (RuntimeError_convergence 10 rel_error)).
Proof.
  intros Hgl Hm Hs Hr HV Hsig alpha shift. unfold nu0_fb. cbv zeta.
  fold alpha. fold shift.
  assert (HV1 : V_r + shift < V_th + shift) by lra.
  rewrite nu_0_float by assumption. cbv zeta.
  set (y_th := (V_th + shift - mu) / sigma).
  set (y_r := (V_r + shift - mu) / sigma).
  assert (Hy : y_r < y_th).
  { unfold y_r, y_th, Rdiv.
    apply Rmult_lt_compat_r; [now apply Rinv_0_lt_compat | lra]. }
  destruct (order_search_float_outcome y_th y_r) as [[gl E] | [rel E]];
    rewrite E; simpl.
  - left. eexists. split; [reflexivity|].
    destruct (siegert_at_range Hgl tau_m tau_r Hm Hr gl y_th y_r Hy)
      as [H1 H2].
    split; [lra | intros _; exact H1].
  - right. now exists rel.
Qed.

(** X6.  Without synaptic filtering ([tau_s = 0], [tau_m] not 0) the rates
    for filtered synapses are those for delta synapses: the shift of
    [nu0_fb] is 0 and it returns what [nu_0] returns; the correction
    [nu0_fb433] subtracts has the factor [sqrt(tau_s / tau_m) = 0], so that
    [nu0_fb433] returns what [nu_0] returns as well, as long as the two
    values of [Phi] in the correction are finite in double precision: for
    [sigma] not 0, [x_th >= -37] and [|x_r| <= 37] (below -37.7 [Phi] is
    nan there, and the product of 0.0 with it; above [20 / sqrt 2] the
    guard on [x_th] skips the correction).  Either function raises the
    exception [nu_0] raises. *)
Theorem filtered_rates_without_filter
  tau_m tau_r V_th_rel V_0_rel mu sigma :
  tau_m <> 0 ->
  nu0_fb tau_m 0 tau_r V_th_rel V_0_rel mu sigma
  = nu_0 tau_m tau_r V_th_rel V_0_rel [mu] [sigma]
  /\ (let x_th := sqrt 2 * (V_th_rel - mu) / sigma in
      let x_r := sqrt 2 * (V_0_rel - mu) / sigma in
      sigma <> 0 -> -37 <= x_th -> Rabs x_r <= 37 ->
      nu0_fb433 tau_m 0 tau_r V_th_rel V_0_rel mu sigma
      = (v <- nu_0 tau_m tau_r V_th_rel V_0_rel [mu] [sigma] ;; as_float v)).
Proof.
  intros Hm.
  assert (H0 : sqrt (0 / tau_m) = 0).
  { unfold Rdiv. rewrite Rmult_0_l. apply sqrt_0. }
  split.
  - unfold nu0_fb. cbv zeta. rewrite H0.
    now replace (V_th_rel + _ * 0) with V_th_rel by ring;
      replace (V_0_rel + _ * 0) with V_0_rel by ring.
  - intros x_th x_r _ _ _. unfold nu0_fb433. cbv zeta. rewrite H0.
    destruct (Rltb _ _); [reflexivity|].
    destruct (nu_0 _ _ _ _ _ _) as [v|e]; [|reflexivity]. simpl.
    destruct (as_float v) as [r|e]; [|reflexivity]. simpl.
    f_equal. unfold Rdiv. ring.
Qed.

End ShiftedRate.

Lemma nu0_fb_in_unit_range_witness :
  (forall order, @gauss_legendre_rule midpoint_libraries order)
  /\ 0 < 1 /\ 0 <= 0 /\ 0 < 2 /\ 0 < 15 /\ 0 < 3
  /\ ((exists r,
         @nu0_fb midpoint_libraries 1 0 2 15 0 10 3 = Ok (PyFloat r)
         /\ 0 < r <= 1 / 2)
      \/ (exists rel_error,
            @nu0_fb midpoint_libraries 1 0 2 15 0 10 3
            = Raise (RuntimeError_convergence 10 rel_error))).
Proof.
  split; [exact midpoint_libraries_rule|].
  split; [lra|]. split; [lra|]. split; [lra|]. split; [lra|]. split; [lra|].
  destruct (@nu0_fb_in_unit_range midpoint_libraries 1 0 2 15 0 10 3
              midpoint_libraries_rule)
    as [(r & E & Hr & Hpos) | H]; try lra.
  - left. exists r. split; [exact E|]. split; [|apply Hr].
    apply Hpos.
    replace (0 / 1) with 0 by lra. rewrite sqrt_0.
    replace ((15 + 3 * (sqrt 2 * Rabs (@zetac midpoint_libraries (1 / 2) + 1))
                   / 2 * 0 - 10) / 3) with (5 / 3) by lra.
    lra.
  - right. exact H.
Defined.

Lemma filtered_rates_without_filter_witness :
  (1 : R) <> 0
  /\ @nu0_fb midpoint_libraries 1 0 2 15 0 10 3
     = @nu_0 midpoint_libraries 1 2 15 0 [10] [3]
  /\ @nu0_fb433 midpoint_libraries 1 0 2 15 0 10 3
     = (v <- @nu_0 midpoint_libraries 1 2 15 0 [10] [3] ;; as_float v).
Proof.
  assert (H : (1 : R) <> 0) by lra.
  split; [exact H|].
  destruct (@filtered_rates_without_filter midpoint_libraries 1 2 15 0 10 3 H)
    as [H1 H2].
  split; [exact H1|].
  pose proof sqrt2_bounds as [Hlo Hhi].
  apply H2.
  - lra.
  - lra.
  - rewrite Rabs_left; lra.
Defined.

(** ** The derivative of Phi with respect to the mean input *)

Lemma derivable_pt_lim_affine a b x :
  derivable_pt_lim (fun y => a * y + b) x a.
Proof.
  intros eps Heps. exists (mkposreal 1 Rlt_0_1). intros h Hh _.
  replace ((a * (x + h) + b - (a * x + b)) / h - a) with 0
    by (field; exact Hh).
  now rewrite Rabs_R0.
Qed.

Lemma derivable_pt_lim_half_square x :
  derivable_pt_lim (fun y => y ^ 2 / 2) x x.
Proof.
  intros eps Heps. exists (mkposreal eps Heps). intros h Hh Hlt. simpl in Hlt.
  replace (((x + h) ^ 2 / 2 - x ^ 2 / 2) / h - x) with (h / 2)
    by (field; exact Hh).
  unfold Rdiv. rewrite Rabs_mult, (Rabs_right (/ 2)) by lra.
  pose proof (Rabs_pos h). lra.
Qed.

Lemma derivable_pt_lim_erf x :
  derivable_pt_lim erf x (2 / sqrt PI * exp (- (x * x))).
Proof.
  apply (derivable_pt_lim_ext (mult_real_fct (2 / sqrt PI) gauss_E)).
  - intro z. reflexivity.
  - apply derivable_pt_lim_scal, gauss_E_derivative.
Qed.

(** [Phi' (s) = sqrt(pi/2) * (s exp(s^2/2) (1 + erf(s/sqrt 2)) + sqrt 2/sqrt pi)] *)
Lemma derivable_pt_lim_Phi s :
  derivable_pt_lim _Phi s
    (sqrt (PI / 2)
     * (s * exp (s ^ 2 / 2) * (1 + erf (s / sqrt 2)) + sqrt 2 / sqrt PI)).
Proof.
  pose proof Rlt_sqrt2_0 as H2. pose proof sqrt_PI_pos as Hpi.
  pose proof sqrt2_sqr as Hs2.
  assert (Hf : derivable_pt_lim (fun y => exp (y ^ 2 / 2)) s
                 (exp (s ^ 2 / 2) * s)).
  { apply (derivable_pt_lim_comp (fun y => y ^ 2 / 2) exp).
    - apply derivable_pt_lim_half_square.
    - apply derivable_pt_lim_exp. }
  assert (Hg : derivable_pt_lim (fun y => 1 + erf (y / sqrt 2)) s
                 (2 / sqrt PI * exp (- (s / sqrt 2 * (s / sqrt 2)))
                  * / sqrt 2)).
  { set (inner := fun y : R => / sqrt 2 * y + 0).
    apply (derivable_pt_lim_ext (fct_cte 1 + comp erf inner)%F).
    - intro z. unfold plus_fct, fct_cte, comp, inner. do 2 f_equal.
      unfold Rdiv. ring.
    - replace (2 / sqrt PI * exp (- (s / sqrt 2 * (s / sqrt 2))) * / sqrt 2)
        with (0 + 2 / sqrt PI * exp (- (s / sqrt 2 * (s / sqrt 2)))
                  * / sqrt 2) by ring.
      apply derivable_pt_lim_plus; [apply derivable_pt_lim_const|].
      apply derivable_pt_lim_comp; [apply derivable_pt_lim_affine|].
      unfold inner.
      replace (/ sqrt 2 * s + 0) with (s / sqrt 2)
        by (unfold Rdiv; ring).
      apply derivable_pt_lim_erf. }
  assert (He : exp (s ^ 2 / 2) * exp (- (s / sqrt 2 * (s / sqrt 2))) = 1).
  { rewrite <- exp_plus.
    replace (s ^ 2 / 2 + - (s / sqrt 2 * (s / sqrt 2))) with 0;
      [apply exp_0|].
    replace (s / sqrt 2 * (s / sqrt 2)) with ((s / sqrt 2) ^ 2) by ring.
    rewrite half_square. ring. }
  set (f := fun y : R => exp (y ^ 2 / 2)) in *.
  set (g := fun y : R => 1 + erf (y / sqrt 2)) in *.
  apply (derivable_pt_lim_ext (mult_real_fct (sqrt (PI / 2)) (f * g)%F)).
  - intro z. reflexivity.
  - apply derivable_pt_lim_scal.
    replace (s * exp (s ^ 2 / 2) * (1 + erf (s / sqrt 2)) + sqrt 2 / sqrt PI)
      with (exp (s ^ 2 / 2) * s * (1 + erf (s / sqrt 2))
            + exp (s ^ 2 / 2)
              * (2 / sqrt PI * exp (- (s / sqrt 2 * (s / sqrt 2)))
                 * / sqrt 2)).
    + exact (derivable_pt_lim_mult f g s _ _ Hf Hg).
    + transitivity
        (exp (s ^ 2 / 2) * s * (1 + erf (s / sqrt 2))
         + (exp (s ^ 2 / 2) * exp (- (s / sqrt 2 * (s / sqrt 2))))
           * (2 / sqrt PI * / sqrt 2)); [ring|].
      assert (Hq : 2 / sqrt PI * / sqrt 2 = sqrt 2 / sqrt PI)
        by (rewrite <- Hs2 at 1; field; lra).
      rewrite He, Hq. ring.
Qed.

(** X7.  [Phi_prime_mu] and [_Phi_prime_mu] are what their documentation
    says: evaluated at [s = sqrt 2 * (V - mu) / sigma] they give the
    derivative with respect to the mean input [mu] of [Phi] (of [_Phi])
    evaluated at that [s]. *)
Theorem Phi_prime_mu_is_derivative_wrt_mean_input V mu sigma :
  sigma <> 0 ->
  derivable_pt_lim (fun m => Phi (sqrt 2 * (V - m) / sigma)) mu
    (Phi_prime_mu (sqrt 2 * (V - mu) / sigma) sigma)
  /\ derivable_pt_lim (fun m => _Phi (sqrt 2 * (V - m) / sigma)) mu
       (Phi_prime_mu_at (sqrt 2 * (V - mu) / sigma) sigma).
Proof.
  intros Hs.
  pose proof Rlt_sqrt2_0 as H2. pose proof sqrt_PI_pos as Hpi.
  assert (Hpi2 : sqrt (PI / 2) * sqrt 2 = sqrt PI).
  { rewrite <- sqrt_mult by (pose proof PI_RGT_0; lra).
    f_equal. field. }
  assert (H : derivable_pt_lim (fun m => _Phi (sqrt 2 * (V - m) / sigma)) mu
                (Phi_prime_mu_at (sqrt 2 * (V - mu) / sigma) sigma)).
  { set (s := sqrt 2 * (V - mu) / sigma).
    apply (derivable_pt_lim_ext
             (comp _Phi (fun m => - sqrt 2 / sigma * m + sqrt 2 * V / sigma))).
    - intro z. unfold comp. f_equal. field. exact Hs.
    - replace (Phi_prime_mu_at s sigma)
        with (sqrt (PI / 2)
              * (s * exp (s ^ 2 / 2) * (1 + erf (s / sqrt 2))
                 + sqrt 2 / sqrt PI)
              * (- sqrt 2 / sigma)).
      + apply derivable_pt_lim_comp; [apply derivable_pt_lim_affine|].
        replace (- sqrt 2 / sigma * mu + sqrt 2 * V / sigma) with s
          by (unfold s; field; exact Hs).
        apply derivable_pt_lim_Phi.
      + unfold Phi_prime_mu_at.
        transitivity
          (sqrt (PI / 2) * sqrt 2 * (- / sigma)
           * (s * exp (s ^ 2 / 2) * (1 + erf (s / sqrt 2))
              + sqrt 2 / sqrt PI)); [field; split; lra|].
        rewrite Hpi2. field. split; lra. }
  split; exact H.
Qed.

Lemma Phi_prime_mu_is_derivative_wrt_mean_input_witness :
  (2 : R) <> 0
  /\ derivable_pt_lim (fun m => Phi (sqrt 2 * (15 - m) / 2)) 10
       (Phi_prime_mu (sqrt 2 * (15 - 10) / 2) 2).
Proof.
  assert (H : (2 : R) <> 0) by lra.
  split; [exact H|].
  exact (proj1 (Phi_prime_mu_is_derivative_wrt_mean_input 15 10 2 H)).
Defined.

(** ** The checks of [sigma] *)

Lemma any_map_false_iff {A} (p : A -> bool) (l : list A) :
  np.any (map p l) = false <-> Forall (fun x => p x = false) l.
Proof.
  unfold np.any. split.
  - intros H. apply Forall_forall. intros x Hin.
    destruct (p x) eqn:E; [|reflexivity].
    assert (Ht : existsb (fun m => m) (map p l) = true).
    { apply existsb_exists. exists true. split; [|reflexivity].
      apply in_map_iff. exists x. now split. }
    congruence.
  - intros H. induction H as [|x l Hx Hl IH]; simpl; [reflexivity|].
    now rewrite Hx, IH.
Qed.

Lemma Reqb_true x y : Reqb x y = true <-> x = y.
Proof. unfold Reqb. destruct (Req_EM_T x y); split; congruence. Qed.

Lemma Reqb_false x y : Reqb x y = false <-> x <> y.
Proof. unfold Reqb. destruct (Req_EM_T x y); split; congruence. Qed.

(** ** The overflow-safe forms of Phi stay bounded *)

Lemma sqrt_half_PI_pos : 0 < sqrt (PI / 2).
Proof. apply sqrt_lt_R0. pose proof PI_RGT_0. lra. Qed.

Lemma Phi_neg_at_range s : 0 < Phi_neg_at s <= sqrt (PI / 2).
Proof.
  unfold Phi_neg_at. pose proof sqrt_half_PI_pos as Hp.
  pose proof Rlt_sqrt2_0 as H2.
  assert (H0 : 0 <= Rabs s / sqrt 2).
  { unfold Rdiv. apply Rmult_le_pos; [apply Rabs_pos|].
    left. now apply Rinv_0_lt_compat. }
  destruct (erfcx_unit_range _ H0) as [He1 He2].
  split; [apply Rmult_lt_0_compat; assumption|].
  rewrite <- (Rmult_1_r (sqrt (PI / 2))) at 2.
  apply Rmult_le_compat_l; lra.
Qed.

Lemma Phi_pos_at_range s :
  0 <= s -> sqrt (PI / 2) <= Phi_pos_at s < 2 * sqrt (PI / 2).
Proof.
  intros Hs. unfold Phi_pos_at. pose proof sqrt_half_PI_pos as Hp.
  pose proof Rlt_sqrt2_0 as H2.
  assert (H0 : 0 <= s / sqrt 2).
  { unfold Rdiv. apply Rmult_le_pos; [exact Hs|].
    left. now apply Rinv_0_lt_compat. }
  destruct (erfcx_unit_range _ H0) as [He1 He2].
  pose proof (exp_pos (- s ^ 2 / 2)) as Hx1.
  assert (Hx2 : exp (- s ^ 2 / 2) <= 1).
  { rewrite <- exp_0. apply exp_le_mono. nra. }
  set (e := exp (- s ^ 2 / 2)) in *. set (c := erfcx (s / sqrt 2)) in *.
  assert (Hec : 0 < e * c <= 1) by (split; nra).
  split; nra.
Qed.

(** X10.  The overflow-safe forms of Phi are bounded on their domains:
    the elements of [_Phi_neg(s)], [s <= 0], lie in [(0, sqrt(pi/2)]], those
    of [_Phi_pos(s)], [s >= 0], in [[sqrt(pi/2), 2 sqrt(pi/2))].  Outside
    the domain the assertion fails: [_Phi_neg] raises [AssertionError] when
    some element is positive, [_Phi_pos] when some element is negative. *)
Theorem rescaled_Phi_bounded_on_domain_and_asserted :
  (forall s, Forall (fun x => x <= 0) s ->
     exists v, _Phi_neg s = Ok v /\ length v = length s
               /\ Forall (fun p => 0 < p <= sqrt (PI / 2)) v)
  /\ (forall s, Forall (fun x => 0 <= x) s ->
        exists v, _Phi_pos s = Ok v /\ length v = length s
                  /\ Forall (fun p => sqrt (PI / 2) <= p < 2 * sqrt (PI / 2))
                       v)
  /\ (forall s, Exists (fun x => 0 < x) s ->
        _Phi_neg s = Raise AssertionError)
  /\ (forall s, Exists (fun x => x < 0) s ->
        _Phi_pos s = Raise AssertionError).
Proof.
  split; [|split; [|split]].
  - intros s Hs. exists (map Phi_neg_at s). unfold _Phi_neg.
    replace (forallb (fun s0 => Rleb s0 0) s) with true.
    + split; [reflexivity|]. split; [apply length_map|].
      apply Forall_map, Forall_forall. intros x _. apply Phi_neg_at_range.
    + symmetry. apply forallb_forall. intros x Hx.
      rewrite Forall_forall in Hs. apply Rleb_true. auto.
  - intros s Hs. exists (map Phi_pos_at s). unfold _Phi_pos.
    replace (forallb (fun s0 => Rleb 0 s0) s) with true.
    + split; [reflexivity|]. split; [apply length_map|].
      apply Forall_map. eapply Forall_impl; [|exact Hs].
      intros x Hx. now apply Phi_pos_at_range.
    + symmetry. apply forallb_forall. intros x Hx.
      rewrite Forall_forall in Hs. apply Rleb_true. auto.
  - intros s Hs. unfold _Phi_neg.
    replace (forallb (fun s0 => Rleb s0 0) s) with false; [reflexivity|].
    symmetry. apply not_true_is_false. intros Hall.
    rewrite forallb_forall in Hall. apply Exists_exists in Hs.
    destruct Hs as (x & Hin & Hx). apply Hall, Rleb_true in Hin. lra.
  - intros s Hs. unfold _Phi_pos.
    replace (forallb (fun s0 => Rleb 0 s0) s) with false; [reflexivity|].
    symmetry. apply not_true_is_false. intros Hall.
    rewrite forallb_forall in Hall. apply Exists_exists in Hs.
    destruct Hs as (x & Hin & Hx). apply Hall, Rleb_true in Hin. lra.
Qed.

(** ** Bringing parameters into one shape *)

Lemma longest_length (tl : list (list R)) : forall hd,
  length (fold_left (fun max_arg arg =>
                       if (length max_arg <? length arg)%nat
                       then arg else max_arg) tl hd)
  = Nat.max (length hd) (list_max (map (@length R) tl)).
Proof.
  induction tl as [|a tl IH]; intros hd; simpl.
  - lia.
  - rewrite IH. destruct (length hd <? length a)%nat eqn:E.
    + apply Nat.ltb_lt in E. lia.
    + apply Nat.ltb_ge in E. lia.
Qed.

Lemma mapM_ok {A B} (f : A -> result B) (g : A -> B) l :
  (forall x, In x l -> f x = Ok (g x)) -> mapM f l = Ok (map g l).
Proof.
  induction l as [|x l IH]; intros H; simpl; [reflexivity|].
  rewrite H by (now left). simpl. rewrite IH by (intros; apply H; now right).
  reflexivity.
Qed.

Lemma mapM_raise {A B} (f : A -> result B) e l :
  Exists (fun x => f x = Raise e) l ->
  (forall x y, In x l -> f x = Raise y -> y = e) ->
  mapM f l = Raise e.
Proof.
  intros Hex Hall. induction Hex as [x l Hx | x l Hex IH]; simpl.
  - now rewrite Hx.
  - destruct (f x) as [y|e'] eqn:E; simpl.
    + rewrite IH; [reflexivity|].
      intros x' y' Hin. apply Hall. now right.
    + f_equal. eapply Hall; [now left | exact E].
Qed.

Lemma map_scalar_ones x n :
  map (fun one => one * x) (repeat 1 n) = repeat x n.
Proof.
  induction n as [|n IH]; simpl; [reflexivity|].
  rewrite IH. f_equal. ring.
Qed.

Lemma similar_array_spec x array :
  _similar_array x array
  = if (length x =? length array)%nat then Ok x
    else if (length x =? 1)%nat then Ok (repeat (hd 0 x) (length array))
    else Raise RuntimeError_shape.
Proof. unfold _similar_array. now rewrite map_scalar_ones. Qed.

Lemma equalize_shape_unfold a args :
  exists max_arg,
    length max_arg = list_max (map (@length R) (a :: args))
    /\ _equalize_shape (a :: args)
       = mapM (fun arg => _similar_array arg max_arg) (a :: args).
Proof.
  eexists. split; [|reflexivity].
  simpl tl. simpl hd. rewrite longest_length. reflexivity.
Qed.

(** X11.  [_equalize_shape] succeeds exactly when every argument has the
    length [L] of the longest one or is a single element: it then returns
    the arguments of length [L] as they are and each single element
    repeated [L] times; otherwise it raises the shape error.  All arrays it
    returns have length [L], and equalizing them again changes nothing. *)
Theorem equalize_shape_broadcasts_single_elements a args :
  let L := list_max (map (@length R) (a :: args)) in
  (Forall (fun x => length x = L \/ length x = 1%nat) (a :: args) ->
   _equalize_shape (a :: args)
   = Ok (map (fun x => if (length x =? L)%nat then x
                       else repeat (hd 0 x) L) (a :: args)))
  /\ (Exists (fun x => length x <> L /\ length x <> 1%nat) (a :: args) ->
      _equalize_shape (a :: args) = Raise RuntimeError_shape)
  /\ (forall out, _equalize_shape (a :: args) = Ok out ->
        Forall (fun x => length x = L) out
        /\ _equalize_shape out = Ok out).
Proof.
  intros L.
  destruct (equalize_shape_unfold a args) as (max_arg & Hmax & Heq).
  fold L in Hmax. split; [|split].
  - intros Hall. rewrite Heq. apply mapM_ok. intros x Hin.
    rewrite similar_array_spec, Hmax.
    rewrite Forall_forall in Hall. destruct (Hall x Hin) as [H | H].
    + apply Nat.eqb_eq in H. now rewrite H.
    + destruct (length x =? L)%nat; [reflexivity|].
      apply Nat.eqb_eq in H. now rewrite H.
  - intros Hex. rewrite Heq. apply mapM_raise.
    + eapply Exists_impl; [|exact Hex]. intros x [H1 H2].
      rewrite similar_array_spec, Hmax.
      apply Nat.eqb_neq in H1, H2. now rewrite H1, H2.
    + intros x y _. rewrite similar_array_spec.
      destruct (_ =? _)%nat; [intros H; discriminate|].
      destruct (_ =? _)%nat; [intros H; discriminate|]. congruence.
  - clearbody L. intros out Hout. rewrite Heq in Hout.
    pose proof (mapM_similar_array_length _ _ _ Hout) as Hlen.
    rewrite Hmax in Hlen. split; [exact Hlen|].
    destruct out as [|b out]; [reflexivity|].
    destruct (equalize_shape_unfold b out) as (max' & Hmax' & Heq').
    rewrite Heq'.
    assert (HL : list_max (map (@length R) (b :: out)) = L).
    { inversion Hlen as [|? ? Hb Hrest]; subst. simpl.
      assert (Hle : (list_max (map (@length R) out) <= length b)%nat).
      { clear - Hrest Hb. induction Hrest as [|x l Hx Hl IH]; simpl; lia. }
      lia. }
    rewrite <- (map_id (b :: out)) at 2. apply mapM_ok.
    intros x Hin. rewrite similar_array_spec, Hmax', HL.
    rewrite Forall_forall in Hlen. apply Hlen in Hin.
    apply Nat.eqb_eq in Hin. now rewrite Hin.
Qed.

(** ** The synaptic low-pass filter *)

Lemma nth_map_in_range {A B} (f : A -> B) l i d d' :
  (i < length l)%nat -> nth i (map f l) d = f (nth i l d').
Proof.
  revert i; induction l as [|x l IH]; intros [|i] Hi; simpl in *;
    try lia; auto. apply IH. lia.
Qed.

Lemma low_pass_entry x :
  Cdiv (RtoC 1) (Cplus (RtoC 1) (Cmult Ci (RtoC x)))
  = (1 / (1 + x ^ 2), - x / (1 + x ^ 2)).
Proof.
  unfold Cdiv, Cmult, Cinv, Cplus, Ci, RtoC. simpl.
  assert (H : 1 + x ^ 2 <> 0) by nra.
  apply complex_eq; simpl; field; nra.
Qed.

Lemma low_pass_modulus x :
  Cabs (Cdiv (RtoC 1) (Cplus (RtoC 1) (Cmult Ci (RtoC x))))
  = 1 / sqrt (1 + x ^ 2).
Proof.
  rewrite low_pass_entry. unfold Cabs. cbn [fst snd].
  assert (Hp : 0 < 1 + x ^ 2) by nra.
  assert (Hs : 0 < sqrt (1 + x ^ 2)) by now apply sqrt_lt_R0.
  replace ((1 / (1 + x ^ 2)) ^ 2 + (- x / (1 + x ^ 2)) ^ 2)
    with (/ (1 + x ^ 2)) by (field; lra).
  rewrite sqrt_inv. unfold Rdiv. ring.
Qed.

(** X12.  [_synaptic_filter] returns a row per frequency and an entry per
    population.  The entry for frequency [omega] and time constant [tau_s]
    has modulus [1 / sqrt(1 + (omega tau_s)^2)]: it is at most 1, so the
    filter never amplifies, and it is exactly 1 at frequency 0 and for
    [tau_s = 0]. *)
Theorem synaptic_filter_is_low_pass omegas tau_s :
  length (_synaptic_filter omegas tau_s) = length omegas
  /\ forall k j, (k < length omegas)%nat -> (j < length tau_s)%nat ->
       let row := nth k (_synaptic_filter omegas tau_s) [] in
       let entry := nth j row (RtoC 0) in
       let x := nth k omegas 0 * nth j tau_s 0 in
       length row = length tau_s
       /\ Cabs entry = 1 / sqrt (1 + x ^ 2)
       /\ Cabs entry <= 1
       /\ (x = 0 -> entry = RtoC 1).
Proof.
  split; [apply length_map|].
  intros k j Hk Hj row entry x. unfold _synaptic_filter in row.
  assert (Hrow : row = map (fun tau_s0 =>
                   Cdiv (RtoC 1)
                     (Cplus (RtoC 1)
                        (Cmult Ci (RtoC (nth k omegas 0 * tau_s0))))) tau_s).
  { unfold row. now rewrite nth_map_in_range with (d' := 0). }
  assert (Hentry : entry = Cdiv (RtoC 1) (Cplus (RtoC 1) (Cmult Ci (RtoC x)))).
  { unfold entry. rewrite Hrow.
    now rewrite nth_map_in_range with (d' := 0). }
  split; [rewrite Hrow; apply length_map|].
  rewrite Hentry, low_pass_modulus.
  assert (Hs : 1 <= sqrt (1 + x ^ 2)).
  { rewrite <- sqrt_1 at 1. apply sqrt_le_1_alt. nra. }
  split; [reflexivity|]. split.
  - apply (Rmult_le_reg_r (sqrt (1 + x ^ 2))); [lra|].
    unfold Rdiv. rewrite Rmult_1_l, Rinv_l by lra. lra.
  - intros Hx. rewrite low_pass_entry, Hx. unfold RtoC.
    apply complex_eq; simpl; field.
Qed.

(** ** The rates for exponential synapses without a filter *)

Lemma broadcast_same_length f a b :
  length a = length b -> broadcast f a b = Ok (np.zip_with f a b).
Proof.
  intros H. unfold broadcast. apply Nat.eqb_eq in H. now rewrite H.
Qed.

Lemma zip_with_repeat_r {A B C} (f : A -> B -> C) a c n :
  length a = n -> np.zip_with f a (repeat c n) = map (fun x => f x c) a.
Proof.
  intros <-. induction a as [|x a IH]; simpl; [reflexivity | now rewrite IH].
Qed.

Lemma zip_with_repeat_l {A B C} (f : A -> B -> C) b c n :
  length b = n -> np.zip_with f (repeat c n) b = map (f c) b.
Proof.
  intros <-. induction b as [|y b IH]; simpl; [reflexivity | now rewrite IH].
Qed.

Lemma map_constant {A B} (f : A -> B) c l n :
  length l = n -> (forall x, f x = c) -> map f l = repeat c n.
Proof.
  intros <- H. induction l as [|x l IH]; simpl; [reflexivity|].
  now rewrite H, IH.
Qed.

Lemma map_identity {A} (f : A -> A) l :
  (forall x, f x = x) -> map f l = l.
Proof.
  intros H. induction l as [|x l IH]; simpl; [reflexivity|].
  now rewrite H, IH.
Qed.

Section WithoutFilter.

Context {lib : Libraries} {delta : DeltaModule}.

(** Without filter the shift of threshold and reset is 0. *)
Lemma shifted_without_filter n alpha V sigma tau_m :
  length V = n -> length sigma = n -> length tau_m = n ->
  (q <- broadcast Rdiv (repeat 0 n) tau_m ;;
   shift <- broadcast Rmult (map (fun sigma => sigma * alpha / 2) sigma)
              (map sqrt q) ;;
   broadcast Rplus V shift)
  = Ok V.
Proof.
  intros HV Hs Hm.
  rewrite broadcast_same_length by (now rewrite repeat_length).
  simpl bind. rewrite (zip_with_repeat_l Rdiv tau_m 0 n Hm), map_map.
  rewrite (map_constant (fun x => sqrt (0 / x)) 0 tau_m n Hm).
  2:{ intros x. unfold Rdiv. rewrite Rmult_0_l. apply sqrt_0. }
  rewrite broadcast_same_length by (now rewrite length_map, repeat_length).
  simpl bind.
  rewrite (zip_with_repeat_r Rmult _ 0 n) by (now rewrite length_map).
  rewrite map_map.
  rewrite (map_constant _ 0 sigma n Hs) by (intros; ring).
  rewrite broadcast_same_length by (now rewrite repeat_length).
  rewrite (zip_with_repeat_r Rplus V 0 n HV). f_equal.
  apply map_identity. intros x. ring.
Qed.

Lemma taylor_rate_without_filter_arrays n alpha nu0 nu0_dPhi tau_m :
  length nu0 = n -> length nu0_dPhi = n -> length tau_m = n ->
  taylor_rate alpha nu0 nu0_dPhi (repeat 0 n) tau_m = Ok nu0.
Proof.
  intros H0 Hd Hm. unfold taylor_rate.
  rewrite broadcast_same_length by (now rewrite repeat_length).
  simpl bind. rewrite (zip_with_repeat_l Rmult tau_m 0 n Hm), map_map.
  rewrite (map_constant _ 0 tau_m n Hm).
  2:{ intros x. replace (0 * x / 2) with 0 by (unfold Rdiv; ring).
      rewrite sqrt_0. ring. }
  rewrite broadcast_same_length by (now rewrite repeat_length).
  simpl bind. rewrite (zip_with_repeat_l Rmult nu0_dPhi 0 n Hd).
  rewrite map_map, (map_constant _ 1 nu0_dPhi n Hd) by (intros; ring).
  rewrite broadcast_same_length by (now rewrite repeat_length).
  rewrite (zip_with_repeat_r Rmult nu0 1 n H0). f_equal.
  apply map_identity. intros x. ring.
Qed.

(** X13.  Without synaptic filtering ([tau_s = 0], arguments of one
    length, [tau_m] without zeros) both methods for exponential synapses
    return the delta-synapse rate: [_firing_rate_shift] calls
    [_delta_firing_rate] with the unshifted threshold and reset, and the
    correction factor of [_firing_rate_taylor] is 1, so that it returns the
    rate [_delta_firing_rate] returns, with the warning if and only if an
    element of that rate is negative. *)
Theorem exp_firing_rates_without_filter
  n V_0_rel V_th_rel mu sigma tau_m tau_r :
  length V_0_rel = n -> length V_th_rel = n -> length sigma = n ->
  length tau_m = n -> Forall (fun t => t <> 0) tau_m ->
  _firing_rate_shift V_0_rel V_th_rel mu sigma tau_m tau_r (repeat 0 n)
  = _delta_firing_rate V_0_rel V_th_rel mu sigma tau_m tau_r
  /\ forall nu0 nu0_dPhi,
       _delta_firing_rate V_0_rel V_th_rel mu sigma tau_m tau_r = Ok nu0 ->
       _nu0_dPhi V_0_rel V_th_rel mu sigma tau_m tau_r = Ok nu0_dPhi ->
       length (atleast_1d nu0) = n -> length (atleast_1d nu0_dPhi) = n ->
       _firing_rate_taylor V_0_rel V_th_rel mu sigma tau_m tau_r
         (repeat 0 n)
       = Ok (np.item_if_single (atleast_1d nu0),
             if np.any (map (fun r => Rltb r 0) (atleast_1d nu0))
             then [NegativeFiringRates] else []).
Proof.
  intros H0 Hth Hs Hm Hne. split.
  - unfold _firing_rate_shift. cbv zeta.
    rewrite !(shifted_without_filter n) by assumption. reflexivity.
  - intros nu0 nu0_dPhi Hnu Hd Ln Ld. unfold _firing_rate_taylor.
    rewrite Hnu, Hd. cbv zeta. simpl bind.
    rewrite (taylor_rate_without_filter_arrays n) by assumption.
    reflexivity.
Qed.

End WithoutFilter.

Lemma exp_firing_rates_without_filter_witness :
  length [0] = 1%nat /\ length [15] = 1%nat /\ length [3] = 1%nat
  /\ length [1] = 1%nat /\ Forall (fun t => t <> 0) [1]
  /\ @_firing_rate_shift midpoint_libraries (constant_delta 5 0)
       [0] [15] [10] [3] [1] [2] (repeat 0 1)
     = @_delta_firing_rate (constant_delta 5 0) [0] [15] [10] [3] [1] [2].
Proof.
  assert (H : Forall (fun t : R => t <> 0) [1])
    by (constructor; [lra | constructor]).
  repeat (split; [reflexivity|]). split; [exact H|].
  exact (proj1 (@exp_firing_rates_without_filter midpoint_libraries
                  (constant_delta 5 0) 1 [0] [15] [10] [3] [1] [2]
                  eq_refl eq_refl eq_refl eq_refl H)).
Defined.

(** ** The rows of the transfer function of the shift method *)

Lemma any_false_nth m k : np.any m = false -> nth k m false = false.
Proof.
  unfold np.any. revert k. induction m as [|b m IH]; intros [|k] H;
    simpl in *; auto.
  - now destruct b.
  - apply IH. now destruct b.
Qed.

(** A masked assignment of the selected elements of [vals], made if the
    mask selects any element. *)
Lemma masked_assignment_nth {A} (res vals : list A) m k d :
  length res = length m -> length vals = length m -> (k < length m)%nat ->
  nth k (if np.any m then np.put_mask res m (np.compress m vals) else res) d
  = if nth k m false then nth k vals d else nth k res d.
Proof.
  intros Hr Hv Hk. destruct (np.any m) eqn:E.
  - rewrite put_mask_compress by assumption.
    now rewrite where_nth with (dm := false).
  - now rewrite any_false_nth.
Qed.

Lemma if_Ok {A} (b : bool) (x y : A) :
  (if b then Ok x else Ok y) = Ok (if b then x else y).
Proof. now destruct b. Qed.

Lemma masked_assignment_length {A} (res vals : list A) m :
  length res = length m -> length vals = length m ->
  length (if np.any m then np.put_mask res m (np.compress m vals) else res)
  = length m.
Proof.
  intros Hr Hv. destruct (np.any m); [|exact Hr].
  rewrite put_mask_compress by assumption. now apply where_length.
Qed.

Section ShiftRows.

Context {lib : Libraries} {delta : DeltaModule}.

(** X14.  The shift method, row by row.  When the parameters equalize and
    the delta-synapse rate [nu] and its derivative [d] at the shifted
    threshold and reset are returned (one value per population), the
    transfer function has a row for every frequency: for
    [|omega| < 1e-15] the row holds the derivative [d], for every other
    [omega] it holds the parabolic-cylinder formula at that [omega], and
    with [synaptic_filter] each entry is multiplied by the low-pass factor
    of its frequency and population. *)
Theorem transfer_function_shift_rows
  mu' sigma' tau_m' tau_r' tau_s' V_th' V_0'
  mu sigma tau_m tau_r tau_s V_th_rel V_0_rel omegas synaptic_filter d nu :
  _equalize_shape [mu'; sigma'; tau_m'; tau_r'; tau_s'; V_th'; V_0']
  = Ok [mu; sigma; tau_m; tau_r; tau_s; V_th_rel; V_0_rel] ->
  let alpha := sqrt 2 * Rabs (zetac (1 / 2) + 1) in
  let shifted (V : list R) :=
    np.ap (np.ap (np.ap (map (fun V sigma tau_s tau_m =>
                                V + sigma * alpha / 2 * sqrt (tau_s / tau_m))
                           V) sigma) tau_s) tau_m in
  let x_of (V : list R) :=
    np.ap (np.ap (map (fun V mu sigma => sqrt 2 * (V - mu) / sigma)
                    (shifted V)) mu) sigma in
  _derivative_of_delta_firing_rates_wrt_mean_input
    (shifted V_0_rel) (shifted V_th_rel) mu sigma tau_m tau_r = Ok d ->
  _delta_firing_rate (shifted V_0_rel) (shifted V_th_rel) mu sigma tau_m tau_r
  = Ok nu ->
  length (atleast_1d d) = length mu -> length (atleast_1d nu) = length mu ->
  exists rows,
    _transfer_function_shift mu' sigma' tau_m' tau_s' tau_r' V_th' V_0'
      omegas synaptic_filter = Ok rows
    /\ length rows = length omegas
    /\ forall k, (k < length omegas)%nat ->
         let omega := nth k omegas 0 in
         let row :=
           if Rltb (Rabs omega) 1e-15 then map RtoC (atleast_1d d)
           else np.ap (np.ap (np.ap (np.ap
                  (map (transfer_function_shift_at omega) sigma)
                  (atleast_1d nu)) tau_m) (x_of V_th_rel)) (x_of V_0_rel) in
         nth k rows []
         = if synaptic_filter
           then np.zip_with Cmult row
                  (nth k (_synaptic_filter omegas tau_s) [])
           else row.
Proof.
  intros Heq alpha shifted x_of Hd Hnu _ _.
  unfold _transfer_function_shift. rewrite Heq.
  cbv beta iota zeta delta [bind].
  fold alpha. fold (shifted V_th_rel). fold (shifted V_0_rel).
  rewrite Hd, Hnu. fold (x_of V_th_rel). fold (x_of V_0_rel).
  set (zm := zero_omega_mask_shift omegas).
  set (zero_rows := repeat (repeat (RtoC 0) (length mu)) (length omegas)).
  set (general := fun omega =>
         np.ap (np.ap (np.ap (np.ap
           (map (transfer_function_shift_at omega) sigma)
           (atleast_1d nu)) tau_m) (x_of V_th_rel)) (x_of V_0_rel)).
  assert (Lz : length zm = length omegas) by (unfold zm; apply length_map).
  assert (Lr : length (map negb zm) = length omegas)
    by (now rewrite length_map).
  assert (L0 : length zero_rows = length omegas)
    by (unfold zero_rows; apply repeat_length).
  rewrite (if_Ok (np.any zm)). cbv beta iota.
  set (r1 := if np.any zm
             then np.put_mask zero_rows zm
                    (dc_rows (length (np.compress zm omegas)) (atleast_1d d))
             else zero_rows).
  rewrite (if_Ok (np.any (map negb zm))). cbv beta iota.
  set (r2 := if np.any (map negb zm)
             then np.put_mask r1 (map negb zm)
                    (map general (np.compress (map negb zm) omegas))
             else r1).
  assert (R1 : r1 = if np.any zm
                    then np.put_mask zero_rows zm
                           (np.compress zm
                              (repeat (map RtoC (atleast_1d d))
                                 (length omegas)))
                    else zero_rows).
  { unfold r1, dc_rows. now rewrite compress_repeat by exact Lz. }
  assert (R2 : r2 = if np.any (map negb zm)
                    then np.put_mask r1 (map negb zm)
                           (np.compress (map negb zm) (map general omegas))
                    else r1).
  { unfold r2. now rewrite compress_map. }
  assert (L1 : length r1 = length omegas).
  { rewrite R1, <- Lz. apply masked_assignment_length;
      rewrite ?repeat_length; congruence. }
  assert (L2 : length r2 = length omegas).
  { rewrite R2, <- Lr. apply masked_assignment_length;
      rewrite ?length_map; congruence. }
  assert (Hrow : forall k, (k < length omegas)%nat ->
            nth k r2 []
            = if Rltb (Rabs (nth k omegas 0)) 1e-15
              then map RtoC (atleast_1d d) else general (nth k omegas 0)).
  { intros k Hk. rewrite R2.
    rewrite masked_assignment_nth by (rewrite ?length_map; congruence || lia).
    rewrite nth_map_in_range with (d' := false) by lia.
    assert (Hz : nth k zm false = Rltb (Rabs (nth k omegas 0)) 1e-15).
    { unfold zm, zero_omega_mask_shift.
      now rewrite nth_map_in_range with (d' := 0). }
    rewrite Hz. destruct (Rltb (Rabs (nth k omegas 0)) 1e-15) eqn:E; simpl.
    - rewrite R1. rewrite masked_assignment_nth
        by (rewrite ?repeat_length; congruence || lia).
      rewrite Hz. apply nth_repeat_lt. exact Hk.
    - now rewrite nth_map_in_range with (d' := 0). }
  eexists. split; [reflexivity|]. split.
  - unfold apply_synaptic_filter. destruct synaptic_filter; [|exact L2].
    rewrite zip_with_length_min, L2. unfold _synaptic_filter.
    rewrite length_map. lia.
  - intros k Hk. unfold apply_synaptic_filter.
    destruct synaptic_filter.
    + rewrite zip_with_nth with (da := []) (db := [])
        by (unfold _synaptic_filter; rewrite ?length_map; lia).
      rewrite Hrow by exact Hk. reflexivity.
    + rewrite Hrow by exact Hk. reflexivity.
Qed.

End ShiftRows.

Lemma transfer_function_shift_rows_witness :
  exists rows,
    @_transfer_function_shift midpoint_libraries (constant_delta 5 3)
      [10] [3] [1] [1 / 2] [2] [15] [0] [0; 1] true = Ok rows
    /\ length rows = 2%nat
    /\ nth 0 rows []
       = np.zip_with Cmult (map RtoC [3])
           (nth 0 (_synaptic_filter [0; 1] [1 / 2]) []).
Proof.
  destruct (@transfer_function_shift_rows midpoint_libraries
              (constant_delta 5 3)
              [10] [3] [1] [2] [1 / 2] [15] [0]
              [10] [3] [1] [2] [1 / 2] [15] [0] [0; 1] true
              (PyFloat 3) (PyFloat 5)
              eq_refl eq_refl eq_refl eq_refl eq_refl)
    as (rows & Hrows & Hlen & Hrow).
  exists rows. split; [exact Hrows|]. split; [exact Hlen|].
  rewrite (Hrow 0%nat) by (simpl; lia). simpl nth at 1.
  replace (Rltb (Rabs 0) 1e-15) with true; [reflexivity|].
  symmetry. apply Rltb_true. rewrite Rabs_R0. lra.
Defined.

(** ** The propagator and the inverse of [I - W] *)

Lemma Cmult_comm z w : Cmult z w = Cmult w z.
Proof. complex_ring. Qed.











(** ** The entries of the sensitivity measure sum to the eigenvalue *)

Lemma Cinv_l z : z <> RtoC 0 -> Cmult (Cinv z) z = RtoC 1.
Proof.
  destruct z as [a b]. intros Hz.
  assert (H : a * a + b * b <> 0).
  { intros H0. apply Hz. unfold RtoC.
    assert (a = 0) by nra. assert (b = 0) by nra. now subst. }
  unfold Cmult, Cinv, RtoC. simpl fst. simpl snd.
  apply complex_eq; simpl fst; simpl snd; field; exact H.
Qed.

Section SensitivitySum.

Context {lib : Libraries}.

(** X17.  Where [eig] returns, for the selected index, a right eigenvector
    of the effective connectivity [W] (column [index] of [U_r], with
    eigenvalue [e[index]]) whose product with the left eigenvector does not
    vanish, the entries of the sensitivity measure of that frequency sum to
    the selected eigenvalue, the one closest to 1. *)
Theorem sensitivity_measure_sums_to_eigenvalue n W e U_l U_r index :
  eig n W = (e, U_l, U_r) ->
  closest_to_one e = Ok index ->
  (forall i, (i < n)%nat ->
     Csum (fun j => Cmult (W i j) (U_r j index)) n
     = Cmult (nth index e (RtoC 0)) (U_r i index)) ->
  Csum (fun k => Cmult (Cconj (U_l k index)) (U_r k index)) n <> RtoC 0 ->
  exists T,
    _sensitivity_measure n [W] = Ok [T]
    /\ Csum (fun i => Csum (fun j => T i j) n) n = nth index e (RtoC 0).
Proof.
  intros Heig Hidx Hvec Hdot.
  unfold _sensitivity_measure. simpl mapM. rewrite Heig, Hidx. simpl bind.
  eexists. split; [reflexivity|]. cbv beta.
  set (dot := Csum (fun k => Cmult (Cconj (U_l k index)) (U_r k index)) n)
    in *.
  set (lam := nth index e (RtoC 0)) in *.
  rewrite (Csum_ext _ (fun i =>
             Cmult (Cmult (Cinv dot) lam)
               (Cmult (Cconj (U_l i index)) (U_r i index)))).
  - rewrite Csum_mult_l. fold dot.
    rewrite <- Cmult_assoc, (Cmult_comm lam dot), Cmult_assoc.
    rewrite Cinv_l by exact Hdot. apply Cmult_1_l.
  - intros i Hi.
    rewrite (Csum_ext _ (fun j =>
               Cmult (Cmult (Cinv dot) (Cconj (U_l i index)))
                 (Cmult (W i j) (U_r j index)))).
    + rewrite Csum_mult_l, (Hvec i Hi). unfold Cmult. apply complex_eq;
        simpl fst; simpl snd; ring.
    + intros j _. unfold Cdiv, Cmult. apply complex_eq;
        simpl fst; simpl snd; ring.
Qed.

End SensitivitySum.

Lemma sensitivity_measure_sums_to_eigenvalue_witness :
  let W := diagonal_matrix [(0.2, 0); (0.95, 0.1); (0, 0.5)] in
  exists T,
    @_sensitivity_measure midpoint_libraries 3 [W] = Ok [T]
    /\ Csum (fun i => Csum (fun j => T i j) 3) 3 = (0.95, 0.1).
Proof.
  intros W.
  assert (Hidx : closest_to_one [(0.2, 0); (0.95, 0.1); (0, 0.5)]
                 = Ok 1%nat).
  { destruct (closest_to_one_spec [(0.2, 0); (0.95, 0.1); (0, 0.5)])
      as (index & Hidx & Hlt & Hmin); [discriminate|].
    destruct example_distances as [H0 H2].
    destruct index as [|[|[|k]]]; simpl in Hlt; try lia.
    - specialize (Hmin 1%nat ltac:(simpl; lia)). simpl in Hmin. lra.
    - exact Hidx.
    - specialize (Hmin 1%nat ltac:(simpl; lia)). simpl in Hmin. lra. }
  apply (@sensitivity_measure_sums_to_eigenvalue midpoint_libraries 3 W
           [(0.2, 0); (0.95, 0.1); (0, 0.5)] mat.identity mat.identity
           1%nat eq_refl Hidx).
  - intros [|[|[|i]]] Hi; try lia; unfold W, diagonal_matrix, mat.identity;
      simpl; apply complex_eq; simpl; ring.
  - unfold mat.identity. simpl. unfold Cplus, Cmult, Cconj, RtoC. simpl.
    intros H. injection H. intros. lra.
Defined.

(** ** The power spectrum as a weighted sum of squared gains *)



(** X19.  Without connections (effective connectivity 0 at every frequency)
    the power spectrum of each population is flat: at each of the [m]
    frequencies the entry of population [j] is [|nu[j] / N[j]|], the rate
    per neuron of the population. *)
Theorem power_spectra_of_unconnected_populations nu N m :
  length nu = length N ->
  Forall (fun s => s <> 0) N ->
  _power_spectra nu (repeat zero_matrix m) N
  = Ok (repeat (map (fun j => Rabs (nth j nu 0 / nth j N 0))
                  (seq 0 (length N))) m).
Proof.
  intros _ _. induction m as [|m IH]; [reflexivity|].
  simpl repeat. rewrite power_spectra_cons, IH.
  destruct (inv_spec (length N) (mat.sub mat.identity zero_matrix))
    as [(_ & Q & HQ & HQinv) | (Hn & _)].
  - rewrite HQ. simpl. f_equal. f_equal.
    apply map_ext_in. intros j Hj. apply in_seq in Hj.
    assert (Hj' : (j < length N)%nat) by lia.
    apply inverse_of_identity_minus_zero in HQinv.
    rewrite <- Cabs_RtoC. f_equal.
    unfold power_matrix. unfold mat.dot at 1.
    rewrite (Csum_single _ (length N) j Hj').
    + rewrite rate_size_times_conj_transpose by assumption.
      rewrite (HQinv j j Hj' Hj'). unfold mat.identity.
      rewrite Nat.eqb_refl. unfold Cmult, Cconj, RtoC.
      apply complex_eq; simpl; ring.
    + intros l Hl Hne. rewrite (HQinv j l Hj' Hl). unfold mat.identity.
      apply Nat.eqb_neq in Hne. rewrite Nat.eqb_sym in Hne. rewrite Hne.
      apply Cmult_0_l.
  - exfalso. apply Hn, identity_minus_zero_invertible.
Qed.

Lemma power_spectra_of_unconnected_populations_witness :
  _power_spectra [1; 2] (repeat zero_matrix 3) [10; 20]
  = Ok (repeat (map (fun j => Rabs (nth j [1; 2] 0 / nth j [10; 20] 0))
                  (seq 0 2)) 3).
Proof.
  apply (power_spectra_of_unconnected_populations [1; 2] [10; 20] 3).
  - reflexivity.
  - repeat constructor; lra.
Defined.

(** ** The entries of the effective connectivity *)

Lemma broadcast_axis dim i :
  (i < dim)%nat -> (if Nat.eqb dim 1 then 0%nat else i) = i.
Proof.
  intros H. destruct (Nat.eqb_spec dim 1); [lia | reflexivity].
Qed.

Lemma mul_scalar x a :
  nd.mul (nd.scalar x) a
  = nd.Ok {| nd.shape := nd.shape a;
             nd.item := fun idx =>
               Cmult x (nd.item a (nd.operand_index (nd.shape a) idx)) |}.
Proof.
  unfold nd.mul, nd.broadcast_shapes. simpl.
  now rewrite rev_involutive.
Qed.

Lemma broadcast_reversed_same s : nd.broadcast_reversed s s = Some s.
Proof.
  induction s as [|a s IH]; [reflexivity|]. simpl.
  rewrite Nat.eqb_refl, IH. reflexivity.
Qed.

Lemma mul_same_shape a b :
  nd.shape a = nd.shape b ->
  nd.mul a b
  = nd.Ok {| nd.shape := nd.shape a;
             nd.item := fun idx =>
               Cmult (nd.item a (nd.operand_index (nd.shape a) idx))
                 (nd.item b (nd.operand_index (nd.shape b) idx)) |}.
Proof.
  intros H. unfold nd.mul, nd.broadcast_shapes. rewrite <- H.
  rewrite broadcast_reversed_same. simpl. now rewrite rev_involutive.
Qed.

Lemma mul_matrix_stack a b F n :
  nd.shape a = [n; n] -> nd.shape b = [F; n; n] ->
  nd.mul a b
  = nd.Ok {| nd.shape := [F; n; n];
             nd.item := fun idx =>
               Cmult (nd.item a (nd.operand_index (nd.shape a) idx))
                 (nd.item b (nd.operand_index (nd.shape b) idx)) |}.
Proof.
  intros Ha Hb. unfold nd.mul, nd.broadcast_shapes. rewrite Ha, Hb.
  simpl. rewrite Nat.eqb_refl. simpl. reflexivity.
Qed.

Lemma mul_matrix_vector a b n :
  nd.shape a = [n; n] -> nd.shape b = [n] ->
  nd.mul a b
  = nd.Ok {| nd.shape := [n; n];
             nd.item := fun idx =>
               Cmult (nd.item a (nd.operand_index (nd.shape a) idx))
                 (nd.item b (nd.operand_index (nd.shape b) idx)) |}.
Proof.
  intros Ha Hb. unfold nd.mul, nd.broadcast_shapes. rewrite Ha, Hb.
  simpl. rewrite Nat.eqb_refl. simpl. reflexivity.
Qed.

Lemma operand_index_2_of_3 n k a b :
  (a < n)%nat -> (b < n)%nat -> nd.operand_index [n; n] [k; a; b] = [a; b].
Proof.
  intros Ha Hb. unfold nd.operand_index. simpl.
  now rewrite !broadcast_axis.
Qed.

Lemma operand_index_3 F n k a b :
  (k < F)%nat -> (a < n)%nat -> (b < n)%nat ->
  nd.operand_index [F; n; n] [k; a; b] = [k; a; b].
Proof.
  intros Hk Ha Hb. unfold nd.operand_index. simpl.
  now rewrite !broadcast_axis.
Qed.

Lemma operand_index_2 n a b :
  (a < n)%nat -> (b < n)%nat -> nd.operand_index [n; n] [a; b] = [a; b].
Proof.
  intros Ha Hb. unfold nd.operand_index. simpl.
  now rewrite !broadcast_axis.
Qed.

Lemma operand_index_1_of_2 n a b :
  (b < n)%nat -> nd.operand_index [n] [a; b] = [b].
Proof.
  intros Hb. unfold nd.operand_index. simpl.
  now rewrite !broadcast_axis.
Qed.

(** X15.  For weight and indegree arrays [J] and [K] of shape [(n, n)]:
    with a transfer function of shape [(F, n)] and a delay distribution of
    shape [(F, n, n)], [_effective_connectivity] returns the array of shape
    [(F, n, n)] with the entries
    [tau_m * J[a, b] * K[a, b] * transfer_function[k, a] * D[k, a, b]], the
    transfer function being that of the row (target) population [a]; with a
    transfer function of shape [(n,)] and a delay distribution of shape
    [(n, n)] it returns the same entries for the single frequency; with a
    delay distribution of shape [(n,)] the transfer function and the delay
    distribution are instead indexed by the column [b]; a delay
    distribution without axes or with more than three raises the
    [RuntimeError] of the invalid format. *)
Theorem effective_connectivity_entries transfer_function D J K tau_m F n :
  nd.shape J = [n; n] -> nd.shape K = [n; n] ->
  (nd.shape transfer_function = [F; n] -> nd.shape D = [F; n; n] ->
   exists W,
     _effective_connectivity transfer_function D J K tau_m = nd.Ok W
     /\ nd.shape W = [F; n; n]
     /\ forall k a b, (k < F)%nat -> (a < n)%nat -> (b < n)%nat ->
          nd.item W [k; a; b]
          = Cmult (Cmult (Cmult (Cmult (RtoC tau_m) (nd.item J [a; b]))
                            (nd.item K [a; b]))
                     (nd.item transfer_function [k; a]))
              (nd.item D [k; a; b]))
  /\ (nd.shape transfer_function = [n] -> nd.shape D = [n; n] ->
      exists W,
        _effective_connectivity transfer_function D J K tau_m = nd.Ok W
        /\ nd.shape W = [n; n]
        /\ forall a b, (a < n)%nat -> (b < n)%nat ->
             nd.item W [a; b]
             = Cmult (Cmult (Cmult (Cmult (RtoC tau_m) (nd.item J [a; b]))
                               (nd.item K [a; b]))
                        (nd.item transfer_function [a]))
                 (nd.item D [a; b]))
  /\ (nd.shape transfer_function = [n] -> nd.shape D = [n] ->
      exists W,
        _effective_connectivity transfer_function D J K tau_m = nd.Ok W
        /\ nd.shape W = [n; n]
        /\ forall a b, (a < n)%nat -> (b < n)%nat ->
             nd.item W [a; b]
             = Cmult (Cmult (Cmult (Cmult (RtoC tau_m) (nd.item J [a; b]))
                               (nd.item K [a; b]))
                        (nd.item transfer_function [b]))
                 (nd.item D [b]))
  /\ (length (nd.shape D) = 0%nat \/ (3 < length (nd.shape D))%nat ->
      _effective_connectivity transfer_function D J K tau_m
      = nd.Raise nd.RuntimeError_delay_format).
Proof.
  intros HJ HK. repeat split.
  - intros Htf HD. unfold _effective_connectivity. rewrite HD.
    cbn [length]. unfold nd.shape_0. rewrite HK. cbn [nd.bind].
    unfold nd.einsum_ijk_kji, nd.tile, nd.T. rewrite Htf.
    cbn [nd.shape nd.item rev app length Nat.max Nat.sub nd.promote repeat
         np.zip_with nd.bind].
    rewrite mul_scalar. cbn [nd.bind].
    rewrite mul_same_shape by (cbn [nd.shape]; congruence).
    cbn [nd.bind nd.shape].
    rewrite !Nat.mul_1_r, !Nat.mul_1_l.
    rewrite (mul_matrix_stack _ _ F n) by (cbn [nd.shape]; congruence).
    cbn [nd.bind nd.shape].
    rewrite mul_same_shape by (cbn [nd.shape]; congruence).
    eexists. split; [reflexivity|]. split; [reflexivity|].
    intros k a b Hk Ha Hb. cbn [nd.item nd.shape]. rewrite HJ, HK, HD.
    rewrite !operand_index_3, !operand_index_2_of_3, !operand_index_2
      by assumption.
    cbn [skipn rev app]. rewrite !Nat.mod_small by assumption.
    reflexivity.
  - intros Htf HD. unfold _effective_connectivity. rewrite HD.
    cbn [length]. unfold nd.shape_0. rewrite HK. cbn [nd.bind].
    unfold nd.tile, nd.T. rewrite Htf.
    cbn [nd.shape nd.item rev app length Nat.max Nat.sub nd.promote repeat
         np.zip_with nd.bind].
    rewrite mul_scalar. cbn [nd.bind].
    rewrite mul_same_shape by (cbn [nd.shape]; congruence).
    cbn [nd.bind nd.shape].
    rewrite !Nat.mul_1_r, !Nat.mul_1_l.
    rewrite mul_same_shape by (cbn [nd.shape]; congruence).
    cbn [nd.bind nd.shape].
    rewrite mul_same_shape by (cbn [nd.shape]; congruence).
    eexists. split; [reflexivity|]. split; [cbn [nd.shape]; exact HJ|].
    intros a b Ha Hb. cbn [nd.item nd.shape]. rewrite HJ, HK, HD.
    rewrite !operand_index_2 by assumption.
    cbn [skipn rev app np.zip_with]. rewrite !Nat.mod_small by assumption.
    reflexivity.
  - intros Htf HD. unfold _effective_connectivity. rewrite HD.
    cbn [length nd.bind].
    rewrite mul_scalar. cbn [nd.bind].
    rewrite mul_same_shape by (cbn [nd.shape]; congruence).
    cbn [nd.bind nd.shape].
    rewrite (mul_matrix_vector _ _ n) by (cbn [nd.shape]; congruence).
    cbn [nd.bind nd.shape].
    rewrite (mul_matrix_vector _ _ n) by (cbn [nd.shape]; congruence).
    eexists. split; [reflexivity|]. split; [reflexivity|].
    intros a b Ha Hb. cbn [nd.item nd.shape]. rewrite HJ, HK, HD, Htf.
    rewrite !operand_index_2, !operand_index_1_of_2 by assumption.
    reflexivity.
  - intros [H | H]; unfold _effective_connectivity.
    + rewrite H. reflexivity.
    + destruct (length (nd.shape D)) as [|[|[|[|l]]]]; try lia.
      reflexivity.
Qed.

Lemma effective_connectivity_entries_witness :
  exists W,
    _effective_connectivity (constant_array [3; 2]%nat 5)
      (constant_array [3; 2; 2]%nat 1) (constant_array [2; 2]%nat 0.5)
      (constant_array [2; 2]%nat 100) 0.01 = nd.Ok W
    /\ nd.shape W = [3; 2; 2]%nat
    /\ nd.item W [0; 1; 0]%nat
       = Cmult (Cmult (Cmult (Cmult (RtoC 0.01) (RtoC 0.5)) (RtoC 100))
                  (RtoC 5)) (RtoC 1).
Proof.
  destruct (effective_connectivity_entries (constant_array [3; 2]%nat 5)
              (constant_array [3; 2; 2]%nat 1)
              (constant_array [2; 2]%nat 0.5)
              (constant_array [2; 2]%nat 100) 0.01 3 2 eq_refl eq_refl)
    as [H _].
  destruct (H eq_refl eq_refl) as (W & HW & Hs & Hitem).
  exists W. split; [exact HW|]. split; [exact Hs|].
  apply (Hitem 0%nat 1%nat 0%nat); lia.
Defined.

(** ** The sign of the derivatives with respect to the mean input *)

Lemma derivable_pt_lim_neg_square x :
  derivable_pt_lim (fun y => - (y * y)) x (- (2 * x)).
Proof.
  intros eps Heps. exists (mkposreal eps Heps). intros h Hh Hlt. simpl in Hlt.
  replace ((- ((x + h) * (x + h)) - - (x * x)) / h - - (2 * x)) with (- h)
    by (field; exact Hh).
  now rewrite Rabs_Ropp.
Qed.

Lemma derivable_pt_lim_exp_neg_sq x :
  derivable_pt_lim exp_neg_sq x (exp_neg_sq x * - (2 * x)).
Proof.
  unfold exp_neg_sq.
  apply (derivable_pt_lim_comp (fun y => - (y * y)) exp).
  - apply derivable_pt_lim_neg_square.
  - apply derivable_pt_lim_exp.
Qed.

Lemma erf_lt_1 x : erf x < 1.
Proof.
  destruct (Rle_lt_dec 0 x) as [H | H].
  - apply erf_bounds, H.
  - replace x with (- - x) by ring. rewrite erf_odd.
    destruct (erf_bounds (- x)) as [H1 _]; [lra|].
    assert (exp (- (- x * - x)) <= 1).
    { rewrite <- exp_0. apply exp_le_mono. nra. }
    lra.
Qed.

Lemma erf_gt_minus_1 x : -1 < erf x.
Proof.
  pose proof (erf_lt_1 (- x)) as H. rewrite erf_odd in H. lra.
Qed.

(** [G(y) = exp(-y^2)/sqrt(pi) - y (1 - erf y)] has the derivative
    [-(1 - erf y)]. *)
Lemma mills_difference_derivative x :
  derivable_pt_lim
    (fun y => exp_neg_sq y / sqrt PI - y * (1 - erf y)) x (- (1 - erf x)).
Proof.
  pose proof sqrt_PI_pos as Hpi.
  set (f1 := fun y : R => exp_neg_sq y).
  set (f2 := fun y : R => 1 - erf y).
  assert (H1 : derivable_pt_lim (mult_real_fct (/ sqrt PI) f1) x
                 (/ sqrt PI * (exp_neg_sq x * - (2 * x)))).
  { apply derivable_pt_lim_scal, derivable_pt_lim_exp_neg_sq. }
  assert (H2 : derivable_pt_lim f2 x (0 - 2 / sqrt PI * exp (- (x * x)))).
  { apply (derivable_pt_lim_minus (fct_cte 1) erf).
    - apply derivable_pt_lim_const.
    - apply derivable_pt_lim_erf. }
  assert (H3 : derivable_pt_lim (id * f2)%F x
                 (1 * f2 x + id x * (0 - 2 / sqrt PI * exp (- (x * x))))).
  { apply derivable_pt_lim_mult; [apply derivable_pt_lim_id | exact H2]. }
  apply (derivable_pt_lim_ext
           (mult_real_fct (/ sqrt PI) f1 - (id * f2))%F).
  - intro z. unfold minus_fct, mult_real_fct, mult_fct, id, f1, f2.
    unfold Rdiv. ring.
  - replace (- (1 - erf x))
      with (/ sqrt PI * (exp_neg_sq x * - (2 * x))
            - (1 * f2 x + id x * (0 - 2 / sqrt PI * exp (- (x * x))))).
    + apply derivable_pt_lim_minus; assumption.
    + unfold f2, id, exp_neg_sq. field. lra.
Qed.

Lemma mills_difference_decreasing x y :
  x < y ->
  exp_neg_sq y / sqrt PI - y * (1 - erf y)
  < exp_neg_sq x / sqrt PI - x * (1 - erf x).
Proof.
  intros Hxy.
  destruct (MVT_cor2
              (fun y => exp_neg_sq y / sqrt PI - y * (1 - erf y))
              (fun y => - (1 - erf y)) x y Hxy)
    as (c & Hc & _).
  { intros c _. apply mills_difference_derivative. }
  pose proof (erf_lt_1 c). simpl in Hc. nra.
Qed.

Lemma mills_difference_lower y :
  0 < y -> - (1 / y) <= exp_neg_sq y / sqrt PI - y * (1 - erf y).
Proof.
  intros Hy. pose proof sqrt_PI_pos as Hpi.
  destruct (erf_bounds y) as [H1 _]; [lra|].
  assert (He : 0 < exp_neg_sq y) by apply exp_pos.
  assert (H2 : 0 < exp_neg_sq y / sqrt PI)
    by (apply Rdiv_lt_0_compat; assumption).
  assert (H3 : exp_neg_sq y * (1 + y * y) <= 1).
  { unfold exp_neg_sq.
    assert (1 + y * y <= exp (y * y)) by (apply exp_ineq1_le).
    assert (exp (- (y * y)) * exp (y * y) = 1).
    { rewrite <- exp_plus. replace (- (y * y) + y * y) with 0 by ring.
      apply exp_0. }
    pose proof (exp_pos (- (y * y))). nra. }
  assert (H4 : y * (1 - erf y) <= y * exp_neg_sq y).
  { apply Rmult_le_compat_l; [lra|]. fold (exp_neg_sq y) in H1. lra. }
  assert (H5 : y * exp_neg_sq y <= 1 / y).
  { apply Rmult_le_reg_r with y; [exact Hy|].
    replace (1 / y * y) with 1 by (field; lra). nra. }
  lra.
Qed.

Lemma mills_difference_pos x :
  0 < exp_neg_sq x / sqrt PI - x * (1 - erf x).
Proof.
  pose proof (mills_difference_decreasing x (x + 1) ltac:(lra)) as H1.
  set (g1 := exp_neg_sq (x + 1) / sqrt PI - (x + 1) * (1 - erf (x + 1))) in *.
  destruct (Rle_lt_dec 0 g1) as [H | H]; [lra|].
  exfalso.
  set (y := Rmax (x + 2) (- 2 / g1)).
  assert (Hy1 : x + 2 <= y) by apply Rmax_l.
  assert (Hy2 : - 2 / g1 <= y) by apply Rmax_r.
  assert (Hpos : 0 < - 2 / g1).
  { unfold Rdiv. replace (- 2 * / g1) with (2 * / - g1)
      by (field; lra).
    apply Rmult_lt_0_compat; [lra|]. apply Rinv_0_lt_compat. lra. }
  assert (Hy : 0 < y) by lra.
  pose proof (mills_difference_decreasing (x + 1) y ltac:(lra)) as H2.
  fold g1 in H2.
  pose proof (mills_difference_lower y Hy) as H3.
  assert (H4 : 1 / y <= - g1 / 2).
  { apply Rmult_le_reg_r with y; [exact Hy|].
    replace (1 / y * y) with 1 by (field; lra).
    assert (- 2 / g1 * (- g1 / 2) = 1) by (field; lra).
    assert (0 < - g1 / 2) by lra. nra. }
  lra.
Qed.

(** The Mills-ratio bound of the scaled complementary error function:
    [x * erfcx(x) < 1 / sqrt(pi)]. *)
Lemma erfcx_mills_bound x : x * erfcx x < / sqrt PI.
Proof.
  pose proof (mills_difference_pos x) as H. unfold erfcx.
  pose proof (exp_pos (x ^ 2)) as He.
  assert (Hinv : exp (x ^ 2) * exp_neg_sq x = 1).
  { unfold exp_neg_sq. rewrite <- exp_plus.
    replace (x ^ 2 + - (x * x)) with 0 by ring. apply exp_0. }
  assert (H1 : exp (x ^ 2) * (x * (1 - erf x))
               < exp (x ^ 2) * (exp_neg_sq x / sqrt PI)).
  { apply Rmult_lt_compat_l; [exact He | lra]. }
  replace (exp (x ^ 2) * (exp_neg_sq x / sqrt PI))
    with (exp (x ^ 2) * exp_neg_sq x * / sqrt PI) in H1
    by (unfold Rdiv; ring).
  rewrite Hinv in H1. lra.
Qed.

(** [exp(y^2) (1 + erf y)] and its derivative. *)
Lemma derivable_pt_lim_exp_sq_erf y :
  derivable_pt_lim (fun y => exp (y ^ 2) * (1 + erf y)) y
    (2 * (y * (exp (y ^ 2) * (1 + erf y))) + 2 / sqrt PI).
Proof.
  pose proof sqrt_PI_pos as Hpi.
  assert (Hf : derivable_pt_lim (fun y => exp (y ^ 2)) y
                 (exp (y ^ 2) * (2 * y))).
  { apply (derivable_pt_lim_comp (fun y => y ^ 2) exp).
    - replace (2 * y) with (INR 2 * y ^ Nat.pred 2) by (simpl; ring).
      apply derivable_pt_lim_pow.
    - apply derivable_pt_lim_exp. }
  assert (Hg : derivable_pt_lim (fun y => 1 + erf y) y
                 (0 + 2 / sqrt PI * exp (- (y * y)))).
  { apply (derivable_pt_lim_plus (fct_cte 1) erf).
    - apply derivable_pt_lim_const.
    - apply derivable_pt_lim_erf. }
  assert (He : exp (y ^ 2) * exp (- (y * y)) = 1).
  { rewrite <- exp_plus. replace (y ^ 2 + - (y * y)) with 0 by ring.
    apply exp_0. }
  set (f := fun y : R => exp (y ^ 2)) in *.
  set (g := fun y : R => 1 + erf y) in *.
  replace (2 * (y * (exp (y ^ 2) * (1 + erf y))) + 2 / sqrt PI)
    with (exp (y ^ 2) * (2 * y) * g y
          + f y * (0 + 2 / sqrt PI * exp (- (y * y)))).
  - exact (derivable_pt_lim_mult f g y _ _ Hf Hg).
  - unfold f, g.
    transitivity (2 * (y * (exp (y ^ 2) * (1 + erf y)))
                  + exp (y ^ 2) * exp (- (y * y)) * (2 / sqrt PI)); [ring|].
    rewrite He. ring.
Qed.

Lemma exp_sq_erf_derivative_pos y :
  0 < 2 * (y * (exp (y ^ 2) * (1 + erf y))) + 2 / sqrt PI.
Proof.
  pose proof (erfcx_mills_bound (- y)) as H. unfold erfcx in H.
  rewrite erf_odd in H.
  replace ((- y) ^ 2) with (y ^ 2) in H by ring.
  replace (1 - - erf y) with (1 + erf y) in H by ring.
  set (E := exp (y ^ 2) * (1 + erf y)) in *.
  replace (- y * E) with (- (y * E)) in H by ring.
  unfold Rdiv. lra.
Qed.

Lemma exp_sq_erf_increasing x y :
  x < y -> exp (x ^ 2) * (1 + erf x) < exp (y ^ 2) * (1 + erf y).
Proof.
  intros Hxy.
  destruct (MVT_cor2
              (fun y => exp (y ^ 2) * (1 + erf y))
              (fun y => 2 * (y * (exp (y ^ 2) * (1 + erf y))) + 2 / sqrt PI)
              x y Hxy)
    as (c & Hc & _).
  { intros c _. apply derivable_pt_lim_exp_sq_erf. }
  pose proof (exp_sq_erf_derivative_pos c) as Hpos. cbv beta in Hc.
  assert (0 < (2 * (c * (exp (c ^ 2) * (1 + erf c))) + 2 / sqrt PI)
              * (y - x)) by (apply Rmult_lt_0_compat; lra).
  lra.
Qed.

Section DerivativeSign.

Context {lib : Libraries}.

(** X20.  The rate increases with the mean input: for [tau_m > 0],
    [tau_r > 0], [V_0_rel < V_th_rel] and [sigma > 0] (and Gauss-Legendre
    rules with sample points in [[-1, 1]] and non-negative weights summing
    to 2) the derivative [d_nu_d_mu] returns is strictly positive, for
    reset and threshold with [y_r >= -4] and [y_th <= 15]: the range in
    which double precision keeps [nu0**2], [exp(y_th**2)] and
    [1 + erf(y_r)] away from underflow, overflow and cancellation (outside
    it the program can return 0.0 or nan).  The only exception raised is
    the convergence error of the order search of [nu_0]. *)
Theorem d_nu_d_mu_positive tau_m tau_r V_th_rel V_0_rel mu sigma :
  (forall order, gauss_legendre_rule order) ->
  0 < tau_m -> 0 < tau_r -> V_0_rel < V_th_rel -> 0 < sigma ->
  -4 <= (V_0_rel - mu) / sigma -> (V_th_rel - mu) / sigma <= 15 ->
  (exists d,
     d_nu_d_mu tau_m tau_r V_th_rel V_0_rel mu sigma = Ok d /\ 0 < d)
  \/ (exists rel_error,
        d_nu_d_mu tau_m tau_r V_th_rel V_0_rel mu sigma
        = Raise (RuntimeError_convergence 10 rel_error)).
Proof.
  intros Hgl Hm Hr HV Hsig _ _. unfold d_nu_d_mu. cbv zeta.
  rewrite nu_0_float by assumption. cbv zeta.
  set (y_th := (V_th_rel - mu) / sigma).
  set (y_r := (V_0_rel - mu) / sigma).
  assert (Hy : y_r < y_th).
  { unfold y_r, y_th, Rdiv.
    apply Rmult_lt_compat_r; [now apply Rinv_0_lt_compat | lra]. }
  destruct (order_search_float_outcome y_th y_r) as [[gl E] | [rel E]];
    rewrite E; cbn [bind as_float].
  - left. eexists. split; [reflexivity|].
    destruct (siegert_at_range Hgl tau_m tau_r Hm Hr gl y_th y_r Hy)
      as [Hpos _].
    pose proof (exp_sq_erf_increasing y_r y_th Hy) as Hinc.
    pose proof sqrt_PI_pos as Hpi.
    apply Rmult_lt_0_compat; [|lra].
    apply Rdiv_lt_0_compat; [|exact Hsig].
    apply Rmult_lt_0_compat.
    + apply Rmult_lt_0_compat; assumption.
    + apply pow_lt. exact Hpos.
  - right. now exists rel.
Qed.

End DerivativeSign.

Lemma d_nu_d_mu_positive_witness :
  (-4 <= (0 - 10) / 3 /\ (15 - 10) / 3 <= 15)
  /\ ((exists d,
         @d_nu_d_mu midpoint_libraries 1 2 15 0 10 3 = Ok d /\ 0 < d)
      \/ (exists rel_error,
            @d_nu_d_mu midpoint_libraries 1 2 15 0 10 3
            = Raise (RuntimeError_convergence 10 rel_error))).
Proof.
  split; [lra|].
  apply (@d_nu_d_mu_positive midpoint_libraries 1 2 15 0 10 3
           midpoint_libraries_rule); lra.
Defined.

(** X21.  On arguments between -4 and 37, [Phi] (and [_Phi]) increases
    strictly with its argument, and for [sigma > 0] its derivative with
    respect to the mean input, [Phi_prime_mu] (and each element of
    [_Phi_prime_mu]), is strictly negative.  The bounds are those of double
    precision: above 37.7 [exp(s**2 / 2)] overflows, and well below -4 the
    factor [1 + erf(s / sqrt 2)] loses its digits to cancellation (it is
    0.0 from about -8.4 on, so that [Phi] is constant there, and nan below
    -37.7). *)
Theorem Phi_increases_and_falls_with_mean_input :
  (forall s1 s2, -4 <= s1 -> s1 < s2 -> s2 <= 37 ->
     Phi s1 < Phi s2 /\ _Phi s1 < _Phi s2)
  /\ (forall s sigma, 0 < sigma -> -4 <= s <= 37 ->
        Phi_prime_mu s sigma < 0 /\ Phi_prime_mu_at s sigma < 0)
  /\ (forall s sigma, length s = length sigma ->
        Forall (fun sigma => 0 < sigma) sigma ->
        Forall (fun s => -4 <= s <= 37) s ->
        exists d, _Phi_prime_mu s sigma = Ok d
                  /\ length d = length s
                  /\ Forall (fun d => d < 0) d).
Proof.
  pose proof Rlt_sqrt2_0 as H2. pose proof sqrt_PI_pos as Hpi.
  pose proof sqrt_half_PI_pos as Hhp.
  assert (Hneg : forall s sigma, 0 < sigma -> Phi_prime_mu_at s sigma < 0).
  { intros s sigma Hsig. unfold Phi_prime_mu_at.
    pose proof (exp_sq_erf_derivative_pos (s / sqrt 2)) as H.
    rewrite half_square in H.
    assert (Hb : 0 < s * exp (s ^ 2 / 2) * (1 + erf (s / sqrt 2))
                     + sqrt 2 / sqrt PI).
    { replace (s * exp (s ^ 2 / 2) * (1 + erf (s / sqrt 2))
               + sqrt 2 / sqrt PI)
        with (sqrt 2 / 2
              * (2 * (s / sqrt 2
                      * (exp (s ^ 2 / 2) * (1 + erf (s / sqrt 2))))
                 + 2 / sqrt PI)) by (field; lra).
      apply Rmult_lt_0_compat; [lra | exact H]. }
    assert (Ha : 0 < sqrt PI / sigma) by (now apply Rdiv_lt_0_compat).
    replace (- sqrt PI / sigma) with (- (sqrt PI / sigma))
      by (unfold Rdiv; ring).
    nra. }
  split; [|split].
  - intros s1 s2 _ Hs _.
    assert (H : _Phi s1 < _Phi s2).
    { unfold _Phi. rewrite <- !half_square.
      apply Rmult_lt_compat_l; [exact Hhp|].
      apply exp_sq_erf_increasing. unfold Rdiv.
      apply Rmult_lt_compat_r; [now apply Rinv_0_lt_compat | exact Hs]. }
    split; exact H.
  - intros s sigma Hsig _. split; apply Hneg, Hsig.
  - intros s sigma Hlen Hpos _. unfold _Phi_prime_mu.
    rewrite (proj2 (any_map_false_iff (fun sigma => Rltb sigma 0) sigma))
      by (eapply Forall_impl; [|exact Hpos]; intros x Hx;
          apply Rltb_false; lra).
    rewrite (proj2 (any_map_false_iff (fun sigma => Reqb sigma 0) sigma))
      by (eapply Forall_impl; [|exact Hpos]; intros x Hx;
          apply Reqb_false; lra).
    eexists. split; [reflexivity|]. split.
    + rewrite zip_with_length; [reflexivity | exact Hlen].
    + revert s Hlen.
      induction Hpos as [|x sigma Hx Hpos IH]; intros [|y s] Hlen;
        simpl in *; try discriminate; constructor.
      * apply Hneg, Hx.
      * apply IH. lia.
Qed.

(** ** The Fourier transform of the boxcar kernel *)

Lemma sin_abs_le x : Rabs (sin x) <= Rabs x.
Proof.
  assert (Hpos : forall y, 0 < y -> Rabs (sin y) <= y).
  { intros y Hy.
    destruct (MVT_cor2 sin cos 0 y Hy) as (c & Hc & _).
    { intros c _. apply derivable_pt_lim_sin. }
    rewrite sin_0 in Hc. pose proof (COS_bound c) as [H1 H2].
    apply Rabs_le. split; nra. }
  destruct (Rtotal_order x 0) as [H | [-> | H]].
  - rewrite <- (Rabs_Ropp (sin x)), <- sin_neg, <- (Rabs_Ropp x).
    rewrite (Rabs_right (- x)) by lra. apply Hpos. lra.
  - rewrite sin_0, Rabs_R0. lra.
  - rewrite (Rabs_right x) by lra. now apply Hpos.
Qed.

(** X22.  For a width other than 0, the Fourier transform
    [p_hat_boxcar k width] of the boxcar kernel is at most 1 in absolute
    value, is even in the wave number [k] and in the width, and is
    continuous at [k = 0], where the code returns 1 instead of evaluating
    [sin(k * width) / (k * width)]. *)
Theorem p_hat_boxcar_bounded_even_continuous width :
  width <> 0 ->
  (forall k, Rabs (p_hat_boxcar k width) <= 1)
  /\ (forall k, p_hat_boxcar (- k) width = p_hat_boxcar k width)
  /\ (forall k, p_hat_boxcar k (- width) = p_hat_boxcar k width)
  /\ (forall eps, 0 < eps ->
        exists delta, 0 < delta
          /\ forall k, Rabs k < delta ->
               Rabs (p_hat_boxcar k width - p_hat_boxcar 0 width) < eps).
Proof.
  intros Hw. repeat split.
  - intros k. unfold p_hat_boxcar. destruct (Reqb k 0) eqn:E.
    + rewrite Rabs_R1. lra.
    + apply Reqb_false in E.
      assert (Hx : k * width <> 0) by (apply Rmult_integral_contrapositive;
                                        split; assumption).
      unfold Rdiv. rewrite Rabs_mult, Rabs_inv.
      pose proof (sin_abs_le (k * width)) as Hs.
      assert (Hp : 0 < Rabs (k * width)) by (now apply Rabs_pos_lt).
      apply Rmult_le_reg_r with (Rabs (k * width)); [exact Hp|].
      rewrite Rmult_assoc, Rinv_l by lra. lra.
  - intros k. unfold p_hat_boxcar.
    destruct (Reqb k 0) eqn:E.
    + apply Reqb_true in E. subst k.
      rewrite (proj2 (Reqb_true (- 0) 0)) by ring. reflexivity.
    + apply Reqb_false in E.
      rewrite (proj2 (Reqb_false (- k) 0)) by lra.
      replace (- k * width) with (- (k * width)) by ring.
      rewrite sin_neg. field. split; assumption.
  - intros k. unfold p_hat_boxcar.
    destruct (Reqb k 0) eqn:E; [reflexivity|].
    apply Reqb_false in E.
    replace (k * - width) with (- (k * width)) by ring.
    rewrite sin_neg. field. split; assumption.
  - intros eps Heps.
    destruct (derivable_pt_lim_sin_0 eps Heps) as [delta Hd].
    assert (Haw : 0 < Rabs width) by (now apply Rabs_pos_lt).
    exists (delta / Rabs width). split.
    + apply Rdiv_lt_0_compat; [apply cond_pos | exact Haw].
    + intros k Hk. unfold p_hat_boxcar at 2.
      rewrite (proj2 (Reqb_true 0 0)) by reflexivity.
      unfold p_hat_boxcar. destruct (Reqb k 0) eqn:E.
      * replace (1 - 1) with 0 by ring. now rewrite Rabs_R0.
      * apply Reqb_false in E.
        assert (Hx : k * width <> 0)
          by (apply Rmult_integral_contrapositive; split; assumption).
        assert (Hlt : Rabs (k * width) < delta).
        { rewrite Rabs_mult.
          apply Rmult_lt_reg_r with (/ Rabs width);
            [now apply Rinv_0_lt_compat|].
          rewrite Rmult_assoc, Rinv_r by lra.
          unfold Rdiv in Hk. lra. }
        specialize (Hd (k * width) Hx Hlt).
        rewrite Rplus_0_l, sin_0, Rminus_0_r in Hd. exact Hd.
Qed.

Lemma p_hat_boxcar_bounded_even_continuous_witness :
  (forall k, Rabs (p_hat_boxcar k 2) <= 1)
  /\ (forall k, p_hat_boxcar (- k) 2 = p_hat_boxcar k 2)
  /\ (forall k, p_hat_boxcar k (- 2) = p_hat_boxcar k 2)
  /\ (forall eps, 0 < eps ->
        exists delta, 0 < delta
          /\ forall k, Rabs k < delta ->
               Rabs (p_hat_boxcar k 2 - p_hat_boxcar 0 2) < eps).
Proof.
  apply (p_hat_boxcar_bounded_even_continuous 2). lra.
Defined.

(** ** The non-trivial eigenvalue of an array with equal rows *)

Lemma Cmult_integral a b :
  Cmult a b = RtoC 0 -> a = RtoC 0 \/ b = RtoC 0.
Proof.
  destruct a as [a1 a2], b as [b1 b2]. unfold Cmult, RtoC. simpl.
  intros H. injection H as H1 H2.
  assert (Hp : (a1 * a1 + a2 * a2) * (b1 * b1 + b2 * b2) = 0) by nra.
  apply Rmult_integral in Hp. destruct Hp as [Hp | Hp].
  - left. assert (a1 = 0) by nra. assert (a2 = 0) by nra. now subst.
  - right. assert (b1 = 0) by nra. assert (b2 = 0) by nra. now subst.
Qed.

Lemma map_nth_seq (row : list R) :
  map (fun j => nth j row 0) (seq 0 (length row)) = row.
Proof.
  apply nth_ext with (d := 0) (d' := 0).
  - now rewrite length_map, length_seq.
  - intros i Hi. rewrite length_map, length_seq in Hi.
    rewrite nth_map_lt with (d := 0%nat) by (now rewrite length_seq).
    now rewrite seq_nth.
Qed.

Lemma nth_repeat_row {A} (row d : A) n i :
  (i < n)%nat -> nth i (repeat row n) d = row.
Proof.
  revert i. induction n as [|n IH]; intros [|i] Hi; simpl; try lia; auto.
  apply IH. lia.
Qed.

(** The product of an array of [n] equal rows with a vector has the same
    entry [sum_j row[j] * v[j]] in every row. *)
Lemma same_rows_product row n v i :
  (i < n)%nat ->
  Csum (fun j => Cmult (RtoC (nth j (nth i (repeat row n) []) 0)) (v j)) n
  = Csum (fun j => Cmult (RtoC (nth j row 0)) (v j)) n.
Proof.
  intros Hi. now rewrite nth_repeat_row.
Qed.

Lemma same_rows_row_sum_eigenvalue n row :
  (0 < n)%nat -> length row = n ->
  eigenvalue n (repeat row n) (RtoC (np.sum row)).
Proof.
  intros Hn Hlen. exists (fun _ => RtoC 1). split.
  - exists 0%nat. split; [exact Hn|]. unfold RtoC. intros H.
    injection H. lra.
  - intros i Hi. rewrite same_rows_product by exact Hi.
    rewrite Csum_mult_r, Csum_RtoC. subst n. now rewrite map_nth_seq.
Qed.

Lemma same_rows_nonzero_eigenvalue n row lam :
  length row = n ->
  eigenvalue n (repeat row n) lam -> lam <> RtoC 0 ->
  lam = RtoC (np.sum row).
Proof.
  intros Hlen (v & (i0 & Hi0 & Hv0) & Hv) Hlam.
  set (c := Csum (fun j => Cmult (RtoC (nth j row 0)) (v j)) n).
  assert (Hc : forall i, (i < n)%nat -> Cmult lam (v i) = c).
  { intros i Hi. rewrite <- (Hv i Hi). now apply same_rows_product. }
  assert (Hcne : c <> RtoC 0).
  { intros H0. rewrite <- (Hc i0 Hi0) in H0.
    apply Cmult_integral in H0. tauto. }
  assert (Heq : Cmult lam c = Cmult (RtoC (np.sum row)) c).
  { unfold c at 1. rewrite <- Csum_mult_l.
    rewrite (Csum_ext _ (fun j => Cmult (RtoC (nth j row 0)) c)).
    - rewrite Csum_mult_r, Csum_RtoC. subst n. now rewrite map_nth_seq.
    - intros j Hj. rewrite <- (Hc j Hj).
      apply complex_eq; simpl; ring. }
  assert (Hz : Cmult (Cminus lam (RtoC (np.sum row))) c = RtoC 0).
  { rewrite Cmult_minus_distr_r, Heq. apply complex_eq; simpl; ring. }
  apply Cmult_integral in Hz. destruct Hz as [Hz | Hz]; [|contradiction].
  destruct lam as [l1 l2]. unfold Cminus, RtoC in *. simpl in Hz.
  injection Hz as H1 H2. f_equal; lra.
Qed.

(** X23.  For an array of [n > 0] equal rows of length [n],
    [determinant_same_rows] returns the sum of the row; that sum is an
    eigenvalue of the array (with the vector of ones), and it is the only
    eigenvalue the array can have apart from 0. *)
Theorem determinant_same_rows_is_the_nontrivial_eigenvalue n row :
  (0 < n)%nat -> length row = n ->
  determinant_same_rows (repeat row n) = Some (np.sum row)
  /\ eigenvalue n (repeat row n) (RtoC (np.sum row))
  /\ forall lam, eigenvalue n (repeat row n) lam -> lam <> RtoC 0 ->
       lam = RtoC (np.sum row).
Proof.
  intros Hn Hlen. split; [|split].
  - destruct n as [|n]; [lia | reflexivity].
  - now apply same_rows_row_sum_eigenvalue.
  - intros lam. now apply same_rows_nonzero_eigenvalue.
Qed.

Lemma determinant_same_rows_is_the_nontrivial_eigenvalue_witness :
  determinant_same_rows (repeat [1; 2] 2) = Some (np.sum [1; 2])
  /\ eigenvalue 2 (repeat [1; 2] 2) (RtoC (np.sum [1; 2]))
  /\ forall lam, eigenvalue 2 (repeat [1; 2] 2) lam -> lam <> RtoC 0 ->
       lam = RtoC (np.sum [1; 2]).
Proof.
  apply (determinant_same_rows_is_the_nontrivial_eigenvalue 2 [1; 2]).
  - lia.
  - reflexivity.
Defined.

(** ** The eigenvalue [determinant] selects *)

Lemma where_indices_from_none i mask :
  where_indices_from i mask = [] <-> Forall (fun m => m = false) mask.
Proof.
  revert i. induction mask as [|m mask IH]; intros i; simpl.
  - split; auto.
  - destruct m.
    + split; [discriminate|]. intros H. inversion H. discriminate.
    + rewrite IH. split; intros H; [now constructor | now inversion H].
Qed.

Lemma where_indices_from_single {A} (p : A -> bool) l i j :
  where_indices_from i (map p l) = [j]
  <-> exists l1 r l2,
        l = l1 ++ r :: l2 /\ p r = true
        /\ Forall (fun x => p x = false) (l1 ++ l2)
        /\ j = (i + length l1)%nat.
Proof.
  revert i. induction l as [|x l IH]; intros i; simpl.
  - split; [discriminate|]. intros (l1 & r & l2 & H & _).
    destruct l1; discriminate.
  - destruct (p x) eqn:E.
    + split.
      * intros H. injection H as <- H.
        apply where_indices_from_none in H. rewrite Forall_map in H.
        exists [], x, l. simpl.
        split; [reflexivity|]. split; [exact E|]. split; [exact H | lia].
      * intros (l1 & r & l2 & H & Hr & Hall & ->).
        destruct l1 as [|y l1]; simpl in *.
        -- injection H as -> ->. f_equal; [lia|].
           apply where_indices_from_none. now rewrite Forall_map.
        -- injection H as -> ->. inversion Hall. congruence.
    + rewrite IH. split.
      * intros (l1 & r & l2 & -> & Hr & Hall & ->).
        exists (x :: l1), r, l2. simpl.
        split; [reflexivity|]. split; [exact Hr|].
        split; [now constructor | lia].
      * intros (l1 & r & l2 & H & Hr & Hall & ->).
        destruct l1 as [|y l1]; simpl in *.
        -- injection H as -> ->. congruence.
        -- injection H as -> ->. exists l1, r, l2.
           split; [reflexivity|]. split; [exact Hr|].
           split; [now inversion Hall | lia].
Qed.

Section DeterminantSelection.

Variable eigvals : list (list R) -> list complex.

(** X24.  [determinant] returns [res] exactly when [res] is the one
    eigenvalue [np.linalg.eigvals] returns whose absolute value exceeds
    [1.E-10], wherever it stands among the others; in every other case it
    raises.  On an array of equal rows all of whose computed eigenvalues are
    eigenvalues of the array, what it returns is the value
    [determinant_same_rows] returns. *)
Theorem determinant_selects_the_nontrivial_eigenvalue :
  (forall matrix res,
     determinant eigvals matrix = Some res
     <-> exists l1 l2,
           eigvals matrix = l1 ++ res :: l2
           /\ 1e-10 < Cabs res
           /\ Forall (fun r => Cabs r <= 1e-10) (l1 ++ l2))
  /\ (forall n row res,
        length row = n ->
        (forall lam, In lam (eigvals (repeat row n)) ->
                     eigenvalue n (repeat row n) lam) ->
        determinant eigvals (repeat row n) = Some res ->
        option_map RtoC (determinant_same_rows (repeat row n)) = Some res).
Proof.
  assert (Hchar : forall matrix res,
     determinant eigvals matrix = Some res
     <-> exists l1 l2,
           eigvals matrix = l1 ++ res :: l2
           /\ 1e-10 < Cabs res
           /\ Forall (fun r => Cabs r <= 1e-10) (l1 ++ l2)).
  { intros matrix res. unfold determinant, where_indices. cbv zeta.
    set (p := fun r : complex => Rltb 1e-10 (Cabs r)).
    set (l := eigvals matrix).
    assert (Hp : forall l', Forall (fun x => p x = false) l'
                            <-> Forall (fun r => Cabs r <= 1e-10) l').
    { intros l'. split; intros H; (eapply Forall_impl; [|exact H]);
        intros x Hx; unfold p in *.
      - apply Rltb_false in Hx. lra.
      - apply Rltb_false. lra. }
    split.
    - destruct (where_indices_from 0 (map p l)) as [|j [|j' idx]] eqn:E;
        simpl; try discriminate.
      intros Hnth.
      apply where_indices_from_single in E.
      destruct E as (l1 & r & l2 & Hl & Hr & Hall & ->).
      rewrite Hl in Hnth. simpl in Hnth.
      rewrite nth_error_app2, Nat.sub_diag in Hnth by lia.
      injection Hnth as ->.
      exists l1, l2. split; [exact Hl|]. split.
      + now apply Rltb_true in Hr.
      + now apply Hp.
    - intros (l1 & l2 & Hl & Hr & Hall).
      assert (E : where_indices_from 0 (map p l) = [length l1]).
      { apply where_indices_from_single. exists l1, res, l2.
        repeat split; auto.
        - now apply Rltb_true.
        - now apply Hp. }
      rewrite E. simpl. rewrite Hl.
      now rewrite nth_error_app2, Nat.sub_diag by lia. }
  split; [exact Hchar|].
  intros n row res Hlen Hsound Hdet.
  apply Hchar in Hdet. destruct Hdet as (l1 & l2 & Hl & Hr & _).
  assert (Hin : In res (eigvals (repeat row n))).
  { rewrite Hl. apply in_or_app. right. now left. }
  assert (Hne : res <> RtoC 0).
  { intros ->. unfold Cabs, RtoC in Hr. simpl in Hr.
    replace (0 * (0 * 1) + 0 * (0 * 1)) with 0 in Hr by ring.
    rewrite sqrt_0 in Hr. lra. }
  pose proof (same_rows_nonzero_eigenvalue n row res Hlen
                (Hsound res Hin) Hne) as ->.
  destruct n as [|n]; [|reflexivity].
  exfalso. destruct (Hsound _ Hin) as (v & (i & Hi & _) & _). lia.
Qed.

End DeterminantSelection.

(** ** The derivative by the input rate and the recurrences of [Psi] *)

Section InputRate.

Context {lib : Libraries}.

(** X25.  For [sigma <> 0], the linear contribution [d_nu_d_nu_in_fb]
    returns is [j * tau_m] times the derivative [d_nu_d_mu] of the rate at
    the threshold and reset shifted as in [nu0_fb], and it raises where that
    derivative raises; the first value it returns is the sum of the linear
    and the quadratic contribution. *)
Theorem d_nu_d_nu_in_fb_linear_contribution
  tau_m tau_s tau_r V_th V_r j mu sigma :
  sigma <> 0 ->
  let shift :=
    sigma * (sqrt 2 * Rabs (zetac (1 / 2) + 1)) / 2 * sqrt (tau_s / tau_m) in
  (t <- d_nu_d_nu_in_fb tau_m tau_s tau_r V_th V_r j mu sigma ;;
   Ok (snd (fst t)))
  = (d <- d_nu_d_mu tau_m tau_r (V_th + shift) (V_r + shift) mu sigma ;;
     Ok (j * tau_m * d))
  /\ forall total lin sqr,
       d_nu_d_nu_in_fb tau_m tau_s tau_r V_th V_r j mu sigma
       = Ok (total, lin, sqr) ->
       total = lin + sqr.
Proof.
  intros Hs shift. unfold d_nu_d_nu_in_fb, d_nu_d_mu, nu0_fb. cbv zeta.
  fold shift.
  destruct (nu_0 tau_m tau_r (V_th + shift) (V_r + shift) [mu] [sigma])
    as [v|e]; cbn [bind]; [|split; [reflexivity | discriminate]].
  destruct (as_float v) as [nu0|e]; cbn [bind fst snd];
    [|split; [reflexivity | discriminate]].
  split.
  - f_equal.
    replace ((V_th - mu) / sigma
             + sqrt 2 * Rabs (zetac (1 / 2) + 1) / 2 * sqrt (tau_s / tau_m))
      with ((V_th + shift - mu) / sigma) by (unfold shift; field; exact Hs).
    replace ((V_r - mu) / sigma
             + sqrt 2 * Rabs (zetac (1 / 2) + 1) / 2 * sqrt (tau_s / tau_m))
      with ((V_r + shift - mu) / sigma) by (unfold shift; field; exact Hs).
    unfold Rdiv. ring.
  - intros total lin sqr H. injection H as <- <- <-. reflexivity.
Qed.

(** X26.  The second derivative of [Psi] is the recurrence of its first
    derivative applied twice: [d_2_Psi(z, x)] equals
    [(1/2 + z) * d_Psi(z + 1, x)], in [aux_calcs.py] and in [lif/exp.py],
    and so do the differences [d2Psi_x_r] and [dPsi_x_r]. *)
Theorem d_2_Psi_applies_the_recurrence_twice z x y :
  d_2_Psi z x = Cmult (Cplus (RtoC (1 / 2)) z) (d_Psi (Cplus z (RtoC 1)) x)
  /\ _d_2_Psi z x
     = Cmult (Cplus (RtoC (1 / 2)) z) (_d_Psi (Cplus z (RtoC 1)) x)
  /\ d2Psi_x_r z x y
     = Cmult (Cplus (RtoC (1 / 2)) z) (dPsi_x_r (Cplus z (RtoC 1)) x y).
Proof.
  assert (Hz : Cplus (Cplus z (RtoC 1)) (RtoC 1) = Cplus z (RtoC 2))
    by (apply complex_eq; simpl; ring).
  assert (H : forall P : complex,
            Cmult (Cmult (Cplus (RtoC (1 / 2)) z) (Cplus (RtoC (3 / 2)) z)) P
            = Cmult (Cplus (RtoC (1 / 2)) z)
                (Cmult (Cplus (RtoC (1 / 2)) (Cplus z (RtoC 1))) P)).
  { intros P. apply complex_eq; simpl; field. }
  split; [|split].
  - unfold d_2_Psi, d_Psi. rewrite Hz. apply H.
  - unfold _d_2_Psi, _d_Psi. rewrite Hz. apply H.
  - unfold d2Psi_x_r, dPsi_x_r, d_2_Psi, d_Psi. rewrite Hz, !H.
    apply complex_eq; simpl; ring.
Qed.

End InputRate.

Lemma d_nu_d_nu_in_fb_linear_contribution_witness :
  let shift :=
    3 * (sqrt 2 * Rabs (@zetac midpoint_libraries (1 / 2) + 1)) / 2
    * sqrt (1 / 2 / 1) in
  (t <- @d_nu_d_nu_in_fb midpoint_libraries 1 (1 / 2) 2 15 0 (1 / 10) 10 3 ;;
   Ok (snd (fst t)))
  = (d <- @d_nu_d_mu midpoint_libraries 1 2 (15 + shift) (0 + shift) 10 3 ;;
     Ok (1 / 10 * 1 * d))
  /\ forall total lin sqr,
       @d_nu_d_nu_in_fb midpoint_libraries 1 (1 / 2) 2 15 0 (1 / 10) 10 3
       = Ok (total, lin, sqr) ->
       total = lin + sqr.
Proof.
  apply (@d_nu_d_nu_in_fb_linear_contribution midpoint_libraries
           1 (1 / 2) 2 15 0 (1 / 10) 10 3).
  lra.
Defined.

